(** * Stock metadata tagger: the analysis pipeline

    A shallow embedding of the TypeScript sources of the analysis pipeline
    (retry policy, result validator/repairer, the two protocol adapters,
    preset-aware validation and the per-image orchestrator), followed by
    the properties established about them.

    Conventions of the embedding
    - A JavaScript string is a [string]; each character stands for one
      UTF-16 code unit below 256, so [String.length] is the [.length] of
      the source.
    - A JavaScript number is an integer [Z]: the code only computes with
      lengths, counts, bounds and delays.
    - A decoded JSON value is a tree [JsVal]; two objects or arrays decoded
      at different places are different references.
    - A function that may throw returns an [Outcome]; an [async] function
      whose promise rejects is a function that throws.
    - Effectful code is written in the state-and-exception monad [M]. *)

From Stdlib Require Import ZArith String Ascii DecimalString.
From stdpp Require Import gmap strings list.

Local Open Scope string_scope.
Local Open Scope list_scope.
Local Open Scope nat_scope.

(** ** Strings *)

Module JsString.

(** The white space and line terminator code units below 256 that
    [String.prototype.trim] removes: TAB, LF, VT, FF, CR, SP, NBSP. *)
Definition is_whitespace (c : ascii) : bool :=
  let n := nat_of_ascii c in
  ((9 <=? n)%nat && (n <=? 13)%nat) || (n =? 32)%nat || (n =? 160)%nat.

Fixpoint trimStart (s : string) : string :=
  match s with
  | EmptyString => EmptyString
  | String c s' => if is_whitespace c then trimStart s' else s
  end.

Fixpoint trimEnd (s : string) : string :=
  match s with
  | EmptyString => EmptyString
  | String c s' =>
      match trimEnd s' with
      | EmptyString => if is_whitespace c then EmptyString else String c EmptyString
      | t => String c t
      end
  end.

(** [s.trim()] *)
Definition trim (s : string) : string := trimEnd (trimStart s).

(** [s.substring(0, n)] *)
Definition substring0 (n : nat) (s : string) : string := String.substring 0 n s.

(** [s.slice(a, -b)] for non-negative [a] and [b]. *)
Definition slice_neg (a b : nat) (s : string) : string :=
  String.substring a (String.length s - b - a) s.

(** [s.startsWith(p)] *)
Definition startsWith (p s : string) : bool := String.prefix p s.

Definition rev (s : string) : string :=
  string_of_list_ascii (List.rev (list_ascii_of_string s)).

(** [s.endsWith(p)] *)
Definition endsWith (p s : string) : bool := String.prefix (rev p) (rev s).

(** [c.toLowerCase()] on one code unit below 256: A-Z, and the Latin-1
    capitals U+00C0..U+00DE except the multiplication sign U+00D7. *)
Definition lower_unit (c : ascii) : ascii :=
  let n := nat_of_ascii c in
  if ((65 <=? n)%nat && (n <=? 90)%nat)
     || ((192 <=? n)%nat && (n <=? 222)%nat && negb (n =? 215)%nat)
  then ascii_of_nat (n + 32) else c.

Fixpoint toLowerCase (s : string) : string :=
  match s with
  | EmptyString => EmptyString
  | String c s' => String (lower_unit c) (toLowerCase s')
  end.

(** Index of the first occurrence of the code unit [c]. *)
Fixpoint indexOf (c : ascii) (s : string) : option nat :=
  match s with
  | EmptyString => None
  | String d s' => if Ascii.eqb c d then Some 0%nat else S <$> indexOf c s'
  end.

(** Index of the last occurrence of the code unit [c]. *)
Fixpoint lastIndexOf (c : ascii) (s : string) : option nat :=
  match s with
  | EmptyString => None
  | String d s' =>
      match lastIndexOf c s' with
      | Some i => Some (S i)
      | None => if Ascii.eqb c d then Some 0%nat else None
      end
  end.

(** [`${n}`] for an integer-valued number below 2^53 in magnitude, which
    JavaScript prints digit by digit. *)
Definition of_Z (n : Z) : string := NilZero.string_of_int (Z.to_int n).

End JsString.

(** ** Values *)

Inductive JsPrim : Type :=
| PUndefined
| PNull
| PBool (b : bool)
| PNum (n : Z)
| PStr (s : string).

#[local] Unset Elimination Schemes.
Inductive JsVal : Type :=
| JPrim (p : JsPrim)
| JArr (items : list JsVal)
| JObj (props : list (string * JsVal)).
#[local] Set Elimination Schemes.

Abbreviation JUndefined := (JPrim PUndefined).
Abbreviation JNull := (JPrim PNull).
#[warnings="-notation-for-abbreviation"]
Notation JBool b := (JPrim (PBool b)).
#[warnings="-notation-for-abbreviation"]
Notation JNum n := (JPrim (PNum n)).
#[warnings="-notation-for-abbreviation"]
Notation JStr s := (JPrim (PStr s)).

#[global] Instance JsPrim_eq_dec : EqDecision JsPrim.
Proof. solve_decision. Defined.

(** An [Error] object, observed through its [name] and [message]. *)
Record JsError : Type := mkError { err_name : string; err_message : string }.

#[global] Instance JsError_eq_dec : EqDecision JsError.
Proof. solve_decision. Defined.

(** [new Error(message)] *)
Definition new_Error (message : string) : JsError := mkError "Error" message.

(** The [TypeError] the runtime raises. *)
Definition TypeError (message : string) : JsError := mkError "TypeError" message.

(** What a [throw] (or a rejected promise) carries: an [Error] instance, or
    some other value, of which the primitive ones are modelled. *)
Inductive Thrown : Type :=
| ThrownError (e : JsError)
| ThrownValue (p : JsPrim).

#[global] Instance Thrown_eq_dec : EqDecision Thrown.
Proof. solve_decision. Defined.

Inductive Outcome (A : Type) : Type :=
| Returns (a : A)
| Throws (t : Thrown).
Arguments Returns {A} a.
Arguments Throws {A} t.

(** ** Operators of the language *)

(** Own property lookup in an object literal / decoded object. *)
Fixpoint own_prop (props : list (string * JsVal)) (key : string) : option JsVal :=
  match props with
  | [] => None
  | (k, v) :: rest => if String.eqb k key then Some v else own_prop rest key
  end.

Definition has_own (props : list (string * JsVal)) (key : string) : bool :=
  match own_prop props key with Some _ => true | None => false end.

(** [!!v] *)
Definition truthy (v : JsVal) : bool :=
  match v with
  | JUndefined | JNull => false
  | JBool b => b
  | JNum n => negb (n =? 0)%Z
  | JStr s => negb (String.eqb s "")
  | JArr _ | JObj _ => true
  end.

(** [a || b] *)
Definition js_or (a b : JsVal) : JsVal := if truthy a then a else b.

(** [v?.key] for the property names the program reads ([alt_text],
    [description], [title], [caption], [keywords], [choices], [message],
    [content], [length]): none of them is inherited from a prototype,
    except [length] on strings and arrays. *)
Definition get_opt (v : JsVal) (key : string) : JsVal :=
  match v with
  | JObj props => default JUndefined (own_prop props key)
  | JStr s => if String.eqb key "length" then JNum (Z.of_nat (String.length s)) else JUndefined
  | JArr items => if String.eqb key "length" then JNum (Z.of_nat (length items)) else JUndefined
  | _ => JUndefined
  end.

(** [v.key]: as [v?.key], but reading a property of [null] or [undefined]
    is a [TypeError]. *)
Definition get (v : JsVal) (key : string) : Outcome JsVal :=
  match v with
  | JUndefined => Throws (ThrownError (TypeError ("Cannot read properties of undefined (reading '" +:+ key +:+ "')")))
  | JNull => Throws (ThrownError (TypeError ("Cannot read properties of null (reading '" +:+ key +:+ "')")))
  | _ => Returns (get_opt v key)
  end.

(** [v?.[0]] *)
Definition index0_opt (v : JsVal) : JsVal :=
  match v with
  | JArr (x :: _) => x
  | JStr (String c _) => JStr (String c EmptyString)
  | JObj props => default JUndefined (own_prop props "0")
  | _ => JUndefined
  end.

(** [Array.isArray(v) ? v : []] *)
Definition array_items (v : JsVal) : list JsVal :=
  match v with JArr items => items | _ => [] end.

Definition cannot_convert : Thrown :=
  ThrownError (TypeError "Cannot convert object to primitive value").

Definition prim_ToString (p : JsPrim) : string :=
  match p with
  | PUndefined => "undefined"
  | PNull => "null"
  | PBool true => "true"
  | PBool false => "false"
  | PNum n => JsString.of_Z n
  | PStr s => s
  end.

(** The text of one item in [Array.prototype.join]: [null] and [undefined]
    give the empty string. *)
Definition item_text (to_string : JsVal → Outcome string) (x : JsVal) : Outcome string :=
  match x with
  | JUndefined | JNull => Returns ""
  | _ => to_string x
  end.

(** [items.join(",")] *)
Fixpoint join (to_string : JsVal → Outcome string) (items : list JsVal) : Outcome string :=
  match items with
  | [] => Returns ""
  | x :: rest =>
      match item_text to_string x with
      | Throws t => Throws t
      | Returns s =>
          match rest with
          | [] => Returns s
          | _ => match join to_string rest with
                 | Throws t => Throws t
                 | Returns r => Returns (s +:+ "," +:+ r)
                 end
          end
      end
  end.

(** [`${v}`], the string conversion of a template literal. An array is
    joined with commas. An object gives ["[object Object]"] through the
    inherited [toString], unless it carries an own [toString] property: a
    decoded JSON value is never callable, so neither that property nor
    [valueOf] yields a primitive, and the conversion throws. *)
Fixpoint ToString (v : JsVal) : Outcome string :=
  match v with
  | JPrim p => Returns (prim_ToString p)
  | JArr items => join ToString items
  | JObj props =>
      if has_own props "toString" then Throws cannot_convert
      else Returns "[object Object]"
  end.

(** [v.length >= n] for a truthy [v]. Strings and arrays have a length;
    numbers and booleans have none ([undefined >= n] is false); an object
    has the own property [length] it was decoded with, compared as a
    number. When that property is itself a string or an array JavaScript
    parses it as a floating-point literal first: this conversion is left
    out of the model, which answers [false] there, and the statements below
    about arbitrary inputs do not depend on that answer. *)
Definition length_ge (v : JsVal) (n : Z) : Outcome bool :=
  match v with
  | JStr s => Returns (n <=? Z.of_nat (String.length s))%Z
  | JArr items => Returns (n <=? Z.of_nat (length items))%Z
  | JPrim _ => Returns false
  | JObj props =>
      match own_prop props "length" with
      | Some (JNum z) => Returns (n <=? z)%Z
      | Some (JBool b) => Returns (n <=? (if b then 1 else 0))%Z
      | Some JNull => Returns (n <=? 0)%Z
      | Some (JObj q) => if has_own q "toString" then Throws cannot_convert else Returns false
      | _ => Returns false
      end
  end.

(** [SameValueZero], the equality of [Set]: primitives by value, objects
    and arrays by reference, and two decoded subtrees never share one. *)
Definition sameValueZero (a b : JsVal) : bool :=
  match a, b with
  | JPrim p, JPrim q => bool_decide (p = q)
  | _, _ => false
  end.

(** ** Sets in insertion order *)

Section InsertionOrderedSet.
Context {A : Type} (same : A → A → bool).

Definition Set_has (s : list A) (x : A) : bool := existsb (same x) s.

(** [s.add(x)] *)
Definition Set_add (s : list A) (x : A) : list A :=
  if Set_has s x then s else s ++ [x].

(** [Array.from(new Set(xs))] *)
Definition Array_from_Set (xs : list A) : list A := fold_left Set_add xs [].
End InsertionOrderedSet.

(** ** The state-and-exception monad *)

Definition M (S A : Type) : Type := S → Outcome A * S.

Definition ret {S A} (a : A) : M S A := λ s, (Returns a, s).
Definition throw {S A} (t : Thrown) : M S A := λ s, (Throws t, s).
Definition bind {S A B} (m : M S A) (k : A → M S B) : M S B :=
  λ s, match m s with
       | (Returns a, s') => k a s'
       | (Throws t, s') => (Throws t, s')
       end.
(** [try { m } catch (error) { handler error }] *)
Definition try_catch {S A} (m : M S A) (handler : Thrown → M S A) : M S A :=
  λ s, match m s with
       | (Returns a, s') => (Returns a, s')
       | (Throws t, s') => handler t s'
       end.
Definition lift_outcome {S A} (o : Outcome A) : M S A := λ s, (o, s).
Definition modify {S} (f : S → S) : M S unit := λ s, (Returns (), f s).

#[global] Instance M_ret {S} : MRet (M S) := λ A, ret.
#[global] Instance M_bind {S} : MBind (M S) := λ A B k m, bind m k.

(** ** Result schema validator and repairer
    ([backend/src/lib/validation/resultSchema.ts]) *)

Definition strs (l : list string) : list JsVal := map (λ s, JStr s) l.

Definition obj3 (alt_text title : JsVal) (keywords : list JsVal) : JsVal :=
  JObj [("alt_text", alt_text); ("title", title); ("keywords", JArr keywords)].

(** The value [ResultSchema.parse] returns. *)
Record ValidatedResult : Type := mkValidated {
  alt_text : string;
  title : string;
  keywords : list string
}.

(** The items of an array all of whose items are strings. *)
Fixpoint as_strings (items : list JsVal) : option (list string) :=
  match items with
  | [] => Some []
  | JStr s :: rest =>
      match as_strings rest with
      | Some l => Some (s :: l)
      | None => None
      end
  | _ => None
  end.

(** The size constraints of the schema: [min(5).max(160)], [min(5)],
    [min(5).max(50)]. *)
Definition schema_bounds (alt_text title : string) (keywords : list string) : bool :=
  (5 <=? String.length alt_text) && (String.length alt_text <=? 160)
  && (5 <=? String.length title)
  && (5 <=? length keywords) && (length keywords <=? 50).
Arguments schema_bounds : simpl never.

(** [ResultSchema.parse(rawResult)], with
    [ResultSchema = z.object({ alt_text: z.string().min(5).max(160),
                               title: z.string().min(5),
                               keywords: z.array(z.string()).min(5).max(50) })].
    The zod library accepts a non-null, non-array object whose three fields
    have the given types and sizes, strips the other keys, and throws a
    [ZodError] otherwise: [None] stands for that throw. *)
Definition ResultSchema_parse (rawResult : JsVal) : option ValidatedResult :=
  match rawResult with
  | JObj props =>
      match own_prop props "alt_text", own_prop props "title", own_prop props "keywords" with
      | Some (JStr a), Some (JStr t), Some (JArr ks) =>
          match as_strings ks with
          | Some kws =>
              if schema_bounds a t kws
              then Some (mkValidated a t kws)
              else None
          | None => None
          end
      | _, _, _ => None
      end
  | _ => None
  end.

Definition fallbackKeywords : list JsVal :=
  [JStr "image"; JStr "photo"; JStr "visual"; JStr "content"; JStr "media"].

(** [validated.title.length > 70 ? validated.title.substring(0, 70).trim()
                                  : validated.title] *)
Definition processedTitle (title : string) : string :=
  if 70 <? String.length title
  then JsString.trim (JsString.substring0 70 title)
  else title.

(** [Array.from(new Set(validated.keywords)).slice(0, 25)] *)
Definition processedKeywords (keywords : list string) : list string :=
  let uniqueKeywords := Array_from_Set String.eqb keywords in
  take 25 uniqueKeywords.

(** The [try] block of [processResult], after a successful parse. *)
Definition process_validated (validated : ValidatedResult) : JsVal :=
  obj3 (JStr (alt_text validated))
       (JStr (processedTitle (title validated)))
       (strs (processedKeywords (keywords validated))).

(** [x.length >= 5 ? x : `${qualifier} ${x}`] *)
Definition at_least_5_or_prefix (qualifier : string) (x : JsVal) : Outcome JsVal :=
  match length_ge x 5 with
  | Throws t => Throws t
  | Returns true => Returns x
  | Returns false =>
      match ToString x with
      | Throws t => Throws t
      | Returns s => Returns (JStr (qualifier +:+ " " +:+ s))
      end
  end.

(** The [catch] block of [processResult]. *)
Definition repair (rawResult : JsVal) : Outcome JsVal :=
  let altText := js_or (js_or (get_opt rawResult "alt_text") (get_opt rawResult "description"))
                       (JStr "Professional image") in
  let title := js_or (js_or (get_opt rawResult "title") (get_opt rawResult "caption"))
                     (JStr "High-quality image") in
  let keywords := array_items (get_opt rawResult "keywords") in
  let keywords :=
    if (length keywords <? 5)%nat then take 25 (keywords ++ fallbackKeywords) else keywords in
  let keywords := Array_from_Set sameValueZero keywords in
  let keywords := if (length keywords <? 5)%nat then fallbackKeywords else keywords in
  match at_least_5_or_prefix "Professional" altText with
  | Throws t => Throws t
  | Returns a =>
      match at_least_5_or_prefix "High-quality" title with
      | Throws t => Throws t
      | Returns t => Returns (obj3 a t (take 25 keywords))
      end
  end.

Definition processResult (rawResult : JsVal) : Outcome JsVal :=
  match ResultSchema_parse rawResult with
  | Some validated => Returns (process_validated validated)
  | None => repair rawResult
  end.

(** ** Retry policy ([backend/src/lib/utils/retry.ts]) *)

(** What a run of [withRetry] does besides computing its result: it
    invokes the operation and it sleeps. The log is kept next to the state
    of the world the operation acts on. *)
Inductive RetryEvent : Type :=
| Invoked
| Slept (delayMs : Z).

Record Run (W : Type) : Type := mkRun { world : W; events : list RetryEvent }.
Arguments mkRun {W} world events.
Arguments world {W} r.
Arguments events {W} r.

(** [error instanceof Error ? error : new Error(String(error))] *)
Definition as_Error (error : Thrown) : JsError :=
  match error with
  | ThrownError e => e
  | ThrownValue p => new_Error (prim_ToString p)
  end.

(** [throw lastError!], where [lastError] is still [undefined] if the loop
    body never ran. *)
Definition throw_lastError {S A} (lastError : option JsError) : M S A :=
  match lastError with
  | Some e => throw (ThrownError e)
  | None => throw (ThrownValue PUndefined)
  end.

Section Retry.
Context {W T : Type}.
Variable fn : M W T.

(** [await fn()] *)
Definition invoke : M (Run W) T :=
  λ r, let '(o, w') := fn (world r) in (o, mkRun w' (events r ++ [Invoked])).

(** [await new Promise(resolve => setTimeout(resolve, delayMs))] *)
Definition sleep (delayMs : Z) : M (Run W) unit :=
  modify (λ r, mkRun (world r) (events r ++ [Slept delayMs])).

(** The [for] loop and the [throw] after it. [iterations] counts the
    rounds for which [attempt <= maxRetries] still holds. *)
Fixpoint retry_loop (maxRetries baseDelayMs : Z) (iterations : nat) (attempt : Z)
         (lastError : option JsError) : M (Run W) T :=
  match iterations with
  | O => throw_lastError lastError
  | S iterations' =>
      try_catch invoke (λ error,
        let lastError := as_Error error in
        if (attempt =? maxRetries)%Z then throw_lastError (Some lastError)
        else
          let delayMs := (baseDelayMs * 2 ^ attempt)%Z in
          sleep delayMs ≫= λ _,
          retry_loop maxRetries baseDelayMs iterations' (attempt + 1)%Z (Some lastError))
  end.

Definition withRetry (maxRetries baseDelayMs : Z) : M (Run W) T :=
  retry_loop maxRetries baseDelayMs (Z.to_nat (maxRetries + 1)) 0%Z None.
End Retry.

(** The default [baseDelayMs = 1000]. *)
Definition default_baseDelayMs : Z := 1000.

(** ** Protocol adapters *)

Record Request : Type := mkRequest {
  url : string;
  method : string;
  headers : list (string * string);
  (** the value handed to [JSON.stringify] *)
  body : JsVal
}.

(** The response of [fetch], with the outcome of [response.json()]. *)
Record Response : Type := mkResponse {
  ok : bool;
  status : Z;
  statusText : string;
  json : Outcome JsVal
}.

(** [{ ...validatedResult, raw: data }] *)
Definition with_raw (validatedResult data : JsVal) : JsVal :=
  match validatedResult with
  | JObj props => JObj (props ++ [("raw", data)])
  | _ => JObj [("raw", data)]
  end.

(** [backend/src/lib/modelEndpoint/customEndpoint.ts]. The transport
    [fetchWithTimeout] is the environment: it acts on the world [W] and
    either returns a response or throws. *)
Module CustomBackendEndpoint.
Section Endpoint.
Context {W : Type}.
Variable fetchWithTimeout : Request → Z → M W Response.
Variables (baseUrl : string) (timeoutMs retries : Z).

Definition invalid_format : Thrown :=
  ThrownError (new_Error "Invalid response format from custom backend").

Definition makeRequest (requestBody : JsVal) : M W JsVal :=
  response ← fetchWithTimeout
    (mkRequest (baseUrl +:+ "/api/analyze") "POST"
               [("Content-Type", "application/json")] requestBody)
    timeoutMs;
  if negb (ok response) then
    throw (ThrownError (new_Error ("Custom backend error: "
             +:+ JsString.of_Z (status response) +:+ " " +:+ statusText response)))
  else
    data ← lift_outcome (json response);
    alt ← lift_outcome (get data "alt_text");
    if negb (truthy alt) || negb (truthy (get_opt data "title"))
       || negb (truthy (get_opt data "keywords"))
    then throw invalid_format
    else
      validatedResult ← lift_outcome (processResult data);
      mret (with_raw validatedResult data).

Definition analyzeImage (requestBody : JsVal) : M (Run W) JsVal :=
  withRetry (makeRequest requestBody) retries default_baseDelayMs.
End Endpoint.
End CustomBackendEndpoint.

(** [backend/src/lib/modelEndpoint/openaiEndpoint.ts]. [JSON.parse] is the
    runtime's: [None] stands for its [SyntaxError]. *)
Module OpenAICompatibleEndpoint.

(** [s.match(/\{[\s\S]*\}/)]: from the first opening brace to the last
    closing brace after it. *)
Definition match_braces (s : string) : option string :=
  match JsString.indexOf "{"%char s, JsString.lastIndexOf "}"%char s with
  | Some i, Some j => if (i <? j)%nat then Some (String.substring i (j - i + 1) s) else None
  | _, _ => None
  end.

(** The text handed to [JSON.parse]. *)
Definition cleanContent (content : string) : string :=
  let clean := JsString.trim content in
  let clean :=
    if JsString.startsWith "```json" clean && JsString.endsWith "```" clean
    then JsString.trim (JsString.slice_neg 7 3 clean)
    else if JsString.startsWith "```" clean && JsString.endsWith "```" clean
    then JsString.trim (JsString.slice_neg 3 3 clean)
    else clean in
  match match_braces clean with
  | Some m => m
  | None => clean
  end.

(** [data.choices?.[0]?.message?.content] *)
Definition content_of (data : JsVal) : Outcome JsVal :=
  match get data "choices" with
  | Throws t => Throws t
  | Returns choices =>
      Returns (get_opt (get_opt (index0_opt choices) "message") "content")
  end.

Section Endpoint.
Context {W : Type}.
Variable fetchWithTimeout : Request → Z → M W Response.
Variable JSON_parse : string → option JsVal.
Variables (baseUrl apiKey : string) (timeoutMs retries : Z).

Definition failed_to_parse (content : string) : Thrown :=
  ThrownError (new_Error ("Failed to parse JSON from model response: " +:+ content)).

(** The inner [try]/[catch] around the clean-up and [JSON.parse]. *)
Definition parse_content (content : JsVal) : Outcome JsVal :=
  match content with
  | JStr s =>
      match JSON_parse (cleanContent s) with
      | Some parsedContent => Returns parsedContent
      | None => Throws (failed_to_parse s)
      end
  | _ =>
      (* [content.trim] is not a function; the handler formats [content] *)
      match ToString content with
      | Returns s => Throws (failed_to_parse s)
      | Throws t => Throws t
      end
  end.

Definition makeRequest (requestBody : JsVal) : M W JsVal :=
  let headers :=
    ([("Content-Type", "application/json")]
     ++ (if String.eqb apiKey "" then [] else [("Authorization", "Bearer " +:+ apiKey)]))%list in
  response ← fetchWithTimeout
    (mkRequest (baseUrl +:+ "/chat/completions") "POST" headers requestBody) timeoutMs;
  if negb (ok response) then
    throw (ThrownError (new_Error ("OpenAI API error: "
             +:+ JsString.of_Z (status response) +:+ " " +:+ statusText response)))
  else
    data ← lift_outcome (json response);
    content ← lift_outcome (content_of data);
    if negb (truthy content) then
      throw (ThrownError (new_Error "No content in OpenAI response"))
    else
      parsedContent ← lift_outcome (parse_content content);
      validatedResult ← lift_outcome (processResult parsedContent);
      mret (with_raw validatedResult data).

Definition analyzeImage (requestBody : JsVal) : M (Run W) JsVal :=
  withRetry (makeRequest requestBody) retries default_baseDelayMs.
End Endpoint.
End OpenAICompatibleEndpoint.

(** ** Preset-aware validation ([backend/src/routes/analyze.ts]) *)

(** A row of the [presets] table, as far as validation reads it: three
    nullable integer columns. *)
Record Preset : Type := mkPreset {
  title_max_length : option Z;
  keywords_min : option Z;
  keywords_max : option Z
}.

Record ValidationResult : Type := mkValidation {
  is_valid : bool;
  warnings : list string;
  errors : list string
}.

(** [preset?.field || dflt] *)
Definition preset_or (preset : option Preset) (field : Preset → option Z) (dflt : Z) : Z :=
  match preset ≫= field with
  | Some n => if (n =? 0)%Z then dflt else n
  | None => dflt
  end.

(** The two arrays [validateMetadata] pushes to: warnings, then errors. *)
Definition Lists : Type := list string * list string.

Definition push_warning (msg : string) : M Lists unit :=
  modify (λ l, (l.1 ++ [msg], l.2)).
Definition push_error (msg : string) : M Lists unit :=
  modify (λ l, (l.1, l.2 ++ [msg])).
Definition when {S} (b : bool) (m : M S unit) : M S unit :=
  if b then m else mret ().

Definition not_a_function (what : string) : Thrown :=
  ThrownError (TypeError (what +:+ " is not a function")).

(** [k.toLowerCase()] *)
Definition call_toLowerCase (k : JsVal) : Outcome string :=
  match k with
  | JStr s => Returns (JsString.toLowerCase s)
  | JUndefined => Throws (ThrownError (TypeError "Cannot read properties of undefined (reading 'toLowerCase')"))
  | JNull => Throws (ThrownError (TypeError "Cannot read properties of null (reading 'toLowerCase')"))
  | _ => Throws (not_a_function "k.toLowerCase")
  end.

(** [items.map(f)] for a callback that may throw. *)
Fixpoint map_outcome {A B} (f : A → Outcome B) (items : list A) : Outcome (list B) :=
  match items with
  | [] => Returns []
  | x :: rest =>
      match f x with
      | Throws t => Throws t
      | Returns y =>
          match map_outcome f rest with
          | Throws t => Throws t
          | Returns ys => Returns (y :: ys)
          end
      end
  end.

Definition validate_title (metadata : JsVal) (preset : option Preset) : M Lists unit :=
  match get_opt metadata "title" with
  | JStr s =>
      if String.eqb s "" || (String.length (JsString.trim s) =? 0)%nat
      then push_error "Title is required"
      else
        let maxLength := preset_or preset title_max_length 70 in
        let len := Z.of_nat (String.length s) in
        when (maxLength <? len)%Z
          (push_warning ("Title exceeds " +:+ JsString.of_Z maxLength +:+ " characters ("
                         +:+ JsString.of_Z len +:+ ")"))
  | t =>
      if truthy t then throw (not_a_function "metadata.title.trim")
      else push_error "Title is required"
  end.

Definition validate_alt_text (metadata : JsVal) : M Lists unit :=
  match get_opt metadata "alt_text" with
  | JStr s =>
      if String.eqb s "" || (String.length (JsString.trim s) =? 0)%nat
      then push_warning "Alt text is missing"
      else
        let len := Z.of_nat (String.length s) in
        when (125 <? len)%Z
          (push_warning ("Alt text exceeds 125 characters (" +:+ JsString.of_Z len +:+ ")"))
  | a =>
      if truthy a then throw (not_a_function "metadata.alt_text.trim")
      else push_warning "Alt text is missing"
  end.

Definition too_few (count minKeywords : Z) : string :=
  "Too few keywords: " +:+ JsString.of_Z count +:+ " (minimum: "
  +:+ JsString.of_Z minKeywords +:+ ")".

Definition too_many (count maxKeywords : Z) : string :=
  "Too many keywords: " +:+ JsString.of_Z count +:+ " (maximum: "
  +:+ JsString.of_Z maxKeywords +:+ ")".

Definition validate_keywords (metadata : JsVal) (preset : option Preset) : M Lists unit :=
  match get_opt metadata "keywords" with
  | JArr items =>
      let minKeywords := preset_or preset keywords_min 15 in
      let maxKeywords := preset_or preset keywords_max 25 in
      let count := Z.of_nat (length items) in
      when (count <? minKeywords)%Z (push_warning (too_few count minKeywords));;
      when (maxKeywords <? count)%Z (push_warning (too_many count maxKeywords));;
      lowered ← lift_outcome (map_outcome call_toLowerCase items);
      let uniqueKeywords := Array_from_Set String.eqb lowered in
      when (negb (length uniqueKeywords =? length items)%nat)
        (push_warning "Duplicate keywords detected")
  | _ => push_error "Keywords must be an array"
  end.

Definition validateMetadata (metadata : JsVal) (preset : option Preset)
  : Outcome ValidationResult :=
  if negb (truthy metadata)
  then Returns (mkValidation false [] ["No metadata provided"])
  else
    match (validate_title metadata preset;;
           validate_alt_text metadata;;
           validate_keywords metadata preset) ([], []) with
    | (Returns _, (warnings, errors)) =>
        Returns (mkValidation (length errors =? 0)%nat warnings errors)
    | (Throws t, _) => Throws t
    end.

(** ** Orchestrator ([backend/src/routes/analyze.ts]) *)

Inductive Status : Type := pending | processing | completed | error.

#[global] Instance Status_eq_dec : EqDecision Status.
Proof. solve_decision. Defined.

(** The fields of an [ImageRecord] the processing loop reads. *)
Record ImageRecord : Type := mkImage {
  id : string;
  original_name : string;
  file_path : string
}.

(** The columns of the [images] table the processing loop writes. The
    keywords column holds the JSON text of [row_keywords]. *)
Record ImageRow : Type := mkRow {
  row_status : Status;
  row_alt_text : JsVal;
  row_title : JsVal;
  row_keywords : JsVal;
  row_error_message : option string
}.

(** The store and the rest of the environment. [db_faults] scripts the
    outcome of the coming [db.run] calls: [Some err] makes the next one
    call back with [err]; once the script is used up every call succeeds. *)
Record Pipeline (E : Type) : Type := mkPipeline {
  db : gmap string ImageRow;
  db_faults : list (option JsError);
  env : E
}.
Arguments mkPipeline {E} db db_faults env.
Arguments db {E} p.
Arguments db_faults {E} p.
Arguments env {E} p.

Definition set_processing (r : ImageRow) : ImageRow :=
  mkRow processing (row_alt_text r) (row_title r) (row_keywords r) (row_error_message r).

Definition set_completed (alt_text title keywords : JsVal) (r : ImageRow) : ImageRow :=
  mkRow completed alt_text title keywords (row_error_message r).

Definition set_error (message : string) (r : ImageRow) : ImageRow :=
  mkRow error (row_alt_text r) (row_title r) (row_keywords r) (Some message).

(** [error instanceof Error ? error.message : 'Unknown error'] *)
Definition message_of (error : Thrown) : string :=
  match error with
  | ThrownError e => err_message e
  | ThrownValue _ => "Unknown error"
  end.

Section Orchestrator.
Context {E : Type}.
(** [createModelEndpoint().analyzeImage({ filePathOrBase64, prompt })] *)
Variable analyzeImage : string → M E JsVal.

(** [db.run('UPDATE images SET ... WHERE id = ?', ...)], promisified. *)
Definition db_run (set : ImageRow → ImageRow) (image_id : string) : M (Pipeline E) unit :=
  λ p, match db_faults p with
       | Some err :: script => (Throws (ThrownError err), mkPipeline (db p) script (env p))
       | None :: script => (Returns (), mkPipeline (alter set image_id (db p)) script (env p))
       | [] => (Returns (), mkPipeline (alter set image_id (db p)) [] (env p))
       end.

Definition analyze (record : ImageRecord) : M (Pipeline E) JsVal :=
  λ p, let '(o, e') := analyzeImage (file_path record) (env p) in
       (o, mkPipeline (db p) (db_faults p) e').

(** The body of the [for] loop. *)
Definition process_one (preset : option Preset) (record : ImageRecord) : M (Pipeline E) unit :=
  try_catch
    (db_run set_processing (id record);;
     result ← analyze record;
     alt ← lift_outcome (get result "alt_text");
     let metadata :=
       JObj [("alt_text", alt); ("title", get_opt result "title");
             ("keywords", get_opt result "keywords")] in
     validation ← lift_outcome (validateMetadata metadata preset);
     db_run (set_completed alt (get_opt result "title") (get_opt result "keywords"))
            (id record))
    (λ error, db_run (set_error (message_of error)) (id record)).

Fixpoint processImagesAsync (imageRecords : list ImageRecord) (preset : option Preset)
  : M (Pipeline E) unit :=
  match imageRecords with
  | [] => mret ()
  | record :: rest => process_one preset record;; processImagesAsync rest preset
  end.
End Orchestrator.

(** * Vocabulary of the statements *)

(** Each distinct element once, in the order of first occurrence. *)
Fixpoint first_occurrences {A} `{EqDecision A} (xs : list A) : list A :=
  match xs with
  | [] => []
  | x :: rest => x :: filter (λ y, y ≠ x) (first_occurrences rest)
  end.

(** The sizes the schema asks for. *)
Definition within_schema (v : ValidatedResult) : Prop :=
  5 ≤ String.length (alt_text v) ≤ 160
  ∧ 5 ≤ String.length (title v)
  ∧ 5 ≤ length (keywords v) ≤ 50.

(** The words of [fallbackKeywords]. *)
Definition fallback_words : list string := ["image"; "photo"; "visual"; "content"; "media"].

Definition is_primitive (v : JsVal) : bool :=
  match v with JPrim _ => true | _ => false end.

(** The fields the repair reads as text. *)
Definition text_fields : list string := ["alt_text"; "description"; "title"; "caption"].

(** The events of [k] failed attempts, the first of them numbered
    [attempt]: each is an invocation followed by its backoff sleep. *)
Fixpoint backoff_events (baseDelayMs attempt : Z) (k : nat) : list RetryEvent :=
  match k with
  | O => []
  | S k' =>
      Invoked :: Slept (baseDelayMs * 2 ^ attempt)
        :: backoff_events baseDelayMs (attempt + 1) k'
  end.

Fixpoint total_slept (evs : list RetryEvent) : Z :=
  match evs with
  | [] => 0
  | Invoked :: rest => total_slept rest
  | Slept delayMs :: rest => delayMs + total_slept rest
  end.

Fixpoint invocations (evs : list RetryEvent) : nat :=
  match evs with
  | [] => 0
  | Invoked :: rest => S (invocations rest)
  | Slept _ :: rest => invocations rest
  end.

(** [2^0 + 2^1 + ... + 2^(k-1)] *)
Fixpoint pow2_sum (k : nat) : Z :=
  match k with
  | O => 0
  | S k' => pow2_sum k' + 2 ^ Z.of_nat k'
  end.

Section Attempts.
Context {W T : Type} (fn : M W T).

(** The world in which attempt number [k] (from 0) starts. *)
Fixpoint world_before (k : nat) (w : W) : W :=
  match k with
  | O => w
  | S k' => world_before k' (fn w).2
  end.

(** How attempt number [k] ends. *)
Definition attempt (k : nat) (w : W) : Outcome T := (fn (world_before k w)).1.
End Attempts.

(** A decoded body that the custom adapter rejects: a value other than
    [null] and [undefined] in which one of the three required fields is
    missing or falsy. *)
Definition lacks_required_field (data : JsVal) : bool :=
  match data with
  | JUndefined | JNull => false
  | _ => negb (truthy (get_opt data "alt_text"))
         || negb (truthy (get_opt data "title"))
         || negb (truthy (get_opt data "keywords"))
  end.

(** A format or shape error of the adapters. *)
Definition format_error (t : Thrown) : Prop :=
  t = CustomBackendEndpoint.invalid_format
  ∨ ∃ content, t = OpenAICompatibleEndpoint.failed_to_parse content.

(** A format or shape error of the first attempt is thrown by the adapter
    right after that attempt, which was the only one. *)
Definition surfaced_immediately {W} (makeRequest : M W JsVal) (retries : Z) (w : W) : Prop :=
  ∀ t, (makeRequest w).1 = Throws t → format_error t →
       ∃ r, withRetry makeRequest retries default_baseDelayMs (mkRun w []) = (Throws t, r)
            ∧ events r = [Invoked].

(** The warnings the keyword rules add for a list of strings. *)
Definition keyword_warnings (ks : list string) (preset : option Preset) : list string :=
  let minKeywords := preset_or preset keywords_min 15 in
  let maxKeywords := preset_or preset keywords_max 25 in
  let count := Z.of_nat (length ks) in
  (if (count <? minKeywords)%Z then [too_few count minKeywords] else [])
  ++ (if (maxKeywords <? count)%Z then [too_many count maxKeywords] else [])
  ++ (if length (Array_from_Set String.eqb (map JsString.toLowerCase ks)) =? length ks
      then [] else ["Duplicate keywords detected"]).


(** The check of the presets routes on the keyword bounds of a preset to
    be stored: [keywords_min < 1 || keywords_max < keywords_min ||
    keywords_max > 50] refuses the preset. *)
Definition invalid_keywords_range (keywords_min keywords_max : Z) : bool :=
  (keywords_min <? 1)%Z || (keywords_max <? keywords_min)%Z || (50 <? keywords_max)%Z.

(** A preset as the presets table holds it: both keyword bounds are there
    and pass the check of the routes that store presets, as the bounds of
    the presets seeded at start-up do. *)
Definition storable_preset (preset : Preset) : Prop :=
  ∃ lo hi, keywords_min preset = Some lo ∧ keywords_max preset = Some hi
           ∧ invalid_keywords_range lo hi = false.

(** The store accepts its next [n] writes: none of the next [n] entries of
    its script holds an error. *)
Fixpoint accepts (n : nat) (script : list (option JsError)) : bool :=
  match n, script with
  | S n', Some _ :: _ => false
  | S n', None :: rest => accepts n' rest
  | _, _ => true
  end.

(** * Inputs of the examples *)

(** A payload within the schema. *)
Definition red_car_payload : JsVal :=
  obj3 (JStr "A red car on a street") (JStr "Red car in urban setting")
       (strs ["car"; "red"; "street"; "urban"; "vehicle"; "transport"]).

(** The same with two keywords repeated. *)
Definition repeated_keywords_payload : JsVal :=
  obj3 (JStr "A red car on a street") (JStr "Red car in urban setting")
       (strs ["car"; "red"; "car"; "street"; "urban"; "vehicle"; "red"]).

(** Five copies of one keyword: within the schema. *)
Definition duplicated_payload : JsVal :=
  obj3 (JStr "hello") (JStr "hello") (strs ["a"; "a"; "a"; "a"; "a"]).

(** A title of 84 characters and too few keywords for the schema. *)
Definition long_title_payload : JsVal :=
  JObj [("alt_text", JStr "A red car on a street");
        ("title", JStr "A bright red vintage car parked along a quiet cobbled street in the old town at dusk");
        ("keywords", JArr (strs ["car"; "red"]))].

Definition hi_payload : JsVal :=
  JObj [("title", JStr "Hi"); ("keywords", JArr (strs ["a"; "b"]))].

(** A description that is an object carrying its own [toString] entry, as
    [JSON.parse] returns it for the text [{"alt_text": {"toString": 1}}]. *)
Definition unprintable_payload : JsVal :=
  JObj [("alt_text", JObj [("toString", JNum 1)])].

(** A description that is an array of five strings. *)
Definition array_description_payload : JsVal :=
  JObj [("alt_text", JArr (strs ["a"; "b"; "c"; "d"; "e"]))].




(** An operation that times out twice and then answers. *)
Definition answers_third_time : M nat string :=
  λ k, (if k <? 2 then Throws (ThrownError (new_Error "The operation was aborted"))
        else Returns "ok", S k).

Definition analyze_request : JsVal :=
  JObj [("imageBase64", JStr "aGVsbG8="); ("prompt", JStr "Describe this image")].

(** A backend whose first answer lacks two of the three fields and whose
    later answers are complete; the world counts the requests. *)
Definition flaky_backend : Request → Z → M nat Response :=
  λ _ _ k,
    (Returns (mkResponse true 200 "OK"
                (Returns (if k =? 0 then JObj [("title", JStr "Red car")]
                          else red_car_payload))),
     S k).

(** A backend that always answers without the description and the
    keywords. *)
Definition incomplete_backend : Request → Z → M unit Response :=
  λ _ _ w, (Returns (mkResponse true 200 "OK" (Returns (JObj [("title", JStr "Red car")]))), w).

Definition prose : string := "Sorry, I cannot describe this image.".

(** A model that always answers in prose. *)
Definition prose_model : Request → Z → M unit Response :=
  λ _ _ w,
    (Returns (mkResponse true 200 "OK"
                (Returns (JObj [("choices",
                                 JArr [JObj [("message",
                                              JObj [("role", JStr "assistant");
                                                    ("content", JStr prose)])]])]))),
     w).

(** A [JSON.parse] that is only asked about that prose. *)
Definition rejects_prose : string → option JsVal := λ _, None.

Definition six_keywords : list string :=
  ["car"; "red"; "street"; "urban"; "vehicle"; "transport"].

Definition adobe_stock_preset : Preset := mkPreset (Some 70%Z) (Some 15%Z) (Some 25%Z).

(** The limits of the three presets the database is seeded with: Adobe
    Stock, Shutterstock and Generic SEO. *)
Definition seeded_presets : list Preset :=
  [adobe_stock_preset;
   mkPreset (Some 70%Z) (Some 15%Z) (Some 25%Z);
   mkPreset (Some 60%Z) (Some 10%Z) (Some 20%Z)].

(** A batch of three images of which the second cannot be analysed. *)
Definition image_a : ImageRecord := mkImage "a" "a.jpg" "/uploads/a.jpg".
Definition image_b : ImageRecord := mkImage "b" "b.jpg" "/uploads/b.jpg".
Definition image_c : ImageRecord := mkImage "c" "c.jpg" "/uploads/c.jpg".

Definition pending_row : ImageRow := mkRow pending JUndefined JUndefined JUndefined None.

Definition three_pending : Pipeline unit :=
  mkPipeline (<["a" := pending_row]> (<["b" := pending_row]> (<["c" := pending_row]> ∅)))
             [] ().

(** The same table behind a store that accepts one write and refuses the
    next. *)
Definition three_pending_busy : Pipeline unit :=
  mkPipeline (db three_pending) [None; Some (new_Error "SQLITE_BUSY")] ().

Definition backend_down : JsError := new_Error "Custom backend error: 503 Service Unavailable".

Definition fails_on_b : string → M unit JsVal :=
  λ path w, (if String.eqb path "/uploads/b.jpg"
             then Throws (ThrownError backend_down)
             else Returns (with_raw red_car_payload red_car_payload), w).

(** * Further parts of the code *)

(** ** Image input of the adapters
    ([openaiEndpoint.ts] and [customEndpoint.ts], the start of
    [analyzeImage]) *)

Module ImageInput.

(** [s.slice(n)] *)
Definition slice_from (n : nat) (s : string) : string :=
  String.substring n (String.length s - n) s.

(** A code unit of the class [[A-Za-z0-9+/=]]. *)
Definition is_base64_unit (c : ascii) : bool :=
  let n := nat_of_ascii c in
  ((65 <=? n)%nat && (n <=? 90)%nat) || ((97 <=? n)%nat && (n <=? 122)%nat)
  || ((48 <=? n)%nat && (n <=? 57)%nat)
  || (n =? 43)%nat || (n =? 47)%nat || (n =? 61)%nat.

Fixpoint all_units (f : ascii → bool) (s : string) : bool :=
  match s with
  | EmptyString => true
  | String c s' => f c && all_units f s'
  end.

(** [s.match(/^[A-Za-z0-9+/=]+$/)], as a truth value: the whole string, of
    at least one unit, is made of units of the class. *)
Definition looks_base64 (s : string) : bool :=
  match s with
  | EmptyString => false
  | _ => all_units is_base64_unit s
  end.

(** What is left of [s] after its longest run of units other than [;]. *)
Fixpoint after_type (s : string) : string :=
  match s with
  | EmptyString => EmptyString
  | String c s' => if Ascii.eqb c ";" then s else after_type s'
  end.

(** [s.replace(/^data:image\/[^;]+;base64,/, '')]. The class [[^;]]
    cannot step over a semicolon, so the only way to match is for the run
    after ["data:image/"] to stop at the first semicolon, be at least one
    unit long, and be followed by [";base64,"]. *)
Definition strip_data_url (s : string) : string :=
  if JsString.startsWith "data:image/" s then
    let rest := slice_from 11 s in
    let tail := after_type rest in
    if negb (String.length tail =? String.length rest)%nat
       && JsString.startsWith ";base64," tail
    then slice_from 8 tail
    else s
  else s.

Section Input.
Context {W : Type}.
(** [fs.readFileSync(path).toString('base64')] *)
Variable readFileSync_base64 : string → M W string.

(** The value of [base64Data]. *)
Definition base64Data (filePathOrBase64 : string) : M W string :=
  if JsString.startsWith "data:" filePathOrBase64 || looks_base64 filePathOrBase64
  then mret (strip_data_url filePathOrBase64)
  else readFileSync_base64 filePathOrBase64.
End Input.
End ImageInput.

(** ** Configuration read from the environment *)

(** [process.env] *)
Definition ProcessEnv : Type := gmap string string.

(** [process.env.NAME || fallback] *)
Definition env_or (processEnv : ProcessEnv) (name fallback : string) : string :=
  match processEnv !! name with
  | Some v => if String.eqb v "" then fallback else v
  | None => fallback
  end.

(** [parseInt(s)] with no radix, for digit strings whose value is below
    2^53: white space is skipped, then a sign, then the prefix [0x] or [0X]
    selects radix 16; the digits of the radix that follow are read up to
    the first other unit. [None] stands for [NaN], the answer when there is
    no digit. *)
Module JsNumber.

Definition digit_value (c : ascii) : option Z :=
  let n := nat_of_ascii c in
  if (48 <=? n)%nat && (n <=? 57)%nat then Some (Z.of_nat n - 48)%Z
  else if (97 <=? n)%nat && (n <=? 122)%nat then Some (Z.of_nat n - 87)%Z
  else if (65 <=? n)%nat && (n <=? 90)%nat then Some (Z.of_nat n - 55)%Z
  else None.

Fixpoint digits (radix : Z) (s : string) (read : option Z) : option Z :=
  match s with
  | EmptyString => read
  | String c s' =>
      match digit_value c with
      | Some d =>
          if (d <? radix)%Z then digits radix s' (Some (default 0%Z read * radix + d)%Z)
          else read
      | None => read
      end
  end.

Definition parseInt (s : string) : option Z :=
  let s := JsString.trimStart s in
  let '(sign, s) :=
    match s with
    | String "-" s' => ((-1)%Z, s')
    | String "+" s' => (1%Z, s')
    | _ => (1%Z, s)
    end in
  let '(radix, s) :=
    if JsString.startsWith "0x" s || JsString.startsWith "0X" s
    then (16%Z, ImageInput.slice_from 2 s)
    else (10%Z, s) in
  (λ n, sign * n)%Z <$> digits radix s None.

End JsNumber.

(** [this.timeoutMs = parseInt(process.env.REQUEST_TIMEOUT_MS || '60000')]
    and [this.retries = parseInt(process.env.REQUEST_RETRIES || '2')], in
    the constructor of both adapters. *)
Definition request_timeout (processEnv : ProcessEnv) : option Z :=
  JsNumber.parseInt (env_or processEnv "REQUEST_TIMEOUT_MS" "60000").
Definition request_retries (processEnv : ProcessEnv) : option Z :=
  JsNumber.parseInt (env_or processEnv "REQUEST_RETRIES" "2").

(** [withRetry(fn, maxRetries)] for a [maxRetries] that may be [NaN]: no
    comparison with [NaN] holds, so the loop body does not run. *)
Definition withRetry_number {W T} (fn : M W T) (maxRetries : option Z) : M (Run W) T :=
  match maxRetries with
  | Some n => withRetry fn n default_baseDelayMs
  | None => throw_lastError None
  end.

(** A step that acts on the world without the retry policy. *)
Definition in_world {W A} (m : M W A) : M (Run W) A :=
  λ r, let '(o, w') := m (world r) in (o, mkRun w' (events r)).

(** [customEndpoint.ts], the whole of [analyzeImage]: the image input, the
    request body, and the requests under the retry policy, with the number
    of retries the constructor read from the environment. The timeout the
    constructor read is [timeoutMs]. *)
Module CustomBackendClient.
Section Client.
Context {W : Type}.
Variable fetchWithTimeout : Request → Z → M W Response.
Variable readFileSync_base64 : string → M W string.
Variable processEnv : ProcessEnv.
Variables (baseUrl : string) (timeoutMs : Z).

Definition requestBody (base64Data prompt : string) : JsVal :=
  JObj [("imageBase64", JStr base64Data); ("prompt", JStr prompt)].

Definition analyzeImage (filePathOrBase64 prompt : string) : M (Run W) JsVal :=
  base64Data ← in_world (ImageInput.base64Data readFileSync_base64 filePathOrBase64);
  withRetry_number
    (CustomBackendEndpoint.makeRequest fetchWithTimeout baseUrl timeoutMs
       (requestBody base64Data prompt))
    (request_retries processEnv).
End Client.
End CustomBackendClient.

(** The prompt of the processing loop. *)
Definition analysis_prompt : string :=
  "Please analyze this image and provide metadata in the specified JSON format.".

(** ** The endpoint factory ([src/lib/modelEndpoint/factory.ts]) *)

(** The endpoint objects, by their class and what their constructors
    store. A variable that is not set and one that is empty are both falsy:
    [default ""] reads either as the empty string. *)
Inductive ModelEndpoint : Type :=
| CustomBackend (baseUrl : string) (timeoutMs retries : option Z)
| OpenAICompatible (baseUrl model apiKey : string) (timeoutMs retries : option Z).

Definition createModelEndpoint (processEnv : ProcessEnv) : Outcome ModelEndpoint :=
  let mode := default "openai" (processEnv !! "MODEL_ENDPOINT_MODE") in
  if String.eqb mode "custom" then
    let backendBase := default "" (processEnv !! "BACKEND_BASE") in
    if String.eqb backendBase ""
    then Throws (ThrownError (new_Error
                   "BACKEND_BASE environment variable is required for custom mode"))
    else Returns (CustomBackend backendBase (request_timeout processEnv)
                    (request_retries processEnv))
  else
    let baseUrl := default "" (processEnv !! "LM_BASE") in
    let model := default "" (processEnv !! "LM_MODEL") in
    let apiKey := default "" (processEnv !! "LM_API_KEY") in
    if String.eqb baseUrl ""
    then Throws (ThrownError (new_Error
                   "LM_BASE environment variable is required for openai mode"))
    else if String.eqb model ""
    then Throws (ThrownError (new_Error
                   "LM_MODEL environment variable is required for openai mode"))
    else Returns (OpenAICompatible baseUrl model apiKey (request_timeout processEnv)
                    (request_retries processEnv)).

(** ** Health checks of the adapters *)

(** The value [health()] resolves with: [{ ok, info }]. *)
Record HealthResult : Type := mkHealth { health_ok : bool; health_info : string }.

(** [error instanceof Error ? error.message : String(error)] *)
Definition message_or_text (error : Thrown) : string :=
  match error with
  | ThrownError e => err_message e
  | ThrownValue p => prim_ToString p
  end.

Module HealthChecks.
Section Checks.
Context {W : Type}.
Variable fetchWithTimeout : Request → Z → M W Response.
(** [response.text()] *)
Variable text : Response → Outcome string.
Variables (baseUrl apiKey : string).

Definition failed (response : Response) : HealthResult :=
  mkHealth false ("Health check failed: " +:+ JsString.of_Z (status response) +:+ " "
                  +:+ statusText response).

Definition caught (error : Thrown) : HealthResult :=
  mkHealth false ("Health check error: " +:+ message_or_text error).

(** [CustomBackendEndpoint.health] *)
Definition custom_health : M W HealthResult :=
  try_catch
    (response ← fetchWithTimeout (mkRequest (baseUrl +:+ "/healthz") "GET" [] JUndefined) 5000;
     if ok response then
       data ← lift_outcome (text response);
       mret (mkHealth true ("Connected to custom backend. Response: " +:+ data))
     else mret (failed response))
    (λ error, mret (caught error)).

(** [OpenAICompatibleEndpoint.health]; the request names no method, which
    makes it a [GET]. *)
Definition openai_health : M W HealthResult :=
  try_catch
    (let headers :=
       if String.eqb apiKey "" then [] else [("Authorization", "Bearer " +:+ apiKey)] in
     response ← fetchWithTimeout (mkRequest (baseUrl +:+ "/models") "GET" headers JUndefined)
                  5000;
     if ok response then
       data ← lift_outcome (json response);
       models ← lift_outcome (get data "data");
       count ← lift_outcome (ToString (js_or (get_opt models "length") (JNum 0)));
       mret (mkHealth true
               ("Connected to OpenAI-compatible endpoint. Available models: " +:+ count))
     else mret (failed response))
    (λ error, mret (caught error)).
End Checks.
End HealthChecks.

(** ** Export (the export route, kept in [backend/src/routes/analyze.ts]) *)

Module ExportRoute.

(** The double quote and the line feed. *)
Definition quote : ascii := ascii_of_nat 34.
Definition newline : ascii := ascii_of_nat 10.

(** [value.includes(c)] for one code unit. *)
Fixpoint includes (c : ascii) (s : string) : bool :=
  match s with
  | EmptyString => false
  | String d s' => Ascii.eqb d c || includes c s'
  end.

(** The replacement of every double quote by two. *)
Fixpoint double_quotes (s : string) : string :=
  match s with
  | EmptyString => EmptyString
  | String c s' =>
      if Ascii.eqb c quote then String quote (String quote (double_quotes s'))
      else String c (double_quotes s')
  end.

Definition escapeCSV (value : string) : string :=
  if String.eqb value "" then ""
  else if includes "," value || includes newline value || includes quote value
  then String quote (double_quotes value +:+ String quote "")
  else value.

(** [items.join(sep)] on an array of strings. *)
Fixpoint join_strings (sep : string) (items : list string) : string :=
  match items with
  | [] => ""
  | [x] => x
  | x :: rest => x +:+ sep +:+ join_strings sep rest
  end.

(** [items.join(sep)] on a decoded array. *)
Fixpoint join_with (sep : string) (items : list JsVal) : Outcome string :=
  match items with
  | [] => Returns ""
  | x :: rest =>
      match item_text ToString x with
      | Throws t => Throws t
      | Returns s =>
          match rest with
          | [] => Returns s
          | _ => match join_with sep rest with
                 | Throws t => Throws t
                 | Returns r => Returns (s +:+ sep +:+ r)
                 end
          end
      end
  end.

(** The columns of an image row that the export reads; the nullable ones
    are [None] when [NULL]. *)
Record ExportImage : Type := mkExportImage {
  original_name : string;
  title : option string;
  alt_text : option string;
  keywords : option string
}.

(** [a || b] for a nullable text [a]. *)
Definition text_or (a : option string) (b : string) : string :=
  match a with
  | Some s => if String.eqb s "" then b else s
  | None => b
  end.

(** [preset && preset.id === id], where of the preset only its [id] is
    read. *)
Definition is_preset (preset : option string) (id : string) : bool :=
  match preset with
  | Some preset_id => String.eqb preset_id id
  | None => false
  end.

Definition and_then {A B} (o : Outcome A) (k : A → Outcome B) : Outcome B :=
  match o with
  | Returns a => k a
  | Throws t => Throws t
  end.

Section Generate.
(** [JSON.parse], which throws a [SyntaxError] on other texts. *)
Variable JSON_parse : string → Outcome JsVal.

(** [image.keywords ? JSON.parse(image.keywords) : []] *)
Definition parsed_keywords (image : ExportImage) : Outcome JsVal :=
  match keywords image with
  | Some text => if String.eqb text "" then Returns (JArr []) else JSON_parse text
  | None => Returns (JArr [])
  end.

(** [keywords.join(sep)] *)
Definition keywords_join (sep : string) (keywords : JsVal) : Outcome string :=
  match keywords with
  | JArr items => join_with sep items
  | JUndefined =>
      Throws (ThrownError (TypeError "Cannot read properties of undefined (reading 'join')"))
  | JNull =>
      Throws (ThrownError (TypeError "Cannot read properties of null (reading 'join')"))
  | _ => Throws (not_a_function "keywords.join")
  end.

Definition shutterstock_headers : list string :=
  ["Filename"; "Description"; "Keywords"; "Categories"; "Editorial"; "Mature content";
   "Illustration"].

Definition shutterstock_row (image : ExportImage) : Outcome string :=
  and_then (parsed_keywords image) (λ keywords,
  and_then (keywords_join "," keywords) (λ keywordString,
  let row :=
    [escapeCSV (original_name image);
     escapeCSV (text_or (alt_text image) (text_or (title image) ""));
     escapeCSV keywordString;
     escapeCSV "";
     escapeCSV "no";
     escapeCSV "no";
     escapeCSV "no"] in
  Returns (join_strings "," row))).

(** The headers and the rows of the other formats. *)
Definition default_headers (preset : option string) : list string :=
  ["filename"; "title"; "alt_text"; "keywords"]
  ++ (if is_preset preset "adobe-stock" then ["category"; "releases_required"] else []).

Definition default_row (preset : option string) (image : ExportImage) : Outcome string :=
  and_then (parsed_keywords image) (λ keywords,
  and_then (keywords_join "; " keywords) (λ keywordString,
  let row :=
    [escapeCSV (original_name image);
     escapeCSV (text_or (title image) "");
     escapeCSV (text_or (alt_text image) "");
     escapeCSV keywordString]
    ++ (if is_preset preset "adobe-stock" then [""; "No"] else []) in
  Returns (join_strings "," row))).

Definition generateCSV (images : list ExportImage) (preset : option string) : Outcome string :=
  if is_preset preset "shutterstock" then
    and_then (map_outcome shutterstock_row images) (λ rows,
    Returns (join_strings (String newline "")
               (join_strings "," shutterstock_headers :: rows)))
  else
    and_then (map_outcome (default_row preset) images) (λ rows,
    Returns (join_strings (String newline "")
               (join_strings "," (default_headers preset) :: rows))).
End Generate.

(** *** Reading a CSV text back *)

(** A reader of comma-separated text: fields are separated by commas and
    records by line feeds; a field in double quotes may hold commas and
    line feeds, and two double quotes in it stand for one. [field] and
    [record] are what has been read of the current field and record. *)
Fixpoint csv_scan (s : string) (quoted : bool) (field : string) (record : list string)
  : list (list string) :=
  match s with
  | EmptyString => [record ++ [field]]
  | String c s' =>
      if quoted then
        if Ascii.eqb c quote then
          match s' with
          | String c' s'' =>
              if Ascii.eqb c' quote
              then csv_scan s'' true (field +:+ String quote "") record
              else csv_scan s' false field record
          | EmptyString => csv_scan s' false field record
          end
        else csv_scan s' true (field +:+ String c "") record
      else if Ascii.eqb c quote then csv_scan s' true field record
      else if Ascii.eqb c "," then csv_scan s' false "" (record ++ [field])
      else if Ascii.eqb c newline then (record ++ [field]) :: csv_scan s' false "" []
      else csv_scan s' false (field +:+ String c "") record
  end.

Definition csv_parse (text : string) : list (list string) := csv_scan text false "" [].

(** The text of a table, every field escaped. *)
Definition csv_render (table : list (list string)) : string :=
  join_strings (String newline "") (map (λ record, join_strings "," (map escapeCSV record)) table).

(** The keywords of a row as strings, when its column holds an array of
    strings. *)
Definition keyword_strings (JSON_parse : string → Outcome JsVal) (image : ExportImage)
  : list string :=
  match parsed_keywords JSON_parse image with
  | Returns (JArr items) => default [] (as_strings items)
  | _ => []
  end.

(** The values one record of the export stands for. *)
Definition record_values (JSON_parse : string → Outcome JsVal) (preset : option string)
    (image : ExportImage) : list string :=
  if is_preset preset "shutterstock" then
    [original_name image;
     text_or (alt_text image) (text_or (title image) "");
     join_strings "," (keyword_strings JSON_parse image);
     ""; "no"; "no"; "no"]
  else
    [original_name image;
     text_or (title image) "";
     text_or (alt_text image) "";
     join_strings "; " (keyword_strings JSON_parse image)]
    ++ (if is_preset preset "adobe-stock" then [""; "No"] else []).

Definition header_values (preset : option string) : list string :=
  if is_preset preset "shutterstock" then shutterstock_headers else default_headers preset.

End ExportRoute.

(** ** The validator without repair (the second [resultSchema.ts])

    The same schema and the same processing as the [try] block above, with
    no [catch] block around them: the [ZodError] of [ResultSchema.parse]
    leaves the function. [None] stands for that throw. *)
Module StrictValidator.

Definition processResult (rawResult : JsVal) : option JsVal :=
  match ResultSchema_parse rawResult with
  | Some validated =>
      let processedTitle :=
        if 70 <? String.length (title validated)
        then JsString.trim (JsString.substring0 70 (title validated))
        else title validated in
      let uniqueKeywords := Array_from_Set String.eqb (keywords validated) in
      let processedKeywords := take 25 uniqueKeywords in
      Some (obj3 (JStr (alt_text validated)) (JStr processedTitle) (strs processedKeywords))
  | None => None
  end.

End StrictValidator.

(** * Further vocabulary of the statements *)

(** The events of a run: those of some number of failed attempts, then a
    last invocation. *)
Definition attempts_then_last (baseDelayMs : Z) (j : nat) : list RetryEvent :=
  backoff_events baseDelayMs 0 j ++ [Invoked].

(** [Array.isArray(v)] *)
Definition is_array (v : JsVal) : bool :=
  match v with JArr _ => true | _ => false end.

(** A title that validation takes as missing: absent or falsy, or a string
    of white space only. *)
Definition blank_title (metadata : JsVal) : bool :=
  match get_opt metadata "title" with
  | JStr s => (String.length (JsString.trim s) =? 0)%nat
  | t => negb (truthy t)
  end.

(** [`Title exceeds ${maxLength} characters (${len})`] *)
Definition title_exceeds (maxLength len : Z) : string :=
  "Title exceeds " +:+ JsString.of_Z maxLength +:+ " characters ("
  +:+ JsString.of_Z len +:+ ")".

(** The warning of the title rule, for a title string that is not blank. *)
Definition title_warnings (t : string) (preset : option Preset) : list string :=
  let maxLength := preset_or preset title_max_length 70 in
  let len := Z.of_nat (String.length t) in
  if (maxLength <? len)%Z
  then [title_exceeds maxLength len]
  else [].

(** The warning of the description rule, for a string. *)
Definition alt_text_warnings (a : string) : list string :=
  if (String.length (JsString.trim a) =? 0)%nat then ["Alt text is missing"]
  else
    let len := Z.of_nat (String.length a) in
    if (125 <? len)%Z
    then ["Alt text exceeds 125 characters (" +:+ JsString.of_Z len +:+ ")"]
    else [].

(** A status the processing loop leaves an image in when it is done with
    it. *)
Definition settled (s : Status) : bool :=
  match s with
  | completed | error => true
  | pending | processing => false
  end.

(** The table [d'] has the rows of [d], with the same content except
    perhaps for the rows named in [ids]. *)
Definition same_rows_except (ids : list string) (d d' : gmap string ImageRow) : Prop :=
  ∀ k, (is_Some (d' !! k) ↔ is_Some (d !! k)) ∧ (k ∉ ids → d' !! k = d !! k).

(** A step of the pipeline that only rewrites the rows named in [ids],
    whatever it answers. *)
Definition rewrites_only {E A} (ids : list string) (m : M (Pipeline E) A) : Prop :=
  ∀ p, same_rows_except ids (db p) (db (m p).2).

(** A step of the pipeline that uses up the script of the store from the
    front and leaves the rest. *)
Definition consumes_script {E A} (m : M (Pipeline E) A) : Prop :=
  ∀ p, db_faults (m p).2 `suffix_of` db_faults p.

(** The code unit [c] does not occur in [s]. *)
Definition lacks (c : ascii) (s : string) : Prop := JsString.indexOf c s = None.

(** The value the adapters resolve with: the three fields of the processed
    result and the decoded response under [raw]. *)
Definition analyze_result (alt_text title : JsVal) (keywords : list JsVal) (raw : JsVal)
  : JsVal :=
  JObj [("alt_text", alt_text); ("title", title); ("keywords", JArr keywords); ("raw", raw)].

(** The number of requests one analysis may send: the retries read from
    the environment and one more, and none when that value is negative or
    not a number. *)
Definition request_budget (processEnv : ProcessEnv) : nat :=
  match request_retries processEnv with
  | Some n => Z.to_nat (n + 1)
  | None => 0
  end.

(** The text that may follow a field of a CSV text: nothing, or a comma or
    a line feed and more; and what may follow a record. *)
Definition field_end (rest : string) : Prop :=
  match rest with
  | EmptyString => True
  | String c _ => c = ","%char ∨ c = ExportRoute.newline
  end.

Definition record_end (rest : string) : Prop :=
  match rest with
  | EmptyString => True
  | String c _ => c = ExportRoute.newline
  end.

(** A field that validation can read as text: a string, or a falsy
    value. *)
Definition text_like (v : JsVal) : bool :=
  match v with
  | JStr _ => true
  | _ => negb (truthy v)
  end.

(** Keywords that validation can read: anything that is not an array, or
    an array of strings. *)
Definition keywords_readable (v : JsVal) : bool :=
  match v with
  | JArr items => forallb (λ k, match k with JStr _ => true | _ => false end) items
  | _ => true
  end.

(** The metadata on which validation does not throw. *)
Definition readable (metadata : JsVal) : bool :=
  negb (truthy metadata)
  || (text_like (get_opt metadata "title")
      && text_like (get_opt metadata "alt_text")
      && keywords_readable (get_opt metadata "keywords")).

(** A [TypeError] of the runtime, with whatever message. *)
Definition is_TypeError (t : Thrown) : Prop := ∃ message, t = ThrownError (TypeError message).

(** * Further inputs of the examples *)

(** Metadata with a title of spaces, no description and one keyword. *)
Definition blank_title_metadata : JsVal :=
  JObj [("title", JStr "   "); ("keywords", JArr (strs ["car"]))].

(** Metadata whose keywords differ only in case. *)
Definition mixed_case_metadata : JsVal :=
  obj3 (JStr "A red car") (JStr "Red car") (strs ["Car"; "red"; "car"]).

(** An analysis that answers with a title of five spaces, which the schema
    accepts. *)
Definition answers_blank_title : string → M unit JsVal :=
  λ _, mret (obj3 (JStr "A red car on a street") (JStr "     ")
               (strs ["car"; "red"; "street"; "urban"; "vehicle"])).

(** An environment that selects the custom backend and allows no attempt. *)
Definition no_retries_env : ProcessEnv :=
  <["MODEL_ENDPOINT_MODE" := "custom"]> (<["BACKEND_BASE" := "http://backend"]>
    (<["REQUEST_RETRIES" := "-1"]> ∅)).

(** A file system in which every file reads as the same five bytes. *)
Definition reads_hello : string → M nat string := λ _ w, (Returns "aGVsbG8=", w).

(** The three images of the examples, before a run that logs its
    requests. *)
Definition three_pending_logged : Pipeline (Run nat) :=
  mkPipeline (db three_pending) [] (mkRun 0 []).

(** A service that answers its health request with a body that is not
    JSON. *)
Definition answers_not_json : Request → Z → M unit Response :=
  λ _ _ w,
    (Returns (mkResponse true 200 "OK"
                (Throws (ThrownError (mkError "SyntaxError" "Unexpected token < in JSON")))),
     w).

(** Two images whose texts hold commas, a line feed and double quotes. *)
Definition awkward_images : list ExportRoute.ExportImage :=
  [ExportRoute.mkExportImage "red, car.jpg"
     (Some ("Red car" +:+ String ExportRoute.newline "at dusk"))
     (Some ("A " +:+ String ExportRoute.quote ("red" +:+ String ExportRoute.quote " car")))
     (Some "K1");
   ExportRoute.mkExportImage "plain.jpg" None (Some "A street") None].

(** A [JSON.parse] that knows the one keywords text of the example. *)
Definition parses_K1 : string → Outcome JsVal :=
  λ text, if String.eqb text "K1" then Returns (JArr (strs ["car"; "red, old"]))
          else Throws (ThrownError (mkError "SyntaxError" "Unexpected token")).

(** Metadata whose second keyword is a number. *)
Definition numeric_keyword_metadata : JsVal :=
  obj3 (JStr "A red car") (JStr "Red car") [JStr "car"; JNum 7].

(** A backend that answers every request with a payload within the
    schema; the world counts the requests. *)
Definition healthy_backend : Request → Z → M nat Response :=
  λ _ _ k, (Returns (mkResponse true 200 "OK" (Returns red_car_payload)), S k).

(** An image whose keywords column does not hold JSON. *)
Definition unparsable_image : ExportRoute.ExportImage :=
  ExportRoute.mkExportImage "bad.jpg" (Some "A title") None (Some "not json").

(** * Properties *)

(** ** Strings *)

Lemma substring0_length (n : nat) (s : string) :
  String.length (JsString.substring0 n s) ≤ n.
Proof.
  unfold JsString.substring0. revert s.
  induction n as [|n IH]; intros [|c s]; simpl; try lia.
  specialize (IH s). lia.
Qed.

Lemma trimStart_length (s : string) :
  String.length (JsString.trimStart s) ≤ String.length s.
Proof.
  induction s as [|c s IH]; simpl; [lia|].
  destruct (JsString.is_whitespace c); simpl; lia.
Qed.

Lemma trimEnd_length (s : string) :
  String.length (JsString.trimEnd s) ≤ String.length s.
Proof.
  induction s as [|c s IH]; simpl; [lia|].
  destruct (JsString.trimEnd s) as [|d t]; simpl in *.
  - destruct (JsString.is_whitespace c); simpl; lia.
  - lia.
Qed.

Lemma trim_length (s : string) :
  String.length (JsString.trim s) ≤ String.length s.
Proof.
  unfold JsString.trim.
  etrans; [apply trimEnd_length | apply trimStart_length].
Qed.

(** ** Sets in insertion order *)

Lemma filter_all {A} (P : A → Prop) `{∀ x, Decision (P x)} (l : list A) :
  (∀ x, x ∈ l → P x) → filter P l = l.
Proof.
  induction l as [|x l IH]; intros HP; [done|].
  rewrite filter_cons, decide_True by (apply HP; left).
  f_equal. apply IH. intros y Hy. apply HP. by right.
Qed.

Section SetFacts.
Context {A : Type} `{EqDecision A} (same : A → A → bool).
Hypothesis same_eq : ∀ x y, same x y = true ↔ x = y.

Lemma Set_has_elem (s : list A) (x : A) : Set_has same s x = true ↔ x ∈ s.
Proof.
  unfold Set_has. induction s as [|y s IH]; simpl.
  - split; [discriminate | intros H; inversion H].
  - rewrite orb_true_iff, IH, same_eq, elem_of_cons. done.
Qed.

Lemma fold_Set_add (xs acc : list A) :
  fold_left (Set_add same) xs acc
  = acc ++ filter (λ y, y ∉ acc) (first_occurrences xs).
Proof.
  revert acc. induction xs as [|x xs IH]; intros acc; simpl.
  - by rewrite filter_nil, app_nil_r.
  - rewrite filter_cons. unfold Set_add at 2.
    destruct (Set_has same acc x) eqn:Hhas.
    + apply Set_has_elem in Hhas.
      rewrite decide_False by (intros Hn; by apply Hn).
      rewrite IH. f_equal.
      symmetry. apply list_filter_filter_l.
      intros y Hy ->. by apply Hy.
    + assert (x ∉ acc) as Hx.
      { intros Hin. apply Set_has_elem in Hin. congruence. }
      rewrite decide_True by done.
      rewrite IH, <- app_assoc. simpl. do 2 f_equal.
      rewrite list_filter_filter. apply list_filter_iff.
      intros y. rewrite elem_of_app, list_elem_of_singleton. tauto.
Qed.

(** The insertion-ordered set of the source is the list of first
    occurrences. *)
Lemma Array_from_Set_first_occurrences (xs : list A) :
  Array_from_Set same xs = first_occurrences xs.
Proof.
  unfold Array_from_Set. rewrite fold_Set_add. simpl.
  apply filter_all. intros y _. apply not_elem_of_nil.
Qed.
End SetFacts.

Section FirstOccurrences.
Context {A : Type} `{EqDecision A}.
Implicit Types xs : list A.

Lemma first_occurrences_elem xs (x : A) : x ∈ first_occurrences xs ↔ x ∈ xs.
Proof.
  induction xs as [|y xs IH]; simpl; [done|].
  rewrite !elem_of_cons, list_elem_of_filter, IH.
  destruct (decide (x = y)); tauto.
Qed.

Lemma first_occurrences_NoDup xs : NoDup (first_occurrences xs).
Proof.
  induction xs as [|y xs IH]; simpl; constructor.
  - rewrite list_elem_of_filter. by intros [Hne _].
  - by apply NoDup_filter.
Qed.

Lemma first_occurrences_id xs : NoDup xs → first_occurrences xs = xs.
Proof.
  induction 1 as [|y xs Hy _ IH]; simpl; [done|].
  rewrite IH. f_equal. apply filter_all. by intros z Hz ->.
Qed.

(** The list of first occurrences keeps the order of the input. *)
Lemma first_occurrences_sublist xs : first_occurrences xs `sublist_of` xs.
Proof.
  induction xs as [|y xs IH]; simpl; [done|].
  apply sublist_skip. etrans; [apply sublist_filter | exact IH].
Qed.

Lemma first_occurrences_length xs : length (first_occurrences xs) ≤ length xs.
Proof.
  induction xs as [|y xs IH]; simpl; [done|].
  pose proof (length_filter (λ z, z ≠ y) (first_occurrences xs)). lia.
Qed.
End FirstOccurrences.

Example first_occurrences_abacb :
  first_occurrences ["a"; "b"; "a"; "c"; "b"] = ["a"; "b"; "c"].
Proof. reflexivity. Qed.

Lemma NoDup_take {A} (n : nat) (l : list A) : NoDup l → NoDup (take n l).
Proof. intros Hl. eapply sublist_NoDup; [done | apply sublist_take]. Qed.

Lemma processedKeywords_first_occurrences (kws : list string) :
  processedKeywords kws = take 25 (first_occurrences kws).
Proof.
  unfold processedKeywords.
  by rewrite (Array_from_Set_first_occurrences _ String.eqb_eq).
Qed.

Lemma processedKeywords_NoDup (kws : list string) : NoDup (processedKeywords kws).
Proof.
  rewrite processedKeywords_first_occurrences.
  apply NoDup_take, first_occurrences_NoDup.
Qed.

Lemma processedKeywords_stable (kws : list string) :
  processedKeywords (processedKeywords kws) = processedKeywords kws.
Proof.
  rewrite (processedKeywords_first_occurrences (processedKeywords kws)).
  rewrite first_occurrences_id by apply processedKeywords_NoDup.
  rewrite processedKeywords_first_occurrences. apply take_idemp.
Qed.

Lemma processedTitle_length (t : string) : String.length (processedTitle t) ≤ 70.
Proof.
  unfold processedTitle. destruct (70 <? String.length t) eqn:Hlong.
  - etrans; [apply trim_length | apply substring0_length].
  - apply Nat.ltb_ge in Hlong. lia.
Qed.

Lemma processedTitle_stable (t : string) :
  processedTitle (processedTitle t) = processedTitle t.
Proof.
  unfold processedTitle at 1.
  pose proof (processedTitle_length t) as Hle.
  apply Nat.ltb_ge in Hle. by rewrite Hle.
Qed.

(** ** The schema *)

Lemma as_strings_strs (l : list string) : as_strings (strs l) = Some l.
Proof.
  induction l as [|x l IH]; simpl; [done|].
  by rewrite IH.
Qed.

Lemma length_strs (l : list string) : length (strs l) = length l.
Proof. unfold strs. apply length_map. Qed.

Lemma schema_bounds_true (a t : string) (ks : list string) :
  schema_bounds a t ks = true ↔ within_schema (mkValidated a t ks).
Proof.
  unfold schema_bounds, within_schema.
  cbn [alt_text title keywords].
  rewrite !andb_true_iff, !Nat.leb_le. lia.
Qed.

Lemma ResultSchema_parse_Some (raw : JsVal) (v : ValidatedResult) :
  ResultSchema_parse raw = Some v → within_schema v.
Proof.
  unfold ResultSchema_parse. intros Hparse.
  repeat case_match; try discriminate.
  simplify_eq. by apply schema_bounds_true.
Qed.

Lemma ResultSchema_parse_obj3 (a t : string) (ks : list string) :
  within_schema (mkValidated a t ks) →
  ResultSchema_parse (obj3 (JStr a) (JStr t) (strs ks)) = Some (mkValidated a t ks).
Proof.
  intros Hv%schema_bounds_true.
  unfold ResultSchema_parse, obj3. simpl.
  by rewrite as_strings_strs, Hv.
Qed.

(** ** The validator and repairer *)

(** A payload within the schema that needs no truncation comes back as it
    is. *)
Example processResult_red_car : processResult red_car_payload = Returns red_car_payload.
Proof. reflexivity. Qed.

Lemma processResult_strict (raw : JsVal) (v : ValidatedResult) :
  ResultSchema_parse raw = Some v → processResult raw = Returns (process_validated v).
Proof. unfold processResult. by intros ->. Qed.

(** On the strict path the result keeps the invariants of the data model:
    no duplicate keyword, at most 25 of them, a title of at most 70
    characters. *)
Lemma strict_path_invariants (raw : JsVal) (v : ValidatedResult) :
  ResultSchema_parse raw = Some v →
  ∃ t ks, processResult raw = Returns (obj3 (JStr (alt_text v)) (JStr t) (strs ks))
          ∧ String.length t ≤ 70 ∧ NoDup ks ∧ length ks ≤ 25.
Proof.
  intros Hparse. exists (processedTitle (title v)), (processedKeywords (keywords v)).
  split; [by apply processResult_strict|].
  split; [apply processedTitle_length|].
  split; [apply processedKeywords_NoDup|].
  unfold processedKeywords. rewrite length_take. lia.
Qed.

(** C9. For a payload that satisfies the schema, the keywords of the
    processed result are the distinct keywords of the input in the order of
    first occurrence, cut to the first 25: no keyword occurs twice, every
    keyword of the result is one of the input, and when the input has at
    most 25 distinct keywords every one of them is in the result. *)
Theorem processResult_keywords_first_seen_capped (raw : JsVal) (v : ValidatedResult) :
  ResultSchema_parse raw = Some v →
  let ks := take 25 (first_occurrences (keywords v)) in
  processResult raw
  = Returns (obj3 (JStr (alt_text v)) (JStr (processedTitle (title v))) (strs ks))
  ∧ NoDup ks
  ∧ length ks ≤ 25
  ∧ (∀ k, k ∈ ks → k ∈ keywords v)
  ∧ (length (first_occurrences (keywords v)) ≤ 25 → ∀ k, k ∈ keywords v → k ∈ ks).
Proof.
  intros Hparse ks. subst ks. repeat split.
  - rewrite (processResult_strict _ _ Hparse). unfold process_validated.
    by rewrite processedKeywords_first_occurrences.
  - apply NoDup_take, first_occurrences_NoDup.
  - rewrite length_take. lia.
  - intros k Hk. apply first_occurrences_elem.
    eapply elem_of_sublist; [exact Hk | apply sublist_take].
  - intros Hfew k Hk. rewrite take_ge by done. by apply first_occurrences_elem.
Qed.

Lemma processResult_keywords_first_seen_capped_witness :
  ResultSchema_parse repeated_keywords_payload
  = Some (mkValidated "A red car on a street" "Red car in urban setting"
            ["car"; "red"; "car"; "street"; "urban"; "vehicle"; "red"])
  ∧ processResult repeated_keywords_payload
    = Returns (obj3 (JStr "A red car on a street") (JStr "Red car in urban setting")
                 (strs ["car"; "red"; "street"; "urban"; "vehicle"])).
Proof.
  split; [reflexivity|].
  exact (proj1 (processResult_keywords_first_seen_capped
                  repeated_keywords_payload _ eq_refl)).
Defined.

(** C3, as stated, fails: five copies of one keyword satisfy the schema,
    the processed result keeps a single keyword, and processing that result
    again takes the repair path, which pads the list. *)
Lemma processResult_not_idempotent :
  ResultSchema_parse duplicated_payload
  = Some (mkValidated "hello" "hello" ["a"; "a"; "a"; "a"; "a"])
  ∧ processResult duplicated_payload
    = Returns (obj3 (JStr "hello") (JStr "hello") (strs ["a"]))
  ∧ processResult (obj3 (JStr "hello") (JStr "hello") (strs ["a"]))
    = Returns (obj3 (JStr "hello") (JStr "hello")
                 (strs ["a"; "image"; "photo"; "visual"; "content"; "media"]))
  ∧ obj3 (JStr "hello") (JStr "hello") (strs ["a"])
    ≠ obj3 (JStr "hello") (JStr "hello")
        (strs ["a"; "image"; "photo"; "visual"; "content"; "media"]).
Proof. repeat split; try reflexivity. discriminate. Qed.

(** C3, amended. For a payload that satisfies the schema, has at least five
    distinct keywords, and whose title still has at least five characters
    once cut to 70 and trimmed, processing the processed result returns it
    unchanged. *)
Theorem processResult_idempotent_on_valid_output (raw : JsVal) (v : ValidatedResult) :
  ResultSchema_parse raw = Some v →
  5 ≤ String.length (processedTitle (title v)) →
  5 ≤ length (first_occurrences (keywords v)) →
  ∃ out, processResult raw = Returns out ∧ processResult out = Returns out.
Proof.
  intros Hparse Htitle Hdistinct.
  exists (process_validated v). split; [by apply processResult_strict|].
  destruct (ResultSchema_parse_Some _ _ Hparse) as (Ha & _ & _).
  set (v' := mkValidated (alt_text v) (processedTitle (title v))
                         (processedKeywords (keywords v))).
  assert (within_schema v') as Hv'.
  { unfold within_schema, v'. cbn [alt_text title keywords].
    rewrite processedKeywords_first_occurrences, length_take. lia. }
  unfold process_validated at 1.
  rewrite (processResult_strict _ v') by by apply ResultSchema_parse_obj3.
  unfold process_validated, v'. cbn [alt_text title keywords].
  by rewrite processedTitle_stable, processedKeywords_stable.
Qed.

Lemma processResult_idempotent_on_valid_output_witness :
  ResultSchema_parse repeated_keywords_payload
  = Some (mkValidated "A red car on a street" "Red car in urban setting"
            ["car"; "red"; "car"; "street"; "urban"; "vehicle"; "red"])
  ∧ ∃ out, processResult repeated_keywords_payload = Returns out
           ∧ processResult out = Returns out.
Proof.
  split; [reflexivity|].
  apply (processResult_idempotent_on_valid_output repeated_keywords_payload
           (mkValidated "A red car on a street" "Red car in urban setting"
              ["car"; "red"; "car"; "street"; "urban"; "vehicle"; "red"]));
    [reflexivity | vm_compute; lia | vm_compute; lia].
Defined.

(** C2 does not hold on the repair path. Two keywords are too few for the
    schema, so the payload is repaired, and the repair returns its title of
    84 characters as it is. *)
Theorem processResult_repair_keeps_long_title :
  ResultSchema_parse long_title_payload = None
  ∧ ∃ t ks, processResult long_title_payload
            = Returns (obj3 (JStr "A red car on a street") (JStr t) ks)
            ∧ String.length t = 84.
Proof.
  split; [reflexivity|].
  eexists _, _. split; reflexivity.
Qed.

(** C8. The payload with the title "Hi" and two keywords fails the schema
    on its three fields; the repair gives it the placeholder description, a
    qualified title and a padded keyword list, all within the minimum
    sizes. *)
Theorem processResult_repairs_Hi :
  ResultSchema_parse hi_payload = None
  ∧ get_opt hi_payload "alt_text" = JUndefined
  ∧ String.length "Hi" < 5
  ∧ length ["a"; "b"] < 5
  ∧ ∃ a t ks,
      processResult hi_payload = Returns (obj3 (JStr a) (JStr t) (strs ks))
      ∧ a = "Professional image"
      ∧ t = "High-quality Hi"
      ∧ ks = ["a"; "b"; "image"; "photo"; "visual"; "content"; "media"]
      ∧ 5 ≤ String.length a ∧ 5 ≤ String.length t ∧ 5 ≤ length ks.
Proof.
  split; [reflexivity|]. split; [reflexivity|].
  split; [simpl; lia|]. split; [simpl; lia|].
  exists "Professional image", "High-quality Hi",
    ["a"; "b"; "image"; "photo"; "visual"; "content"; "media"].
  repeat split; simpl; lia.
Qed.

(** C10. The repair in the [catch] block, which is there to make a result
    out of any input, misses two kinds of description. The description of
    the first payload is an object that carries its own [toString] entry;
    it has no length, so the repair qualifies it in a template string, and
    its conversion to a string throws out of the [catch] block:
    [processResult] returns nothing. The description of the second payload
    is an array of five items; its length passes for that of a text, so
    [processResult] returns the array as the [alt_text] of its result,
    where the type of the result promises a string. *)
Lemma processResult_can_throw :
  processResult unprintable_payload = Throws cannot_convert
  ∧ (¬ ∃ result, processResult unprintable_payload = Returns result)
  ∧ processResult array_description_payload
    = Returns (obj3 (JArr (strs ["a"; "b"; "c"; "d"; "e"])) (JStr "High-quality image")
                 fallbackKeywords).
Proof.
  split; [reflexivity|]. split; [|reflexivity].
  intros [result Hresult]. discriminate Hresult.
Qed.

Lemma js_or_primitive (a b : JsVal) :
  is_primitive a = true → is_primitive b = true → is_primitive (js_or a b) = true.
Proof. unfold js_or. by destruct (truthy a). Qed.

Lemma at_least_5_or_prefix_primitive (qualifier : string) (x : JsVal) :
  is_primitive x = true →
  ∃ s, at_least_5_or_prefix qualifier x = Returns (JStr s).
Proof.
  destruct x as [p| |]; [intros _ | discriminate | discriminate].
  unfold at_least_5_or_prefix.
  destruct p as [| |b|n|s]; simpl; try by eexists.
  destruct (5 <=? Z.of_nat (String.length s))%Z; by eexists.
Qed.

(** Where the repair is safe: when each of [alt_text], [description],
    [title] and [caption] is absent or a primitive value (which covers
    [null], non-objects, and objects with missing fields), [processResult]
    returns and does not throw, and its result has a string [alt_text], a
    string [title] and a [keywords] array of at most 25 items. *)
Theorem processResult_total_on_primitive_fields (raw : JsVal) :
  forallb (λ k, is_primitive (get_opt raw k)) text_fields = true →
  ∃ a t ks, processResult raw = Returns (obj3 (JStr a) (JStr t) ks)
            ∧ length ks ≤ 25.
Proof.
  intros Hprim. unfold processResult.
  destruct (ResultSchema_parse raw) as [v|] eqn:Hparse.
  - eexists _, _, _. split; [reflexivity|].
    rewrite length_strs. unfold processedKeywords. rewrite length_take. lia.
  - simpl in Hprim.
    repeat match goal with
           | H : _ && _ = true |- _ => apply andb_true_iff in H as [? ?]
           end.
    unfold repair.
    destruct (at_least_5_or_prefix_primitive "Professional"
                (js_or (js_or (get_opt raw "alt_text") (get_opt raw "description"))
                       (JStr "Professional image"))) as [a ->].
    { by repeat apply js_or_primitive. }
    destruct (at_least_5_or_prefix_primitive "High-quality"
                (js_or (js_or (get_opt raw "title") (get_opt raw "caption"))
                       (JStr "High-quality image"))) as [t ->].
    { by repeat apply js_or_primitive. }
    eexists _, _, _. split; [reflexivity|].
    rewrite length_take. lia.
Qed.

Lemma processResult_total_on_primitive_fields_witness :
  forallb (λ k, is_primitive (get_opt (JObj [("title", JNum 42)]) k)) text_fields = true
  ∧ ∃ a t ks, processResult (JObj [("title", JNum 42)])
              = Returns (obj3 (JStr a) (JStr t) ks)
              ∧ length ks ≤ 25.
Proof.
  split; [reflexivity|].
  apply (processResult_total_on_primitive_fields (JObj [("title", JNum 42)])).
  reflexivity.
Defined.

(** On keyword strings the set of the repair path is the set of the strict
    path. *)
Lemma Set_has_strs (acc : list string) (x : string) :
  Set_has sameValueZero (strs acc) (JStr x) = Set_has String.eqb acc x.
Proof.
  unfold Set_has. induction acc as [|y acc IH]; [done|].
  cbn [strs map existsb]. fold (strs acc). rewrite IH. f_equal.
  unfold sameValueZero. destruct (String.eqb x y) eqn:Heq.
  - apply String.eqb_eq in Heq as ->. by apply bool_decide_eq_true.
  - apply String.eqb_neq in Heq. apply bool_decide_eq_false. by intros [= ->].
Qed.

Lemma fold_Set_add_strs (xs acc : list string) :
  fold_left (Set_add sameValueZero) (strs xs) (strs acc)
  = strs (fold_left (Set_add String.eqb) xs acc).
Proof.
  revert acc. induction xs as [|x xs IH]; intros acc; [done|].
  cbn [strs map fold_left]. fold (strs xs).
  unfold Set_add at 2 4. rewrite Set_has_strs.
  destruct (Set_has String.eqb acc x); [apply IH|].
  rewrite <- IH. f_equal. unfold strs. by rewrite map_app.
Qed.

Lemma Array_from_Set_strs (xs : list string) :
  Array_from_Set sameValueZero (strs xs) = strs (first_occurrences xs).
Proof.
  unfold Array_from_Set at 1. change (@nil JsVal) with (strs []).
  rewrite fold_Set_add_strs.
  f_equal. apply (Array_from_Set_first_occurrences _ String.eqb_eq).
Qed.

(** The repair path, too, returns between 5 and 25 keywords without
    duplicates when the keywords it is given are strings. *)
Lemma repair_keywords_unique (raw a t : JsVal) (ks : list string) (out : list JsVal) :
  get_opt raw "keywords" = JArr (strs ks) →
  repair raw = Returns (obj3 a t out) →
  ∃ l, out = strs l ∧ NoDup l ∧ 5 ≤ length l ≤ 25.
Proof.
  intros Hkeywords. unfold repair. rewrite Hkeywords. cbn [array_items].
  destruct (at_least_5_or_prefix "Professional" _) as [a'|]; [|discriminate].
  destruct (at_least_5_or_prefix "High-quality" _) as [t'|]; [|discriminate].
  intros [= _ _ <-].
  set (padded := if length ks <? 5 then take 25 (ks ++ fallback_words) else ks).
  replace (if length (strs ks) <? 5 then take 25 (strs ks ++ fallbackKeywords) else strs ks)
    with (strs padded).
  2:{ unfold padded. rewrite length_strs. destruct (length ks <? 5); [|done].
      change fallbackKeywords with (strs fallback_words).
      unfold strs. by rewrite <- map_app, firstn_map. }
  rewrite Array_from_Set_strs, length_strs.
  destruct (length (first_occurrences padded) <? 5) eqn:Hfew.
  - exists fallback_words. split; [reflexivity|].
    split; [|simpl; lia].
    assert (first_occurrences fallback_words = fallback_words) as <- by reflexivity.
    apply first_occurrences_NoDup.
  - apply Nat.ltb_ge in Hfew.
    exists (take 25 (first_occurrences padded)).
    split; [unfold strs; by rewrite firstn_map|].
    split; [apply NoDup_take, first_occurrences_NoDup|].
    rewrite length_take. lia.
Qed.

(** Induction over decoded values, through the items of arrays and the
    entries of objects. *)
Lemma JsVal_nested_ind (P : JsVal → Prop) :
  (∀ p, P (JPrim p)) →
  (∀ items, Forall P items → P (JArr items)) →
  (∀ props, Forall (λ entry, P entry.2) props → P (JObj props)) →
  ∀ v, P v.
Proof.
  intros Hprim Harr Hobj. fix IH 1. intros [p | items | props].
  - apply Hprim.
  - apply Harr. induction items as [|x items IHitems]; constructor; [apply IH | exact IHitems].
  - apply Hobj. induction props as [|[k x] props IHprops]; constructor;
      [apply IH | exact IHprops].
Qed.

Lemma join_throws (to_string : JsVal → Outcome string) (items : list JsVal) (t : Thrown) :
  Forall (λ x, ∀ t, to_string x = Throws t → t = cannot_convert) items →
  join to_string items = Throws t → t = cannot_convert.
Proof.
  induction 1 as [|x items Hx _ IH]; [discriminate|].
  cbn [join]. destruct (item_text to_string x) as [s|t'] eqn:Hitem.
  - destruct items as [|y items]; [discriminate|].
    destruct (join to_string (y :: items)) as [r|t'']; [discriminate|].
    intros [= <-]. by apply IH.
  - intros [= <-]. apply Hx.
    destruct x as [[| | | |] | |]; (discriminate || exact Hitem).
Qed.

(** The only way a string conversion fails. *)
Lemma ToString_throws (v : JsVal) (t : Thrown) :
  ToString v = Throws t → t = cannot_convert.
Proof.
  revert t. induction v as [p | items IHitems | props _] using JsVal_nested_ind; intros t.
  - discriminate.
  - cbn [ToString]. by apply join_throws.
  - cbn [ToString]. destruct (has_own props "toString"); [by intros [= <-] | discriminate].
Qed.

Lemma length_ge_throws (v : JsVal) (n : Z) (t : Thrown) :
  length_ge v n = Throws t → t = cannot_convert.
Proof.
  unfold length_ge. repeat case_match; try discriminate. by intros [= <-].
Qed.

Lemma at_least_5_or_prefix_throws (qualifier : string) (x : JsVal) (t : Thrown) :
  at_least_5_or_prefix qualifier x = Throws t → t = cannot_convert.
Proof.
  unfold at_least_5_or_prefix.
  destruct (length_ge x 5) as [[|]|t'] eqn:Hlen; [discriminate | |].
  - destruct (ToString x) as [s|t'] eqn:Hstr; [discriminate|].
    intros [= <-]. by eapply ToString_throws.
  - intros [= <-]. by eapply length_ge_throws.
Qed.

(** Whatever the input, a failed strict validation is handled by the repair
    path: [processResult] returns an object with the three fields, or the
    repair stops on a value it cannot convert to a string. *)
Lemma processResult_returns_or_cannot_convert (raw : JsVal) :
  (∃ a t ks, processResult raw = Returns (obj3 a t ks))
  ∨ processResult raw = Throws cannot_convert.
Proof.
  unfold processResult. destruct (ResultSchema_parse raw) as [v|].
  - left. by eexists _, _, _.
  - unfold repair.
    destruct (at_least_5_or_prefix "Professional" _) as [a|t] eqn:Halt.
    + destruct (at_least_5_or_prefix "High-quality" _) as [t'|t] eqn:Htitle.
      * left. by eexists _, _, _.
      * right. by rewrite (at_least_5_or_prefix_throws _ _ _ Htitle).
    + right. by rewrite (at_least_5_or_prefix_throws _ _ _ Halt).
Qed.

(** ** The retry policy *)

Lemma pow2_sum_closed (k : nat) : (pow2_sum k = 2 ^ Z.of_nat k - 1)%Z.
Proof.
  induction k as [|k IH]; [done|].
  cbn [pow2_sum]. rewrite IH, Nat2Z.inj_succ, Z.pow_succ_r by lia. lia.
Qed.

Lemma total_slept_app (evs evs' : list RetryEvent) :
  (total_slept (evs ++ evs') = total_slept evs + total_slept evs')%Z.
Proof. induction evs as [|[|d] evs IH]; simpl; lia. Qed.

Lemma invocations_app (evs evs' : list RetryEvent) :
  invocations (evs ++ evs') = invocations evs + invocations evs'.
Proof. induction evs as [|[|d] evs IH]; simpl; lia. Qed.

Lemma total_slept_backoff (baseDelayMs attempt : Z) (k : nat) :
  (0 ≤ attempt)%Z →
  (total_slept (backoff_events baseDelayMs attempt k)
   = baseDelayMs * 2 ^ attempt * pow2_sum k)%Z.
Proof.
  revert attempt. induction k as [|k IH]; intros attempt Hattempt.
  - simpl. lia.
  - cbn [backoff_events total_slept]. rewrite IH by lia.
    cbn [pow2_sum]. rewrite !pow2_sum_closed, Z.pow_add_r by lia.
    lia.
Qed.

Lemma invocations_backoff (baseDelayMs attempt : Z) (k : nat) :
  invocations (backoff_events baseDelayMs attempt k) = k.
Proof.
  revert attempt. induction k as [|k IH]; intros attempt; simpl; [done|].
  by rewrite IH.
Qed.

Section RetryFacts.
Context {W T : Type} (fn : M W T).

Variables maxRetries baseDelayMs : Z.
Local Abbreviation loop := (retry_loop fn maxRetries baseDelayMs).

Lemma retry_loop_returns m a lastError r v :
  (fn (world r)).1 = Returns v →
  loop (S m) a lastError r
  = (Returns v, mkRun (fn (world r)).2 (events r ++ [Invoked])).
Proof.
  intros Hfn. cbn [retry_loop]. unfold try_catch, invoke.
  destruct (fn (world r)) as [o w']. simpl in *. by subst o.
Qed.

Lemma retry_loop_gives_up m a lastError r t :
  (fn (world r)).1 = Throws t →
  a = maxRetries →
  loop (S m) a lastError r
  = (Throws (ThrownError (as_Error t)),
     mkRun (fn (world r)).2 (events r ++ [Invoked])).
Proof.
  intros Hfn ->. cbn [retry_loop]. unfold try_catch, invoke.
  destruct (fn (world r)) as [o w']. simpl in *. subst o.
  by rewrite Z.eqb_refl.
Qed.

Lemma retry_loop_retries m a lastError r t :
  (fn (world r)).1 = Throws t →
  a ≠ maxRetries →
  loop (S m) a lastError r
  = loop m (a + 1)%Z (Some (as_Error t))
      (mkRun (fn (world r)).2
             (events r ++ [Invoked; Slept (baseDelayMs * 2 ^ a)])).
Proof.
  intros Hfn Hne. cbn [retry_loop]. unfold try_catch, invoke.
  destruct (fn (world r)) as [o w']. simpl in *. subst o.
  apply Z.eqb_neq in Hne. rewrite Hne.
  unfold mbind, M_bind, bind, sleep, modify. simpl.
  by rewrite <- app_assoc.
Qed.

(** Once the loop body runs, the error remembered from before no longer
    matters. *)
Lemma retry_loop_forgets m a lastError lastError' r :
  loop (S m) a lastError r = loop (S m) a lastError' r.
Proof. done. Qed.

(** [k] failed attempts, none of them the last one allowed, leave the
    loop where it would be had it started [k] attempts later. *)
Lemma retry_loop_failures (k m : nat) (a : Z) lastError (r : Run W) :
  (∀ i, i < k → ∃ t, attempt fn i (world r) = Throws t) →
  (a + Z.of_nat k ≤ maxRetries)%Z →
  loop (k + S m) a lastError r
  = loop (S m) (a + Z.of_nat k)%Z lastError
      (mkRun (world_before fn k (world r))
             (events r ++ backoff_events baseDelayMs a k)).
Proof.
  revert a lastError r. induction k as [|k IH]; intros a lastError r Hfail Hle.
  - destruct r as [w evs]. simpl. by rewrite Z.add_0_r, app_nil_r.
  - destruct (Hfail 0 ltac:(lia)) as [t Ht]. unfold attempt in Ht. simpl in Ht.
    replace (S k + S m) with (S (k + S m)) by lia.
    rewrite (retry_loop_retries _ _ _ _ t) by (done || lia).
    rewrite IH.
    + rewrite (retry_loop_forgets _ _ _ lastError). cbn [world events].
      replace (a + 1 + Z.of_nat k)%Z with (a + Z.of_nat (S k))%Z by lia.
      by rewrite <- app_assoc.
    + intros i Hi. destruct (Hfail (S i) ltac:(lia)) as [t' Ht'].
      by exists t'.
    + lia.
Qed.
End RetryFacts.

Section RetryOutcomes.
Context {W T : Type} (fn : M W T).

Lemma world_before_S (k : nat) (w : W) :
  world_before fn (S k) w = (fn (world_before fn k w)).2.
Proof. revert w. induction k as [|k IH]; intros w; [done|]. apply (IH (fn w).2). Qed.

(** When each of the [n + 1] attempts allowed by [maxRetries = n] fails,
    the operation is invoked [n + 1] times, with a backoff sleep after
    each attempt but the last, and what is thrown is the [Error] made of
    the last failure. *)
Lemma withRetry_all_fail (n : nat) (baseDelayMs : Z) (w : W) (thrown : nat → Thrown) :
  (∀ i, i ≤ n → attempt fn i w = Throws (thrown i)) →
  withRetry fn (Z.of_nat n) baseDelayMs (mkRun w [])
  = (Throws (ThrownError (as_Error (thrown n))),
     mkRun (world_before fn (S n) w) (backoff_events baseDelayMs 0 n ++ [Invoked])).
Proof.
  intros Hfail. unfold withRetry.
  replace (Z.to_nat (Z.of_nat n + 1)) with (n + 1) by lia.
  rewrite retry_loop_failures; cbn [world events].
  - rewrite (retry_loop_gives_up _ _ _ _ _ _ _ (thrown n)).
    + cbn [world events]. by rewrite world_before_S.
    + apply (Hfail n). lia.
    + lia.
  - intros i Hi. exists (thrown i). apply Hfail. lia.
  - lia.
Qed.

Lemma attempt_always (t : Thrown) :
  (∀ w, (fn w).1 = Throws t) → ∀ i w, attempt fn i w = Throws t.
Proof. intros Hfn i w. apply Hfn. Qed.
End RetryOutcomes.




(** C5. For an operation that fails on its first [k] attempts and succeeds
    on the next one, and [maxRetries ≥ k], the retry policy returns the
    value of the successful attempt; it has slept after each failed attempt
    and not after the successful one, [baseDelayMs * 2^i] after attempt
    [i], in total [baseDelayMs * (2^0 + ... + 2^(k-1))]. *)
Theorem withRetry_succeeds_after_backoff {W T} (fn : M W T) (k : nat)
    (maxRetries baseDelayMs : Z) (w : W) (v : T) :
  (Z.of_nat k ≤ maxRetries)%Z →
  (∀ i, i < k → ∃ t, attempt fn i w = Throws t) →
  attempt fn k w = Returns v →
  ∃ r, withRetry fn maxRetries baseDelayMs (mkRun w []) = (Returns v, r)
       ∧ events r = backoff_events baseDelayMs 0 k ++ [Invoked]
       ∧ total_slept (events r) = (baseDelayMs * pow2_sum k)%Z
       ∧ invocations (events r) = k + 1
       ∧ last (events r) = Some Invoked.
Proof.
  intros Hk Hfail Hok. unfold withRetry.
  replace (Z.to_nat (maxRetries + 1)) with (k + S (Z.to_nat maxRetries - k)) by lia.
  rewrite retry_loop_failures by (done || lia). cbn [world events].
  rewrite (retry_loop_returns _ _ _ _ _ _ _ v) by done.
  eexists. split; [reflexivity|]. cbn [world events]. rewrite app_nil_l.
  split; [done|].
  split; [|split].
  - rewrite total_slept_app, total_slept_backoff by lia. simpl. lia.
  - by rewrite invocations_app, invocations_backoff.
  - apply last_snoc.
Qed.

Lemma withRetry_succeeds_after_backoff_witness :
  (2 ≤ 2)%Z
  ∧ (∀ i, i < 2 → ∃ t, attempt answers_third_time i 0 = Throws t)
  ∧ attempt answers_third_time 2 0 = Returns "ok"
  ∧ ∃ r, withRetry answers_third_time 2 1000 (mkRun 0 []) = (Returns "ok", r)
         ∧ events r = [Invoked; Slept 1000; Invoked; Slept 2000; Invoked]
         ∧ total_slept (events r) = 3000%Z.
Proof.
  assert (∀ i, i < 2 → ∃ t, attempt answers_third_time i 0 = Throws t) as Hfail.
  { intros i Hi. destruct i as [|[|i]]; [by eexists..|lia]. }
  split; [lia|]. split; [exact Hfail|]. split; [reflexivity|].
  destruct (withRetry_succeeds_after_backoff answers_third_time 2 2 1000 0 "ok"
              ltac:(lia) Hfail eq_refl) as (r & Hrun & Hevents & Hslept & _).
  exists r. repeat split; assumption.
Defined.

(** ** The adapters *)

Section AdapterFacts.
Context {W : Type} (fetchWithTimeout : Request → Z → M W Response).
Variables (baseUrl apiKey : string) (timeoutMs : Z) (requestBody : JsVal).

Lemma custom_makeRequest_invalid_shape (w : W) :
  (∃ resp w', (∀ req, fetchWithTimeout req timeoutMs w = (Returns resp, w'))
              ∧ ok resp = true
              ∧ ∃ data, json resp = Returns data ∧ lacks_required_field data = true) →
  (CustomBackendEndpoint.makeRequest fetchWithTimeout baseUrl timeoutMs requestBody w).1
  = Throws CustomBackendEndpoint.invalid_format.
Proof.
  intros (resp & w' & Hfetch & Hok & data & Hjson & Hlacks).
  unfold CustomBackendEndpoint.makeRequest, mbind, M_bind, bind, lift_outcome.
  rewrite Hfetch, Hok. cbn [negb]. rewrite Hjson.
  destruct data as [[| | b | n | s] | items | props]; try discriminate;
    cbn [get]; cbn [lacks_required_field] in Hlacks; by rewrite Hlacks.
Qed.

Lemma openai_makeRequest_unparsable (JSON_parse : string → option JsVal)
    (content : string) (w : W) :
  (∃ resp w', (∀ req, fetchWithTimeout req timeoutMs w = (Returns resp, w'))
              ∧ ok resp = true
              ∧ ∃ data, json resp = Returns data
                        ∧ OpenAICompatibleEndpoint.content_of data = Returns (JStr content)) →
  content ≠ "" →
  JSON_parse (OpenAICompatibleEndpoint.cleanContent content) = None →
  (OpenAICompatibleEndpoint.makeRequest fetchWithTimeout JSON_parse baseUrl apiKey
     timeoutMs requestBody w).1
  = Throws (OpenAICompatibleEndpoint.failed_to_parse content).
Proof.
  intros (resp & w' & Hfetch & Hok & data & Hjson & Hcontent) Hne Hparse.
  unfold OpenAICompatibleEndpoint.makeRequest, mbind, M_bind, bind, lift_outcome.
  rewrite Hfetch, Hok. cbn [negb]. rewrite Hjson, Hcontent.
  assert (truthy (JStr content) = true) as ->.
  { simpl. apply negb_true_iff. by apply String.eqb_neq. }
  cbn [negb]. unfold OpenAICompatibleEndpoint.parse_content. by rewrite Hparse.
Qed.
End AdapterFacts.

(** A failure of the transport is retried in the same way. *)
Lemma transport_errors_are_retried {W : Type} (fetchWithTimeout : Request → Z → M W Response)
    (JSON_parse : string → option JsVal) (baseUrl apiKey : string) (timeoutMs : Z)
    (retries : nat) (requestBody : JsVal) (e : JsError) (w : W) :
  (∀ req w, (fetchWithTimeout req timeoutMs w).1 = Throws (ThrownError e)) →
  (∃ r, CustomBackendEndpoint.analyzeImage fetchWithTimeout baseUrl timeoutMs
          (Z.of_nat retries) requestBody (mkRun w [])
        = (Throws (ThrownError e), r)
        ∧ invocations (events r) = retries + 1)
  ∧ (∃ r, OpenAICompatibleEndpoint.analyzeImage fetchWithTimeout JSON_parse baseUrl apiKey
            timeoutMs (Z.of_nat retries) requestBody (mkRun w [])
          = (Throws (ThrownError e), r)
          ∧ invocations (events r) = retries + 1).
Proof.
  intros Hfetch. split.
  - unfold CustomBackendEndpoint.analyzeImage.
    rewrite (withRetry_all_fail _ retries _ _ (λ _, ThrownError e)).
    + eexists. split; [reflexivity|]. cbn [events].
      by rewrite invocations_app, invocations_backoff.
    + intros i _. apply attempt_always. intros w0.
      unfold CustomBackendEndpoint.makeRequest, mbind, M_bind, bind.
      specialize (Hfetch (mkRequest (baseUrl +:+ "/api/analyze") "POST"
                            [("Content-Type", "application/json")] requestBody) w0).
      destruct (fetchWithTimeout _ _ _) as [[resp|t] w']; simpl in *; congruence.
  - unfold OpenAICompatibleEndpoint.analyzeImage.
    rewrite (withRetry_all_fail _ retries _ _ (λ _, ThrownError e)).
    + eexists. split; [reflexivity|]. cbn [events].
      by rewrite invocations_app, invocations_backoff.
    + intros i _. apply attempt_always. intros w0.
      unfold OpenAICompatibleEndpoint.makeRequest, mbind, M_bind, bind.
      match goal with
      | |- context [fetchWithTimeout ?req timeoutMs w0] => specialize (Hfetch req w0)
      end.
      destruct (fetchWithTimeout _ _ _) as [[resp|t] w']; simpl in *; congruence.
Qed.

Example flaky_backend_run :
  (CustomBackendEndpoint.makeRequest flaky_backend "http://backend" 60000 analyze_request 0).1
  = Throws CustomBackendEndpoint.invalid_format
  ∧ CustomBackendEndpoint.analyzeImage flaky_backend "http://backend" 60000 2
      analyze_request (mkRun 0 [])
    = (Returns (with_raw red_car_payload red_car_payload),
       mkRun 2 [Invoked; Slept 1000; Invoked]).
Proof. split; reflexivity. Qed.

(** C1, as stated, fails: the shape error of the first answer is followed
    by a sleep and a second request, and is never thrown. *)
Lemma format_error_not_surfaced_immediately :
  ¬ surfaced_immediately
      (CustomBackendEndpoint.makeRequest flaky_backend "http://backend" 60000 analyze_request)
      2 0.
Proof.
  intros Hclaim.
  destruct (Hclaim CustomBackendEndpoint.invalid_format eq_refl (or_introl eq_refl))
    as (r & Hrun & _).
  vm_compute in Hrun. discriminate Hrun.
Qed.

(** C1, amended. In both adapters a format or shape error is retried like
    any other failure of the request: when every answer is malformed
    (custom adapter: a required field is missing; chat-completions adapter:
    the content is not JSON), the request is made [retries + 1] times, with
    the backoff sleeps in between, and the error thrown in the end is the
    format error. *)
Theorem format_errors_are_retried {WC WO : Type}
    (fetchCustom : Request → Z → M WC Response)
    (fetchOpenAI : Request → Z → M WO Response)
    (JSON_parse : string → option JsVal)
    (baseUrl apiKey : string) (timeoutMs : Z) (retries : nat)
    (requestBody : JsVal) (content : string) (wC : WC) (wO : WO) :
  (∀ w, ∃ resp w', (∀ req, fetchCustom req timeoutMs w = (Returns resp, w'))
                   ∧ ok resp = true
                   ∧ ∃ data, json resp = Returns data ∧ lacks_required_field data = true) →
  (∀ w, ∃ resp w', (∀ req, fetchOpenAI req timeoutMs w = (Returns resp, w'))
                   ∧ ok resp = true
                   ∧ ∃ data, json resp = Returns data
                             ∧ OpenAICompatibleEndpoint.content_of data
                               = Returns (JStr content)) →
  content ≠ "" →
  JSON_parse (OpenAICompatibleEndpoint.cleanContent content) = None →
  (∃ r, CustomBackendEndpoint.analyzeImage fetchCustom baseUrl timeoutMs
          (Z.of_nat retries) requestBody (mkRun wC [])
        = (Throws CustomBackendEndpoint.invalid_format, r)
        ∧ events r = backoff_events default_baseDelayMs 0 retries ++ [Invoked]
        ∧ invocations (events r) = retries + 1)
  ∧ (∃ r, OpenAICompatibleEndpoint.analyzeImage fetchOpenAI JSON_parse baseUrl apiKey
            timeoutMs (Z.of_nat retries) requestBody (mkRun wO [])
          = (Throws (OpenAICompatibleEndpoint.failed_to_parse content), r)
          ∧ events r = backoff_events default_baseDelayMs 0 retries ++ [Invoked]
          ∧ invocations (events r) = retries + 1).
Proof.
  intros Hcustom Hopenai Hne Hparse. split.
  - unfold CustomBackendEndpoint.analyzeImage.
    rewrite (withRetry_all_fail _ retries _ _ (λ _, CustomBackendEndpoint.invalid_format)).
    + eexists. split; [reflexivity|]. cbn [events]. split; [done|].
      by rewrite invocations_app, invocations_backoff.
    + intros i _. apply attempt_always. intros w.
      by apply custom_makeRequest_invalid_shape.
  - unfold OpenAICompatibleEndpoint.analyzeImage.
    rewrite (withRetry_all_fail _ retries _ _
               (λ _, OpenAICompatibleEndpoint.failed_to_parse content)).
    + eexists. split; [reflexivity|]. cbn [events]. split; [done|].
      by rewrite invocations_app, invocations_backoff.
    + intros i _. apply attempt_always. intros w.
      by apply openai_makeRequest_unparsable.
Qed.

Lemma format_errors_are_retried_witness :
  (∃ r, CustomBackendEndpoint.analyzeImage incomplete_backend "http://localhost:1234/v1"
          60000 2 analyze_request (mkRun () [])
        = (Throws CustomBackendEndpoint.invalid_format, r)
        ∧ events r = [Invoked; Slept 1000; Invoked; Slept 2000; Invoked]
        ∧ invocations (events r) = 3)
  ∧ (∃ r, OpenAICompatibleEndpoint.analyzeImage prose_model rejects_prose
            "http://localhost:1234/v1" "" 60000 2 analyze_request (mkRun () [])
          = (Throws (OpenAICompatibleEndpoint.failed_to_parse prose), r)
          ∧ events r = [Invoked; Slept 1000; Invoked; Slept 2000; Invoked]
          ∧ invocations (events r) = 3).
Proof.
  apply (format_errors_are_retried incomplete_backend prose_model rejects_prose
           "http://localhost:1234/v1" "" 60000 2 analyze_request prose () ()).
  - intros w. eexists _, _. split; [reflexivity|]. split; [reflexivity|].
    eexists. split; reflexivity.
  - intros w. eexists _, _. split; [reflexivity|]. split; [reflexivity|].
    eexists. split; reflexivity.
  - discriminate.
  - reflexivity.
Defined.

(** ** Preset-aware validation *)

Lemma map_outcome_toLowerCase (ks : list string) :
  map_outcome call_toLowerCase (strs ks) = Returns (map JsString.toLowerCase ks).
Proof. induction ks as [|k ks IH]; simpl; [done|]. by rewrite IH. Qed.

Section ValidationPhases.
Variables (props : list (string * JsVal)) (preset : option Preset).
Implicit Types (ws es : list string).



Lemma validate_keywords_strings (ks : list string) ws es :
  own_prop props "keywords" = Some (JArr (strs ks)) →
  validate_keywords (JObj props) preset (ws, es)
  = (Returns (), (ws ++ keyword_warnings ks preset, es)).
Proof.
  intros Hkeywords. unfold validate_keywords, get_opt. rewrite Hkeywords. simpl.
  rewrite length_strs. unfold keyword_warnings, mbind, M_bind, bind, lift_outcome, when.
  rewrite map_outcome_toLowerCase.
  destruct (_ <? _)%Z, (_ <? _)%Z, (_ =? _);
    unfold push_warning, modify, mret, M_ret, ret; simpl;
    rewrite <- ?app_assoc, ?app_nil_r; reflexivity.
Qed.
End ValidationPhases.


(** The presets the database is seeded with pass the check of the routes
    that store presets. *)
Example seeded_presets_storable : Forall storable_preset seeded_presets.
Proof. repeat constructor; eexists _, _; repeat split. Qed.





(** ** The orchestrator *)

Section OrchestratorFacts.
Context {E : Type} (analyzeImage : string → M E JsVal) (preset : option Preset).
Implicit Types (p : Pipeline E) (record : ImageRecord).

Lemma db_run_accepted set image_id p :
  db_faults p = [] →
  db_run set image_id p = (Returns (), mkPipeline (alter set image_id (db p)) [] (env p)).
Proof. unfold db_run. by intros ->. Qed.

(** With a store that accepts its writes the loop body never throws. *)
Lemma process_one_completes record p :
  db_faults p = [] →
  ∃ p', process_one analyzeImage preset record p = (Returns (), p') ∧ db_faults p' = [].
Proof.
  intros Hstore. unfold process_one, try_catch, mbind, M_bind, bind.
  rewrite db_run_accepted by done.
  unfold analyze. cbn [db db_faults env].
  destruct (analyzeImage _ _) as [[result|t] e'].
  - unfold lift_outcome.
    destruct (get result "alt_text") as [alt|t];
      [destruct (validateMetadata _ _) as [validation|t]|];
      rewrite db_run_accepted by done; by eexists.
  - rewrite db_run_accepted by done. by eexists.
Qed.

Lemma processImagesAsync_completes (imageRecords : list ImageRecord) p :
  db_faults p = [] →
  ∃ p', processImagesAsync analyzeImage imageRecords preset p = (Returns (), p')
        ∧ db_faults p' = [].
Proof.
  revert p. induction imageRecords as [|record rest IH]; intros p Hstore.
  - by exists p.
  - destruct (process_one_completes record p Hstore) as (p1 & Hone & Hstore1).
    destruct (IH p1 Hstore1) as (p' & Hrest & Hstore').
    exists p'. split; [|done].
    cbn [processImagesAsync]. unfold mbind, M_bind, bind. by rewrite Hone.
Qed.

Lemma processImagesAsync_app (before after : list ImageRecord) p p1 :
  processImagesAsync analyzeImage before preset p = (Returns (), p1) →
  processImagesAsync analyzeImage (before ++ after) preset p
  = processImagesAsync analyzeImage after preset p1.
Proof.
  revert p. induction before as [|record rest IH]; intros p Hbefore.
  - by injection Hbefore as ->.
  - cbn [processImagesAsync app] in *. unfold mbind, M_bind, bind in *.
    destruct (process_one analyzeImage preset record p) as [[[]|t] p0];
      [by apply IH | discriminate].
Qed.

Lemma process_one_analysis_fails record p (e : JsError) (env' : E) :
  db_faults p = [] →
  analyzeImage (file_path record) (env p) = (Throws (ThrownError e), env') →
  process_one analyzeImage preset record p
  = (Returns (),
     mkPipeline (alter (set_error (err_message e)) (id record)
                       (alter set_processing (id record) (db p)))
                [] env').
Proof.
  intros Hstore Hanalyze. unfold process_one, try_catch, mbind, M_bind, bind.
  rewrite db_run_accepted by done.
  unfold analyze. cbn [db db_faults env]. rewrite Hanalyze.
  by rewrite db_run_accepted.
Qed.

(** A write the store accepts changes the row and uses up one entry of the
    script. *)
Lemma db_run_accepts set image_id p (n : nat) :
  accepts (S n) (db_faults p) = true →
  db_run set image_id p
  = (Returns (), mkPipeline (alter set image_id (db p)) (drop 1 (db_faults p)) (env p))
  ∧ accepts n (drop 1 (db_faults p)) = true.
Proof.
  unfold db_run. destruct (db_faults p) as [|[refusal|] script]; simpl.
  - intros _. split; [done|]. by destruct n.
  - discriminate.
  - intros Hscript. split; [done|]. by rewrite drop_0.
Qed.

(** The loop body on an image whose analysis fails with an error, over a
    store that accepts the two writes of the body: the row is marked
    [processing], then [error] with the message of the error. *)
Lemma process_one_analysis_fails_accepted record p (e : JsError) (env' : E) :
  accepts 2 (db_faults p) = true →
  analyzeImage (file_path record) (env p) = (Throws (ThrownError e), env') →
  process_one analyzeImage preset record p
  = (Returns (),
     mkPipeline (alter (set_error (err_message e)) (id record)
                       (alter set_processing (id record) (db p)))
                (drop 2 (db_faults p)) env').
Proof.
  intros Hstore Hanalyze. unfold process_one, try_catch, mbind, M_bind, bind.
  destruct (db_run_accepts set_processing (id record) p 1 Hstore) as [-> Hnext].
  unfold analyze. cbn [db db_faults env]. rewrite Hanalyze.
  change (message_of (ThrownError e)) with (err_message e).
  destruct (db_run_accepts (set_error (err_message e)) (id record)
              (mkPipeline (alter set_processing (id record) (db p))
                          (drop 1 (db_faults p)) env') 0 Hnext) as [-> _].
  cbn [db db_faults env]. by rewrite drop_drop.
Qed.
End OrchestratorFacts.

Example batch_of_three :
  ∃ p', processImagesAsync fails_on_b [image_a; image_b; image_c] None three_pending
        = (Returns (), p')
        ∧ row_status <$> db p' !! "a" = Some completed
        ∧ db p' !! "b"
          = Some (mkRow error JUndefined JUndefined JUndefined
                    (Some "Custom backend error: 503 Service Unavailable"))
        ∧ row_status <$> db p' !! "c" = Some completed.
Proof. eexists. split; [reflexivity|]. repeat split; vm_compute; reflexivity. Qed.

(** C6, as stated, fails when the store refuses the write that records the
    failure. The analysis of image b raises an error; the store accepts
    the write that marks b as [processing] and refuses the next one, made
    in the [catch] block. The rejection leaves the [catch] block and ends
    the loop: the row of b is left at [processing] without a message, and
    image c, which follows, is never processed and stays [pending]. *)
Lemma store_failure_stops_the_batch :
  fails_on_b (file_path image_b) (env three_pending_busy)
  = (Throws (ThrownError backend_down), ())
  ∧ ∃ p', processImagesAsync fails_on_b [image_b; image_c] None three_pending_busy
          = (Throws (ThrownError (new_Error "SQLITE_BUSY")), p')
          ∧ db p' !! "b" = Some (mkRow processing JUndefined JUndefined JUndefined None)
          ∧ db p' !! "c" = Some pending_row.
Proof.
  split; [reflexivity|]. eexists. split; [reflexivity|].
  split; vm_compute; reflexivity.
Qed.

(** C6, amended. In a batch, when the analysis of one image fails with an
    error and the store accepts the two status writes for that image, that
    image alone changes: its row gets the status [error] and the message
    of the error as it is, every other row is left as it was, and the loop
    goes on with the images that follow, over what is left of the script
    of the store; where the store accepts every later write, the rest of
    the batch runs to its end. *)
Theorem processImagesAsync_isolates_failure {E : Type} (analyzeImage : string → M E JsVal)
    (preset : option Preset) (before after : list ImageRecord) (record : ImageRecord)
    (p p1 : Pipeline E) (e : JsError) (env' : E) :
  processImagesAsync analyzeImage before preset p = (Returns (), p1) →
  accepts 2 (db_faults p1) = true →
  analyzeImage (file_path record) (env p1) = (Throws (ThrownError e), env') →
  ∃ p2,
    processImagesAsync analyzeImage (before ++ record :: after) preset p
    = processImagesAsync analyzeImage after preset p2
    ∧ db_faults p2 = drop 2 (db_faults p1)
    ∧ (db_faults p2 = [] →
       ∃ p', processImagesAsync analyzeImage after preset p2 = (Returns (), p'))
    ∧ env p2 = env'
    ∧ (∀ row, db p1 !! id record = Some row →
              ∃ row', db p2 !! id record = Some row'
                      ∧ row_status row' = error
                      ∧ row_error_message row' = Some (err_message e))
    ∧ (∀ other, other ≠ id record → db p2 !! other = db p1 !! other).
Proof.
  intros Hbefore Hstore Hanalyze.
  eexists. split; [|split; [|split; [|split; [|split]]]].
  - rewrite (processImagesAsync_app _ _ _ _ _ _ Hbefore).
    cbn [processImagesAsync]. unfold mbind at 1, M_bind, bind.
    by rewrite (process_one_analysis_fails_accepted _ _ _ _ e env').
  - done.
  - intros Hrest.
    destruct (processImagesAsync_completes analyzeImage preset after _ Hrest)
      as (p' & Hafter & _).
    by exists p'.
  - done.
  - intros row Hrow. cbn [db]. rewrite !lookup_alter_eq, Hrow. by eexists.
  - intros other Hother. cbn [db]. by rewrite !lookup_alter_ne.
Qed.

Lemma processImagesAsync_isolates_failure_witness :
  accepts 2 (db_faults three_pending) = true
  ∧ fails_on_b (file_path image_b) () = (Throws (ThrownError backend_down), ())
  ∧ ∃ p1 p2,
      processImagesAsync fails_on_b [image_a] None three_pending = (Returns (), p1)
      ∧ processImagesAsync fails_on_b ([image_a] ++ image_b :: [image_c]) None three_pending
        = processImagesAsync fails_on_b [image_c] None p2
      ∧ (∃ p', processImagesAsync fails_on_b [image_c] None p2 = (Returns (), p'))
      ∧ (∀ row, db p1 !! "b" = Some row →
                ∃ row', db p2 !! "b" = Some row'
                        ∧ row_status row' = error
                        ∧ row_error_message row' = Some (err_message backend_down))
      ∧ (∀ other, other ≠ "b" → db p2 !! other = db p1 !! other).
Proof.
  split; [reflexivity|]. split; [reflexivity|].
  destruct (processImagesAsync_completes fails_on_b None [image_a] three_pending eq_refl)
    as (p1 & Hbefore & Hstore).
  assert (env p1 = ()) as Henv by (by destruct (env p1)).
  destruct (processImagesAsync_isolates_failure fails_on_b None [image_a] [image_c]
              image_b three_pending p1 backend_down () Hbefore
              ltac:(by rewrite Hstore) ltac:(by rewrite Henv))
    as (p2 & Hrun & Hscript & Hafter & _ & Hrow & Hothers).
  exists p1, p2. repeat split; try assumption.
  apply Hafter. by rewrite Hscript, Hstore.
Defined.

(** * Further properties *)

(** ** The retry policy, for every operation *)

Lemma pow2_sum_mono (j k : nat) : j ≤ k → (pow2_sum j ≤ pow2_sum k)%Z.
Proof.
  intros Hjk. rewrite !pow2_sum_closed.
  assert (2 ^ Z.of_nat j ≤ 2 ^ Z.of_nat k)%Z by (apply Z.pow_le_mono_r; lia).
  lia.
Qed.

Section RetryShape.
Context {W T : Type} (fn : M W T).
Variables maxRetries baseDelayMs : Z.

(** Whatever the operation does, a round of the loop that starts at
    [attempt], with the rounds up to [maxRetries] ahead of it, ends after
    some failed attempts and one last invocation. *)
Lemma retry_loop_events (m : nat) (a : Z) lastError (r : Run W) :
  (a + Z.of_nat m = maxRetries)%Z →
  ∃ j, j ≤ m
       ∧ events (retry_loop fn maxRetries baseDelayMs (S m) a lastError r).2
         = events r ++ backoff_events baseDelayMs a j ++ [Invoked].
Proof.
  revert a lastError r. induction m as [|m IH]; intros a lastError r Ha.
  - exists 0. split; [done|].
    destruct (fn (world r)).1 as [v|t] eqn:Hfn.
    + by rewrite (retry_loop_returns _ _ _ _ _ _ _ v).
    + rewrite (retry_loop_gives_up _ _ _ _ _ _ _ t) by (done || lia). done.
  - destruct (fn (world r)).1 as [v|t] eqn:Hfn.
    + exists 0. split; [lia|]. by rewrite (retry_loop_returns _ _ _ _ _ _ _ v).
    + rewrite (retry_loop_retries _ _ _ _ _ _ _ t) by (done || lia).
      destruct (IH (a + 1)%Z (Some (as_Error t))
                  (mkRun (fn (world r)).2
                         (events r ++ [Invoked; Slept (baseDelayMs * 2 ^ a)])))
        as (j & Hj & Hevents); [lia|].
      exists (S j). split; [lia|].
      rewrite Hevents. cbn [events backoff_events]. by rewrite <- app_assoc.
Qed.
End RetryShape.

(** X1. For every operation and every [maxRetries ≥ 0], a run of the retry
    policy is some number [j ≤ maxRetries] of failed attempts, each followed
    by its sleep of [baseDelayMs * 2^i], and then one last invocation with
    no sleep after it. So the operation is invoked at least once and at most
    [maxRetries + 1] times, and with a non-negative base delay the policy
    never waits longer than [baseDelayMs * (2^maxRetries - 1)] in all. *)
Theorem withRetry_run_shape {W T} (fn : M W T) (maxRetries baseDelayMs : Z) (w : W) :
  (0 ≤ maxRetries)%Z →
  ∃ j, (Z.of_nat j ≤ maxRetries)%Z
       ∧ events (withRetry fn maxRetries baseDelayMs (mkRun w [])).2
         = attempts_then_last baseDelayMs j
       ∧ invocations (events (withRetry fn maxRetries baseDelayMs (mkRun w [])).2) = j + 1
       ∧ total_slept (events (withRetry fn maxRetries baseDelayMs (mkRun w [])).2)
         = (baseDelayMs * pow2_sum j)%Z
       ∧ ((0 ≤ baseDelayMs)%Z →
          (total_slept (events (withRetry fn maxRetries baseDelayMs (mkRun w [])).2)
           ≤ baseDelayMs * (2 ^ maxRetries - 1))%Z).
Proof.
  intros Hmax. unfold withRetry.
  replace (Z.to_nat (maxRetries + 1)) with (S (Z.to_nat maxRetries)) by lia.
  destruct (retry_loop_events fn maxRetries baseDelayMs (Z.to_nat maxRetries) 0 None
              (mkRun w [])) as (j & Hj & Hevents); [lia|].
  cbn [events] in Hevents. rewrite app_nil_l in Hevents.
  exists j. rewrite Hevents. unfold attempts_then_last.
  assert (total_slept (backoff_events baseDelayMs 0 j ++ [Invoked])
          = (baseDelayMs * pow2_sum j)%Z) as Hslept.
  { rewrite total_slept_app, total_slept_backoff by lia. simpl. lia. }
  split; [lia|]. split; [done|]. split; [|split; [done|]].
  - by rewrite invocations_app, invocations_backoff.
  - intros Hbase. rewrite Hslept.
    pose proof (pow2_sum_mono j (Z.to_nat maxRetries) Hj) as Hmono.
    rewrite (pow2_sum_closed (Z.to_nat maxRetries)) in Hmono.
    rewrite Z2Nat.id in Hmono by lia. nia.
Qed.

Lemma withRetry_run_shape_witness :
  (0 ≤ 2)%Z
  ∧ ∃ j, (Z.of_nat j ≤ 2)%Z
         ∧ events (withRetry answers_third_time 2 1000 (mkRun 0 [])).2
           = attempts_then_last 1000 j
         ∧ invocations (events (withRetry answers_third_time 2 1000 (mkRun 0 [])).2) = j + 1.
Proof.
  split; [lia|].
  destruct (withRetry_run_shape answers_third_time 2 1000 0 ltac:(lia))
    as (j & Hj & Hevents & Hcount & _).
  exists j. repeat split; assumption.
Defined.

Section RetrySoundness.
Context {W T : Type} (fn : M W T).
Variables maxRetries baseDelayMs : Z.

(** What the loop answers is what some attempt answered: a value comes
    from the first attempt that returned, an error from the last attempt
    allowed, after every attempt before it failed too. *)
Lemma retry_loop_outcome (m : nat) (a : Z) lastError (r : Run W) :
  (a + Z.of_nat m = maxRetries)%Z →
  match (retry_loop fn maxRetries baseDelayMs (S m) a lastError r).1 with
  | Returns v =>
      ∃ k, k ≤ m
           ∧ (∀ i, i < k → ∃ t, attempt fn i (world r) = Throws t)
           ∧ attempt fn k (world r) = Returns v
  | Throws thrown =>
      ∃ t, (∀ i, i ≤ m → ∃ t', attempt fn i (world r) = Throws t')
           ∧ attempt fn m (world r) = Throws t
           ∧ thrown = ThrownError (as_Error t)
  end.
Proof.
  revert a lastError r. induction m as [|m IH]; intros a lastError r Ha.
  - destruct (fn (world r)).1 as [v|t] eqn:Hfn.
    + rewrite (retry_loop_returns _ _ _ _ _ _ _ v) by done.
      exists 0. split; [done|]. split; [intros i Hi; lia | done].
    + rewrite (retry_loop_gives_up _ _ _ _ _ _ _ t) by (done || lia).
      exists t. split; [|done]. intros i Hi. exists t.
      by replace i with 0 by lia.
  - destruct (fn (world r)).1 as [v|t] eqn:Hfn.
    + rewrite (retry_loop_returns _ _ _ _ _ _ _ v) by done.
      exists 0. split; [lia|]. split; [intros i Hi; lia | done].
    + rewrite (retry_loop_retries _ _ _ _ _ _ _ t) by (done || lia).
      specialize (IH (a + 1)%Z (Some (as_Error t))
                    (mkRun (fn (world r)).2
                           (events r ++ [Invoked; Slept (baseDelayMs * 2 ^ a)]))
                    ltac:(lia)).
      cbn [world] in IH.
      destruct (retry_loop fn maxRetries baseDelayMs (S m) (a + 1)
                  (Some (as_Error t)) _).1 as [v|thrown].
      * destruct IH as (k & Hk & Hfail & Hok).
        exists (S k). split; [lia|]. split; [|exact Hok].
        intros [|i] Hi; [by exists t|]. apply (Hfail i). lia.
      * destruct IH as (t' & Hfail & Hlast & ->).
        exists t'. split; [|done].
        intros [|i] Hi; [by exists t|]. apply (Hfail i). lia.
Qed.
End RetrySoundness.



(** ** The repair path *)

Lemma string_length_app (a b : string) :
  String.length (a +:+ b) = String.length a + String.length b.
Proof. induction a as [|c a IH]; simpl; [done|]. by rewrite IH. Qed.

(** On a primitive value the length check with its prefix always gives a
    string of at least five characters, as long as the qualifier has four. *)
Lemma at_least_5_or_prefix_long (qualifier : string) (x : JsVal) :
  4 ≤ String.length qualifier →
  is_primitive x = true →
  ∃ s, at_least_5_or_prefix qualifier x = Returns (JStr s) ∧ 5 ≤ String.length s.
Proof.
  intros Hq. destruct x as [p| |]; [intros _ | discriminate | discriminate].
  unfold at_least_5_or_prefix.
  destruct p as [| |b|n|s]; cbn [length_ge ToString];
    try (eexists; split; [reflexivity|]; rewrite !string_length_app; simpl; lia).
  destruct (5 <=? Z.of_nat (String.length s))%Z eqn:Hlen.
  - exists s. split; [done|]. apply Z.leb_le in Hlen. lia.
  - eexists. split; [reflexivity|]. rewrite !string_length_app. simpl. lia.
Qed.

(** The keywords of the repair path are between 5 and 25, whatever the
    input holds. *)
Lemma repair_keywords_count (raw a t : JsVal) (out : list JsVal) :
  repair raw = Returns (obj3 a t out) → 5 ≤ length out ≤ 25.
Proof.
  unfold repair.
  destruct (at_least_5_or_prefix "Professional" _) as [a'|]; [|discriminate].
  destruct (at_least_5_or_prefix "High-quality" _) as [t'|]; [|discriminate].
  intros [= _ _ <-]. rewrite length_take.
  match goal with
  | |- context [if ?c then fallbackKeywords else ?ks] => destruct c eqn:Hfew
  end.
  - simpl. lia.
  - apply Nat.ltb_ge in Hfew. lia.
Qed.

(** X3. What the repair path promises. When the schema rejects the input
    and each of [alt_text], [description], [title] and [caption] is absent
    or a primitive value, the result has a string [alt_text] and a string
    [title] of at least 5 characters each, and between 5 and 25 keywords. *)
Theorem processResult_repair_meets_minimums (raw : JsVal) :
  ResultSchema_parse raw = None →
  forallb (λ k, is_primitive (get_opt raw k)) text_fields = true →
  ∃ a t ks, processResult raw = Returns (obj3 (JStr a) (JStr t) ks)
            ∧ 5 ≤ String.length a
            ∧ 5 ≤ String.length t
            ∧ 5 ≤ length ks ≤ 25.
Proof.
  intros Hparse Hprim. unfold processResult. rewrite Hparse.
  simpl in Hprim.
  repeat match goal with
         | H : _ && _ = true |- _ => apply andb_true_iff in H as [? ?]
         end.
  destruct (at_least_5_or_prefix_long "Professional"
              (js_or (js_or (get_opt raw "alt_text") (get_opt raw "description"))
                     (JStr "Professional image"))) as (a & Ha & Hlen_a).
  { simpl. lia. }
  { by repeat apply js_or_primitive. }
  destruct (at_least_5_or_prefix_long "High-quality"
              (js_or (js_or (get_opt raw "title") (get_opt raw "caption"))
                     (JStr "High-quality image"))) as (t & Ht & Hlen_t).
  { simpl. lia. }
  { by repeat apply js_or_primitive. }
  destruct (repair raw) as [out|thrown] eqn:Hrepair.
  - pose proof Hrepair as Hshape. unfold repair in Hshape.
    rewrite Ha, Ht in Hshape. injection Hshape as <-.
    eexists a, t, _. split; [reflexivity|]. split; [done|]. split; [done|].
    by eapply repair_keywords_count.
  - unfold repair in Hrepair. by rewrite Ha, Ht in Hrepair.
Qed.

Lemma processResult_repair_meets_minimums_witness :
  ResultSchema_parse hi_payload = None
  ∧ forallb (λ k, is_primitive (get_opt hi_payload k)) text_fields = true
  ∧ ∃ a t ks, processResult hi_payload = Returns (obj3 (JStr a) (JStr t) ks)
              ∧ 5 ≤ String.length a
              ∧ 5 ≤ String.length t
              ∧ 5 ≤ length ks ≤ 25.
Proof.
  split; [reflexivity|]. split; [reflexivity|].
  exact (processResult_repair_meets_minimums hi_payload eq_refl eq_refl).
Defined.

(** ** Validation: what makes metadata invalid *)

Lemma trim_empty_blank (s : string) :
  String.eqb s "" || (String.length (JsString.trim s) =? 0)
  = (String.length (JsString.trim s) =? 0).
Proof. by destruct s. Qed.

Section ValidationErrors.
Variables (metadata : JsVal) (preset : option Preset).
Implicit Types (ws es : list string).

Lemma validate_title_errors ws es ws' es' :
  validate_title metadata preset (ws, es) = (Returns (), (ws', es')) →
  es' = es ++ (if blank_title metadata then ["Title is required"] else []).
Proof.
  unfold validate_title, blank_title.
  destruct (get_opt metadata "title") as [[| |b|n|s]|items|props]; cbn [truthy negb];
    try (by intros [= _ <-]); try discriminate.
  - destruct b; [discriminate|]. by intros [= _ <-].
  - destruct (n =? 0)%Z; [|discriminate]. by intros [= _ <-].
  - rewrite trim_empty_blank.
    destruct (String.length (JsString.trim s) =? 0); [by intros [= _ <-]|].
    unfold when. destruct (_ <? _)%Z; intros [= _ <-]; by rewrite app_nil_r.
Qed.

Lemma validate_alt_text_errors ws es ws' es' :
  validate_alt_text metadata (ws, es) = (Returns (), (ws', es')) → es' = es.
Proof.
  unfold validate_alt_text.
  destruct (get_opt metadata "alt_text") as [[| |b|n|s]|items|props]; cbn [truthy negb];
    try (by intros [= _ <-]); try discriminate.
  - destruct b; [discriminate|]. by intros [= _ <-].
  - destruct (n =? 0)%Z; [|discriminate]. by intros [= _ <-].
  - destruct (_ || _); [by intros [= _ <-]|].
    unfold when. by destruct (_ <? _)%Z; intros [= _ <-].
Qed.

Lemma validate_keywords_errors ws es ws' es' :
  validate_keywords metadata preset (ws, es) = (Returns (), (ws', es')) →
  es' = es ++ (if is_array (get_opt metadata "keywords") then []
               else ["Keywords must be an array"]).
Proof.
  unfold validate_keywords.
  destruct (get_opt metadata "keywords") as [p|items|props]; cbn [is_array];
    try (by intros [= _ <-]).
  unfold mbind, M_bind, bind, lift_outcome, when.
  destruct (map_outcome call_toLowerCase items) as [lowered|t].
  - destruct (_ <? _)%Z, (_ <? _)%Z, (negb _);
      unfold push_warning, modify, mret, M_ret, ret; simpl;
      intros [= _ <-]; by rewrite app_nil_r.
  - destruct (_ <? _)%Z, (_ <? _)%Z;
      unfold push_warning, modify, mret, M_ret, ret; simpl; discriminate.
Qed.
End ValidationErrors.

(** X4. Whenever validation of a metadata value returns, its errors are
    exactly: ["Title is required"] when the title is absent, empty or white
    space only, then ["Keywords must be an array"] when the keywords are not
    an array; and [is_valid] is true exactly when the title is not blank and
    the keywords are an array. Neither the description, nor the length of
    the title, nor the number of keywords or their repetition has any
    influence on [is_valid], under any preset. *)
Theorem validateMetadata_validity (metadata : JsVal) (preset : option Preset)
    (v : ValidationResult) :
  truthy metadata = true →
  validateMetadata metadata preset = Returns v →
  errors v = (if blank_title metadata then ["Title is required"] else [])
             ++ (if is_array (get_opt metadata "keywords") then []
                 else ["Keywords must be an array"])
  ∧ is_valid v = negb (blank_title metadata) && is_array (get_opt metadata "keywords").
Proof.
  intros Htruthy. unfold validateMetadata. rewrite Htruthy. cbn [negb].
  unfold mbind, M_bind, bind.
  destruct (validate_title metadata preset ([], [])) as [[[]|t] [ws1 es1]] eqn:Htitle;
    [|discriminate].
  destruct (validate_alt_text metadata (ws1, es1)) as [[[]|t] [ws2 es2]] eqn:Halt;
    [|discriminate].
  destruct (validate_keywords metadata preset (ws2, es2)) as [[[]|t] [ws3 es3]] eqn:Hkeywords;
    [|discriminate].
  intros [= <-]. cbn [errors is_valid].
  apply validate_title_errors in Htitle.
  apply validate_alt_text_errors in Halt.
  apply validate_keywords_errors in Hkeywords.
  subst es3 es2 es1. rewrite app_nil_l.
  split; [done|].
  by destruct (blank_title metadata), (is_array (get_opt metadata "keywords")).
Qed.

Lemma validateMetadata_validity_witness :
  truthy blank_title_metadata = true
  ∧ validateMetadata blank_title_metadata None
    = Returns (mkValidation false
                 ["Alt text is missing"; "Too few keywords: 1 (minimum: 15)"]
                 ["Title is required"])
  ∧ is_valid (mkValidation false
                ["Alt text is missing"; "Too few keywords: 1 (minimum: 15)"]
                ["Title is required"])
    = negb (blank_title blank_title_metadata)
      && is_array (get_opt blank_title_metadata "keywords").
Proof.
  split; [reflexivity|]. split; [reflexivity|].
  exact (proj2 (validateMetadata_validity blank_title_metadata None _ eq_refl eq_refl)).
Defined.

(** ** Validation: the warnings *)

Lemma first_occurrences_same_length {A} `{EqDecision A} (l : list A) :
  length (first_occurrences l) = length l ↔ NoDup l.
Proof.
  split.
  - intros Hlen.
    assert (first_occurrences l ≡ₚ l) as <-.
    { apply submseteq_length_Permutation; [|lia].
      apply sublist_submseteq, first_occurrences_sublist. }
    apply first_occurrences_NoDup.
  - intros Hnodup. by rewrite first_occurrences_id.
Qed.

(** The warnings and the verdict for metadata of the expected types: a
    title that is not blank, a description and keywords that are strings. *)
Lemma validateMetadata_typed (props : list (string * JsVal)) (t a : string)
    (ks : list string) (preset : option Preset) :
  own_prop props "title" = Some (JStr t) →
  JsString.trim t ≠ "" →
  own_prop props "alt_text" = Some (JStr a) →
  own_prop props "keywords" = Some (JArr (strs ks)) →
  validateMetadata (JObj props) preset
  = Returns (mkValidation true
               (title_warnings t preset ++ alt_text_warnings a ++ keyword_warnings ks preset)
               []).
Proof.
  intros Htitle Hnonblank Halt Hkeywords.
  unfold validateMetadata. cbn [truthy negb]. unfold mbind, M_bind, bind.
  assert (validate_title (JObj props) preset ([], [])
          = (Returns (), (title_warnings t preset, []))) as ->.
  { unfold validate_title, get_opt. rewrite Htitle. simpl.
    rewrite trim_empty_blank.
    assert ((String.length (JsString.trim t) =? 0) = false) as ->.
    { apply Nat.eqb_neq. by destruct (JsString.trim t). }
    unfold title_warnings, when. by destruct (_ <? _)%Z. }
  assert (validate_alt_text (JObj props) (title_warnings t preset, [])
          = (Returns (), (title_warnings t preset ++ alt_text_warnings a, []))) as ->.
  { unfold validate_alt_text, get_opt. rewrite Halt. simpl.
    rewrite trim_empty_blank. unfold alt_text_warnings, when.
    destruct (String.length (JsString.trim a) =? 0); [done|].
    destruct (_ <? _)%Z; [done|].
    unfold mret, M_ret, ret. by rewrite app_nil_r. }
  rewrite (validate_keywords_strings props preset ks) by done.
  by rewrite <- app_assoc.
Qed.

(** X5. For metadata of the expected types, under any preset, validation
    warns of duplicate keywords exactly when two keywords are equal once
    lower-cased: keywords that differ only in case count as duplicates,
    and no other warning can be mistaken for this one. *)
Theorem validateMetadata_duplicates_up_to_case (props : list (string * JsVal))
    (t a : string) (ks : list string) (preset : option Preset) :
  own_prop props "title" = Some (JStr t) →
  JsString.trim t ≠ "" →
  own_prop props "alt_text" = Some (JStr a) →
  own_prop props "keywords" = Some (JArr (strs ks)) →
  ∃ ws, validateMetadata (JObj props) preset = Returns (mkValidation true ws [])
        ∧ ("Duplicate keywords detected" ∈ ws ↔ ¬ NoDup (map JsString.toLowerCase ks)).
Proof.
  intros Htitle Hnonblank Halt Hkeywords.
  rewrite (validateMetadata_typed props t a ks preset) by done.
  eexists. split; [reflexivity|].
  rewrite !elem_of_app.
  unfold title_warnings, alt_text_warnings, keyword_warnings.
  rewrite (Array_from_Set_first_occurrences _ String.eqb_eq).
  rewrite <- first_occurrences_same_length, <- (length_map JsString.toLowerCase ks).
  set (lowered := map JsString.toLowerCase ks).
  split.
  - intros [Hin | [Hin | Hin]].
    + destruct (_ <? _)%Z; [|by apply elem_of_nil in Hin].
      apply list_elem_of_singleton in Hin. discriminate Hin.
    + destruct (String.length (JsString.trim a) =? 0).
      * apply list_elem_of_singleton in Hin. discriminate Hin.
      * destruct (_ <? _)%Z; [|by apply elem_of_nil in Hin].
        apply list_elem_of_singleton in Hin. discriminate Hin.
    + rewrite !elem_of_app in Hin. destruct Hin as [Hin | [Hin | Hin]].
      * destruct (_ <? _)%Z; [|by apply elem_of_nil in Hin].
        apply list_elem_of_singleton in Hin. discriminate Hin.
      * destruct (_ <? _)%Z; [|by apply elem_of_nil in Hin].
        apply list_elem_of_singleton in Hin. discriminate Hin.
      * destruct (length (first_occurrences lowered) =? length lowered) eqn:Hsame;
          [by apply elem_of_nil in Hin|].
        by apply Nat.eqb_neq in Hsame.
  - intros Hdup. right. right. rewrite !elem_of_app. right. right.
    apply Nat.eqb_neq in Hdup. rewrite Hdup. by left.
Qed.

Lemma validateMetadata_duplicates_up_to_case_witness :
  JsString.trim "Red car" ≠ ""
  ∧ ∃ ws, validateMetadata mixed_case_metadata None = Returns (mkValidation true ws [])
          ∧ ("Duplicate keywords detected" ∈ ws
             ↔ ¬ NoDup (map JsString.toLowerCase ["Car"; "red"; "car"])).
Proof.
  split; [discriminate|].
  exact (validateMetadata_duplicates_up_to_case
           [("alt_text", JStr "A red car"); ("title", JStr "Red car");
            ("keywords", JArr (strs ["Car"; "red"; "car"]))]
           "Red car" "A red car" ["Car"; "red"; "car"] None
           eq_refl ltac:(discriminate) eq_refl eq_refl).
Defined.

(** ** The validator followed by validation *)

(** X6. A result of the strict path of [processResult] passes validation
    under the default limits, and under every preset that allows titles of
    70 characters and 25 keywords: provided its title is not blank,
    validation returns [is_valid] true with no error, and among the
    warnings there is none about the length of the title and none about too
    many keywords. *)
Theorem processResult_output_within_limits (raw : JsVal) (v : ValidatedResult)
    (preset : option Preset) :
  ResultSchema_parse raw = Some v →
  JsString.trim (processedTitle (title v)) ≠ "" →
  (70 ≤ preset_or preset title_max_length 70)%Z →
  (25 ≤ preset_or preset keywords_max 25)%Z →
  ∃ out ws,
    processResult raw = Returns out
    ∧ validateMetadata out preset = Returns (mkValidation true ws [])
    ∧ ∀ n m, (title_exceeds n m ∉ ws) ∧ (too_many n m ∉ ws).
Proof.
  intros Hparse Hnonblank Htitle_max Hkeywords_max.
  rewrite (processResult_strict raw v Hparse).
  eexists _, _. split; [reflexivity|].
  split.
  { unfold process_validated, obj3.
    by apply (validateMetadata_typed _ (processedTitle (title v)) (alt_text v)
                (processedKeywords (keywords v)) preset). }
  assert (title_warnings (processedTitle (title v)) preset = []) as ->.
  { unfold title_warnings. pose proof (processedTitle_length (title v)).
    destruct (_ <? _)%Z eqn:Hlong; [|done]. apply Z.ltb_lt in Hlong. lia. }
  assert (length (processedKeywords (keywords v)) ≤ 25) as Hcount.
  { unfold processedKeywords. rewrite length_take. lia. }
  unfold alt_text_warnings, keyword_warnings.
  set (ks := processedKeywords (keywords v)) in *.
  assert ((preset_or preset keywords_max 25 <? Z.of_nat (length ks))%Z = false) as ->.
  { apply Z.ltb_ge. lia. }
  intros n m. rewrite app_nil_l, !elem_of_app.
  split; intros [Hin | [Hin | [Hin | Hin]]];
    repeat match type of Hin with
           | _ ∈ (if ?c then _ else _) => destruct c
           | _ ∈ [] => by apply elem_of_nil in Hin
           | _ ∈ [_] => apply list_elem_of_singleton in Hin; discriminate Hin
           end.
Qed.

Lemma processResult_output_within_limits_witness :
  JsString.trim (processedTitle "Red car in urban setting") ≠ ""
  ∧ ∃ out ws,
      processResult repeated_keywords_payload = Returns out
      ∧ validateMetadata out None = Returns (mkValidation true ws [])
      ∧ ∀ n m, (title_exceeds n m ∉ ws) ∧ (too_many n m ∉ ws).
Proof.
  split; [discriminate|].
  exact (processResult_output_within_limits repeated_keywords_payload
           (mkValidated "A red car on a street" "Red car in urban setting"
              ["car"; "red"; "car"; "street"; "urban"; "vehicle"; "red"])
           None eq_refl ltac:(discriminate) ltac:(vm_compute; discriminate)
           ltac:(vm_compute; discriminate)).
Defined.

(** ** The orchestrator: the table *)

Lemma same_rows_except_refl ids d : same_rows_except ids d d.
Proof. by intros k. Qed.

Lemma same_rows_except_trans ids d1 d2 d3 :
  same_rows_except ids d1 d2 → same_rows_except ids d2 d3 → same_rows_except ids d1 d3.
Proof.
  intros H12 H23 k. destruct (H12 k) as [Hdom12 Hrow12], (H23 k) as [Hdom23 Hrow23].
  split; [by rewrite Hdom23|]. intros Hk. by rewrite Hrow23, Hrow12.
Qed.

Lemma same_rows_except_alter ids (f : ImageRow → ImageRow) image_id d :
  image_id ∈ ids → same_rows_except ids d (alter f image_id d).
Proof.
  intros Hin k. split.
  - destruct (decide (image_id = k)) as [->|Hne].
    + rewrite lookup_alter_eq. by rewrite fmap_is_Some.
    + by rewrite lookup_alter_ne.
  - intros Hk. rewrite lookup_alter_ne; [done|]. by intros ->.
Qed.

Lemma same_rows_except_weaken ids ids' d d' :
  ids ⊆ ids' → same_rows_except ids d d' → same_rows_except ids' d d'.
Proof.
  intros Hsub Hsame k. destruct (Hsame k) as [Hdom Hrow].
  split; [done|]. intros Hk. apply Hrow. intros Hin. by apply Hk, Hsub.
Qed.

Section TableFrame.
Context {E : Type} (analyzeImage : string → M E JsVal) (preset : option Preset).
Implicit Types (p : Pipeline E) (record : ImageRecord).

Lemma rewrites_only_bind {A B} ids (m : M (Pipeline E) A) (k : A → M (Pipeline E) B) :
  rewrites_only ids m → (∀ a, rewrites_only ids (k a)) → rewrites_only ids (m ≫= k).
Proof.
  intros Hm Hk p. unfold mbind, M_bind, bind. specialize (Hm p).
  destruct (m p) as [[a|t] p1]; [|done].
  eapply same_rows_except_trans; [exact Hm | apply Hk].
Qed.

Lemma rewrites_only_try_catch {A} ids (m : M (Pipeline E) A) handler :
  rewrites_only ids m → (∀ t, rewrites_only ids (handler t)) →
  rewrites_only ids (try_catch m handler).
Proof.
  intros Hm Hhandler p. unfold try_catch. specialize (Hm p).
  destruct (m p) as [[a|t] p1]; [done|].
  eapply same_rows_except_trans; [exact Hm | apply Hhandler].
Qed.

Lemma rewrites_only_lift {A} ids (o : Outcome A) :
  rewrites_only (E:=E) ids (lift_outcome o).
Proof. intros p. apply same_rows_except_refl. Qed.

Lemma rewrites_only_db_run ids set image_id :
  image_id ∈ ids → rewrites_only (E:=E) ids (db_run set image_id).
Proof.
  intros Hin p. unfold db_run.
  destruct (db_faults p) as [|[err|] script]; cbn [db snd];
    (apply same_rows_except_refl || by apply same_rows_except_alter).
Qed.

Lemma rewrites_only_analyze ids record : rewrites_only ids (analyze analyzeImage record).
Proof.
  intros p. unfold analyze. destruct (analyzeImage _ _) as [o e'].
  apply same_rows_except_refl.
Qed.

Lemma rewrites_only_process_one ids record :
  id record ∈ ids → rewrites_only ids (process_one analyzeImage preset record).
Proof.
  intros Hin. unfold process_one.
  apply rewrites_only_try_catch; [|intros t; by apply rewrites_only_db_run].
  apply rewrites_only_bind; [by apply rewrites_only_db_run | intros _].
  apply rewrites_only_bind; [apply rewrites_only_analyze | intros result].
  apply rewrites_only_bind; [apply rewrites_only_lift | intros alt].
  apply rewrites_only_bind; [apply rewrites_only_lift | intros validation].
  by apply rewrites_only_db_run.
Qed.

Lemma rewrites_only_processImagesAsync (imageRecords : list ImageRecord) :
  rewrites_only (map id imageRecords) (processImagesAsync analyzeImage imageRecords preset).
Proof.
  induction imageRecords as [|record rest IH].
  - intros p. apply same_rows_except_refl.
  - cbn [processImagesAsync map].
    apply rewrites_only_bind.
    + apply rewrites_only_process_one. by left.
    + intros _ p. eapply same_rows_except_weaken; [|apply IH].
      intros k Hk. by right.
Qed.
End TableFrame.

(** X7. The processing loop only ever rewrites rows of the images it is
    given. Whatever the analysis answers and whichever writes the store
    refuses, also when the loop ends with a rejection, the table has the
    same image ids afterwards, no row added and none removed, and the row
    of every image outside the batch is as it was. *)
Theorem processImagesAsync_touches_only_the_batch {E : Type}
    (analyzeImage : string → M E JsVal) (preset : option Preset)
    (imageRecords : list ImageRecord) (p : Pipeline E) :
  let p' := (processImagesAsync analyzeImage imageRecords preset p).2 in
  dom (db p') =@{gset string} dom (db p)
  ∧ ∀ other, other ∉ map id imageRecords → db p' !! other = db p !! other.
Proof.
  pose proof (rewrites_only_processImagesAsync analyzeImage preset imageRecords p) as Hsame.
  split.
  - apply set_eq. intros k. rewrite !elem_of_dom. apply Hsame.
  - intros other Hother. by apply Hsame.
Qed.

Section Settling.
Context {E : Type} (analyzeImage : string → M E JsVal) (preset : option Preset).
Implicit Types (p : Pipeline E) (record : ImageRecord).

(** With a store that accepts its writes, the loop body leaves the row of
    its image settled and every other row as it was. *)
Lemma process_one_settles record p :
  db_faults p = [] →
  ∃ p' f, process_one analyzeImage preset record p = (Returns (), p')
          ∧ db_faults p' = []
          ∧ db p' = alter f (id record) (db p)
          ∧ ∀ row, settled (row_status (f row)) = true.
Proof.
  intros Hstore. unfold process_one, try_catch, mbind, M_bind, bind.
  rewrite db_run_accepted by done.
  unfold analyze. cbn [db db_faults env].
  destruct (analyzeImage _ _) as [[result|t] e'].
  - unfold lift_outcome.
    destruct (get result "alt_text") as [alt|t];
      [destruct (validateMetadata _ _) as [validation|t]|];
      rewrite db_run_accepted by done; cbn [db db_faults env];
      eexists _, _; (split; [reflexivity|]); (split; [reflexivity|]);
      rewrite alter_alter_eq; (split; [reflexivity|]); done.
  - rewrite db_run_accepted by done. cbn [db db_faults env].
    eexists _, _. split; [reflexivity|]. split; [reflexivity|].
    rewrite alter_alter_eq. split; [reflexivity|]. done.
Qed.

Lemma processImagesAsync_settles (imageRecords : list ImageRecord) p :
  db_faults p = [] →
  ∃ p', processImagesAsync analyzeImage imageRecords preset p = (Returns (), p')
        ∧ ∀ k row, db p !! k = Some row →
                   k ∈ map id imageRecords ∨ settled (row_status row) = true →
                   ∃ row', db p' !! k = Some row' ∧ settled (row_status row') = true.
Proof.
  revert p. induction imageRecords as [|record rest IH]; intros p Hstore.
  - exists p. split; [done|]. intros k row Hrow [Hin | Hsettled].
    + by apply elem_of_nil in Hin.
    + by exists row.
  - destruct (process_one_settles record p Hstore) as (p1 & f & Hone & Hstore1 & Hdb1 & Hf).
    destruct (IH p1 Hstore1) as (p' & Hrest & Hrows).
    exists p'. split.
    { cbn [processImagesAsync]. unfold mbind, M_bind, bind. by rewrite Hone. }
    intros k row Hrow Hk.
    destruct (decide (id record = k)) as [<-|Hne].
    + apply (Hrows (id record) (f row)); [|by right].
      by rewrite Hdb1, lookup_alter_eq, Hrow.
    + apply (Hrows k row); [by rewrite Hdb1, lookup_alter_ne|].
      destruct Hk as [Hin | Hsettled]; [|by right].
      left. cbn [map] in Hin. apply elem_of_cons in Hin as [->|Hin]; done.
Qed.
End Settling.

(** X8. When the store accepts its writes, the processing loop runs to the
    end of the batch without rejecting, and every image of the batch that
    has a row in the table ends with the status [completed] or [error]:
    none is left [pending] or [processing], whatever the analysis of any
    image answers, and also when an image occurs twice in the batch. *)
Theorem processImagesAsync_settles_every_image {E : Type}
    (analyzeImage : string → M E JsVal) (preset : option Preset)
    (imageRecords : list ImageRecord) (p : Pipeline E) :
  db_faults p = [] →
  ∃ p', processImagesAsync analyzeImage imageRecords preset p = (Returns (), p')
        ∧ ∀ record row, record ∈ imageRecords → db p !! id record = Some row →
                        ∃ row', db p' !! id record = Some row'
                                ∧ (row_status row' = completed ∨ row_status row' = error).
Proof.
  intros Hstore.
  destruct (processImagesAsync_settles analyzeImage preset imageRecords p Hstore)
    as (p' & Hrun & Hrows).
  exists p'. split; [done|].
  intros record row Hin Hrow.
  destruct (Hrows (id record) row Hrow) as (row' & Hrow' & Hsettled).
  { left. by apply list_elem_of_fmap_2. }
  exists row'. split; [done|].
  destruct (row_status row'); try discriminate; auto.
Qed.

Lemma processImagesAsync_settles_every_image_witness :
  db_faults three_pending = []
  ∧ ∃ p', processImagesAsync fails_on_b [image_a; image_b; image_c] None three_pending
          = (Returns (), p')
          ∧ ∀ record row, record ∈ [image_a; image_b; image_c] →
                          db three_pending !! id record = Some row →
                          ∃ row', db p' !! id record = Some row'
                                  ∧ (row_status row' = completed ∨ row_status row' = error).
Proof.
  split; [reflexivity|].
  exact (processImagesAsync_settles_every_image fails_on_b None
           [image_a; image_b; image_c] three_pending eq_refl).
Defined.

(** ** The orchestrator: what is recorded *)

(** X9. What the loop body records for an image whose analysis returned,
    when the store accepts its writes. The verdict of validation is not
    looked at: as soon as validation returns, with [is_valid] true or false,
    the three fields of the result are stored as they are and the status
    becomes [completed], the earlier error message of the row staying in
    place. Only when validation itself throws is the image marked [error],
    with the message of what was thrown, and its earlier fields stay. *)
Theorem process_one_records_whatever_the_verdict {E : Type}
    (analyzeImage : string → M E JsVal) (preset : option Preset) (record : ImageRecord)
    (p : Pipeline E) (result alt : JsVal) (env' : E) (row : ImageRow) :
  db_faults p = [] →
  analyzeImage (file_path record) (env p) = (Returns result, env') →
  get result "alt_text" = Returns alt →
  db p !! id record = Some row →
  let metadata := JObj [("alt_text", alt); ("title", get_opt result "title");
                        ("keywords", get_opt result "keywords")] in
  ∃ p', process_one analyzeImage preset record p = (Returns (), p')
        ∧ env p' = env'
        ∧ db p' !! id record
          = Some match validateMetadata metadata preset with
                 | Returns verdict =>
                     mkRow completed alt (get_opt result "title") (get_opt result "keywords")
                           (row_error_message row)
                 | Throws t =>
                     mkRow error (row_alt_text row) (row_title row) (row_keywords row)
                           (Some (message_of t))
                 end.
Proof.
  intros Hstore Hanalyze Halt Hrow metadata.
  unfold process_one, try_catch, mbind, M_bind, bind.
  rewrite db_run_accepted by done.
  unfold analyze. cbn [db db_faults env]. rewrite Hanalyze.
  unfold lift_outcome. rewrite Halt. fold metadata.
  destruct (validateMetadata metadata preset) as [verdict|t];
    rewrite db_run_accepted by done; cbn [db db_faults env];
    eexists; (split; [reflexivity|]); (split; [reflexivity|]);
    cbn [db]; by rewrite !lookup_alter_eq, Hrow.
Qed.

Lemma process_one_records_whatever_the_verdict_witness :
  validateMetadata (obj3 (JStr "A red car on a street") (JStr "     ")
                      (strs ["car"; "red"; "street"; "urban"; "vehicle"])) None
  = Returns (mkValidation false ["Too few keywords: 5 (minimum: 15)"] ["Title is required"])
  ∧ ∃ p', process_one answers_blank_title None image_a three_pending = (Returns (), p')
          ∧ db p' !! "a"
            = Some (mkRow completed (JStr "A red car on a street") (JStr "     ")
                      (JArr (strs ["car"; "red"; "street"; "urban"; "vehicle"])) None).
Proof.
  split; [reflexivity|].
  destruct (process_one_records_whatever_the_verdict answers_blank_title None image_a
              three_pending
              (obj3 (JStr "A red car on a street") (JStr "     ")
                 (strs ["car"; "red"; "street"; "urban"; "vehicle"]))
              (JStr "A red car on a street") () pending_row
              eq_refl eq_refl eq_refl eq_refl) as (p' & Hrun & _ & Hrow).
  exists p'. split; [exact Hrun | exact Hrow].
Defined.

(** ** The orchestrator: when the loop stops *)

Section StoreFailures.
Context {E : Type} (analyzeImage : string → M E JsVal) (preset : option Preset).
Implicit Types (p : Pipeline E) (record : ImageRecord).

Lemma consumes_script_bind {A B} (m : M (Pipeline E) A) (k : A → M (Pipeline E) B) :
  consumes_script m → (∀ a, consumes_script (k a)) → consumes_script (m ≫= k).
Proof.
  intros Hm Hk p. unfold mbind, M_bind, bind. specialize (Hm p).
  destruct (m p) as [[a|t] p1]; [|done].
  etrans; [apply Hk | exact Hm].
Qed.

Lemma consumes_script_try_catch {A} (m : M (Pipeline E) A) handler :
  consumes_script m → (∀ t, consumes_script (handler t)) →
  consumes_script (try_catch m handler).
Proof.
  intros Hm Hhandler p. unfold try_catch. specialize (Hm p).
  destruct (m p) as [[a|t] p1]; [done|].
  etrans; [apply Hhandler | exact Hm].
Qed.

Lemma consumes_script_db_run set image_id : consumes_script (E:=E) (db_run set image_id).
Proof.
  intros p. unfold db_run.
  destruct (db_faults p) as [|[err|] script]; cbn [db_faults snd];
    [done | by apply suffix_cons_r..].
Qed.

Lemma consumes_script_process_one_body record :
  consumes_script
    (db_run set_processing (id record);;
     result ← analyze analyzeImage record;
     alt ← lift_outcome (get result "alt_text");
     validation ← lift_outcome
       (validateMetadata
          (JObj [("alt_text", alt); ("title", get_opt result "title");
                 ("keywords", get_opt result "keywords")]) preset);
     db_run (set_completed alt (get_opt result "title") (get_opt result "keywords"))
            (id record)).
Proof.
  apply consumes_script_bind; [apply consumes_script_db_run | intros _].
  apply consumes_script_bind.
  { intros p. unfold analyze. by destruct (analyzeImage _ _). }
  intros result.
  apply consumes_script_bind; [by intros p | intros alt].
  apply consumes_script_bind; [by intros p | intros validation].
  apply consumes_script_db_run.
Qed.

(** The loop body rejects only with an error the store answered with. *)
Lemma process_one_rejects record p :
  db_faults (process_one analyzeImage preset record p).2 `suffix_of` db_faults p
  ∧ ∀ t, (process_one analyzeImage preset record p).1 = Throws t →
         ∃ err, t = ThrownError err ∧ Some err ∈ db_faults p.
Proof.
  unfold process_one, try_catch.
  pose proof (consumes_script_process_one_body record p) as Hbody.
  match type of Hbody with
  | db_faults (?body p).2 `suffix_of` _ => destruct (body p) as [[[]|t0] p1]
  end; cbn [fst snd] in *; [by split|].
  unfold db_run.
  destruct (db_faults p1) as [|[err|] script] eqn:Hscript; cbn [fst snd db_faults].
  - split; [by apply suffix_nil | discriminate].
  - split; [etrans; [by apply suffix_cons_r | exact Hbody]|].
    intros t [= <-]. exists err. split; [done|].
    destruct Hbody as [used ->]. apply elem_of_app. right. by left.
  - split; [etrans; [by apply suffix_cons_r | exact Hbody] | discriminate].
Qed.

Lemma processImagesAsync_rejects (imageRecords : list ImageRecord) p t :
  (processImagesAsync analyzeImage imageRecords preset p).1 = Throws t →
  ∃ err, t = ThrownError err ∧ Some err ∈ db_faults p.
Proof.
  revert p. induction imageRecords as [|record rest IH]; intros p; [discriminate|].
  cbn [processImagesAsync]. unfold mbind, M_bind, bind.
  destruct (process_one_rejects record p) as [Hscript Hthrows].
  destruct (process_one analyzeImage preset record p) as [[[]|t0] p1]; cbn [fst snd] in *.
  - intros Hrest. destruct (IH p1 Hrest) as (err & -> & Hin).
    exists err. split; [done|].
    destruct Hscript as [used ->]. apply elem_of_app. by right.
  - intros [= <-]. by apply Hthrows.
Qed.
End StoreFailures.

(** X10. The processing loop stops before the end of the batch only on a
    failure of the store: when it rejects, what it rejects with is an error
    with which the store answered one of its writes. No failure of the
    analysis, of the adapter or of validation ever ends the loop. *)
Theorem processImagesAsync_stops_only_on_store_failure {E : Type}
    (analyzeImage : string → M E JsVal) (preset : option Preset)
    (imageRecords : list ImageRecord) (p : Pipeline E) (t : Thrown) :
  (processImagesAsync analyzeImage imageRecords preset p).1 = Throws t →
  ∃ err, t = ThrownError err ∧ Some err ∈ db_faults p.
Proof. apply processImagesAsync_rejects. Qed.

Lemma processImagesAsync_stops_only_on_store_failure_witness :
  (processImagesAsync fails_on_b [image_b; image_c] None
     (mkPipeline (db three_pending) [None; Some (new_Error "SQLITE_BUSY")] ())).1
  = Throws (ThrownError (new_Error "SQLITE_BUSY"))
  ∧ ∃ err, ThrownError (new_Error "SQLITE_BUSY") = ThrownError err
           ∧ Some err ∈ [None; Some (new_Error "SQLITE_BUSY")].
Proof.
  split; [reflexivity|].
  exact (processImagesAsync_stops_only_on_store_failure fails_on_b None [image_b; image_c]
           (mkPipeline (db three_pending) [None; Some (new_Error "SQLITE_BUSY")] ())
           (ThrownError (new_Error "SQLITE_BUSY")) eq_refl).
Defined.

(** ** Strings: occurrences and pieces *)

#[local] Arguments String.append !s1 s2 : simpl nomatch.

Lemma string_app_assoc (a b c : string) : (a +:+ b) +:+ c = a +:+ (b +:+ c).
Proof. induction a as [|d a IH]; simpl; [done|]. by rewrite IH. Qed.

Lemma string_app_nil_r (s : string) : s +:+ "" = s.
Proof. induction s as [|d s IH]; simpl; [done|]. by rewrite IH. Qed.

Lemma lacks_cons (c d : ascii) (s : string) :
  lacks c (String d s) ↔ Ascii.eqb c d = false ∧ lacks c s.
Proof.
  unfold lacks. simpl. destruct (Ascii.eqb c d).
  - split; [discriminate | by intros [? _]].
  - destruct (JsString.indexOf c s); simpl; split; (done || by intros [_ ?]).
Qed.

Lemma lacks_app (c : ascii) (a b : string) : lacks c (a +:+ b) ↔ lacks c a ∧ lacks c b.
Proof.
  induction a as [|d a IH]; simpl.
  - split; [by split | by intros [_ ?]].
  - rewrite !lacks_cons, IH. tauto.
Qed.

Lemma lastIndexOf_None (c : ascii) (s : string) :
  JsString.lastIndexOf c s = None ↔ lacks c s.
Proof.
  induction s as [|d s IH]; [done|].
  rewrite lacks_cons, <- IH. simpl.
  destruct (JsString.lastIndexOf c s); [split; [discriminate | by intros [_ ?]]|].
  destruct (Ascii.eqb c d); split; (done || discriminate || by intros [? _]).
Qed.

Lemma indexOf_lt (c : ascii) (s : string) (i : nat) :
  JsString.indexOf c s = Some i → i < String.length s.
Proof.
  revert i. induction s as [|d s IH]; intros i; simpl; [discriminate|].
  destruct (Ascii.eqb c d); [intros [= <-]; lia|].
  destruct (JsString.indexOf c s) as [i'|]; [|discriminate].
  intros [= <-]. specialize (IH i' eq_refl). lia.
Qed.

Lemma lastIndexOf_lt (c : ascii) (s : string) (j : nat) :
  JsString.lastIndexOf c s = Some j → j < String.length s.
Proof.
  revert j. induction s as [|d s IH]; intros j; simpl; [discriminate|].
  destruct (JsString.lastIndexOf c s) as [j'|].
  - intros [= <-]. specialize (IH j' eq_refl). lia.
  - destruct (Ascii.eqb c d); [intros [= <-]; lia | discriminate].
Qed.

Lemma indexOf_app_lacks (c : ascii) (pre s : string) :
  lacks c pre →
  JsString.indexOf c (pre +:+ s) = (λ i, String.length pre + i) <$> JsString.indexOf c s.
Proof.
  induction pre as [|d pre IH]; simpl.
  - intros _. by destruct (JsString.indexOf c s).
  - intros [-> Hpre]%lacks_cons. rewrite (IH Hpre).
    by destruct (JsString.indexOf c s).
Qed.

Lemma lastIndexOf_app_lacks_l (c : ascii) (pre s : string) :
  lacks c pre →
  JsString.lastIndexOf c (pre +:+ s)
  = (λ j, String.length pre + j) <$> JsString.lastIndexOf c s.
Proof.
  induction pre as [|d pre IH]; simpl.
  - intros _. by destruct (JsString.lastIndexOf c s).
  - intros [Hd Hpre]%lacks_cons. rewrite (IH Hpre), Hd.
    by destruct (JsString.lastIndexOf c s).
Qed.

Lemma indexOf_app_found (c : ascii) (s post : string) (i : nat) :
  JsString.indexOf c s = Some i → JsString.indexOf c (s +:+ post) = Some i.
Proof.
  revert i. induction s as [|d s IH]; intros i; simpl; [discriminate|].
  destruct (Ascii.eqb c d); [done|].
  destruct (JsString.indexOf c s) as [i'|]; [|discriminate].
  intros [= <-]. by rewrite (IH i' eq_refl).
Qed.

Lemma lastIndexOf_app_lacks_r (c : ascii) (s post : string) :
  lacks c post → JsString.lastIndexOf c (s +:+ post) = JsString.lastIndexOf c s.
Proof.
  intros Hpost. induction s as [|d s IH]; simpl.
  - by apply lastIndexOf_None.
  - by rewrite IH.
Qed.

Lemma lastIndexOf_app_found (c : ascii) (before after : string) :
  lacks c after →
  JsString.lastIndexOf c (before +:+ String c after) = Some (String.length before).
Proof.
  intros Hafter. induction before as [|d before IH]; simpl.
  - apply lastIndexOf_None in Hafter. by rewrite Hafter, Ascii.eqb_refl.
  - by rewrite IH.
Qed.

Lemma substring_app_skip (pre s : string) (i n : nat) :
  String.substring (String.length pre + i) n (pre +:+ s) = String.substring i n s.
Proof. induction pre as [|d pre IH]; simpl; done. Qed.

Lemma substring_app_within (s post : string) (i n : nat) :
  i + n ≤ String.length s →
  String.substring i n (s +:+ post) = String.substring i n s.
Proof.
  revert i n. induction s as [|d s IH]; intros i n; simpl.
  - intros Hle. assert (i = 0) as -> by lia. assert (n = 0) as -> by lia.
    by destruct post.
  - intros Hle. destruct i as [|i].
    + destruct n as [|n]; [done|]. rewrite IH by lia. done.
    + apply IH. lia.
Qed.

Lemma substring_whole (s : string) : String.substring 0 (String.length s) s = s.
Proof. induction s as [|d s IH]; simpl; [done|]. by rewrite IH. Qed.

Lemma substring_app_exact (s post : string) :
  String.substring 0 (String.length s) (s +:+ post) = s.
Proof. rewrite substring_app_within by lia. apply substring_whole. Qed.

(** Two ways to cut one string in two: one of the cuts comes first. *)
Lemma string_app_eq_split (pre r init post : string) :
  pre +:+ r = init +:+ post →
  (∃ mid, init = pre +:+ mid ∧ r = mid +:+ post)
  ∨ (∃ x, pre = init +:+ x ∧ post = x +:+ r).
Proof.
  revert init. induction pre as [|d pre IH]; intros init; simpl.
  - intros ->. left. by exists init.
  - destruct init as [|e init]; simpl.
    + intros <-. right. by exists (String d pre).
    + intros [= <- Hrest]. destruct (IH init Hrest) as [(mid & -> & ->) | (x & -> & ->)].
      * left. by exists mid.
      * right. by exists x.
Qed.

Lemma prefix_split (p s : string) : String.prefix p s = true → ∃ r, s = p +:+ r.
Proof.
  revert s. induction p as [|d p IH]; intros s.
  - intros _. by exists s.
  - destruct s as [|e s]; simpl; [discriminate|].
    destruct (ascii_dec d e) as [<-|]; [|discriminate].
    intros [r ->]%IH. by exists r.
Qed.

Lemma list_ascii_of_string_app (a b : string) :
  list_ascii_of_string (a +:+ b) = (list_ascii_of_string a ++ list_ascii_of_string b)%list.
Proof. induction a as [|d a IH]; simpl; [done|]. by rewrite IH. Qed.

Lemma string_of_list_ascii_app (a b : list ascii) :
  string_of_list_ascii (a ++ b) = string_of_list_ascii a +:+ string_of_list_ascii b.
Proof. induction a as [|d a IH]; simpl; [done|]. by rewrite IH. Qed.

Lemma rev_app (a b : string) : JsString.rev (a +:+ b) = JsString.rev b +:+ JsString.rev a.
Proof.
  unfold JsString.rev.
  by rewrite list_ascii_of_string_app, rev_app_distr, string_of_list_ascii_app.
Qed.

Lemma rev_rev (s : string) : JsString.rev (JsString.rev s) = s.
Proof.
  unfold JsString.rev.
  by rewrite list_ascii_of_string_of_list_ascii, rev_involutive,
       string_of_list_ascii_of_string.
Qed.

Lemma endsWith_split (q s : string) : JsString.endsWith q s = true → ∃ init, s = init +:+ q.
Proof.
  unfold JsString.endsWith. intros [r Hr]%prefix_split.
  exists (JsString.rev r).
  by rewrite <- (rev_rev s), Hr, rev_app, rev_rev.
Qed.

Lemma slice_neg_middle (pre mid post : string) :
  JsString.slice_neg (String.length pre) (String.length post) (pre +:+ mid +:+ post) = mid.
Proof.
  unfold JsString.slice_neg. rewrite !string_length_app.
  replace (String.length pre + (String.length mid + String.length post)
           - String.length post - String.length pre) with (String.length mid) by lia.
  rewrite <- (Nat.add_0_r (String.length pre)), substring_app_skip.
  apply substring_app_exact.
Qed.

Lemma trimStart_split (s : string) :
  ∃ pre, s = pre +:+ JsString.trimStart s
         ∧ ∀ c, JsString.is_whitespace c = false → lacks c pre.
Proof.
  induction s as [|d s (pre & Hs & Hpre)]; simpl.
  - by exists "".
  - destruct (JsString.is_whitespace d) eqn:Hd.
    + exists (String d pre). split; [simpl; by rewrite <- Hs|].
      intros c Hc. apply lacks_cons. split; [|by apply Hpre].
      apply Ascii.eqb_neq. by intros ->; rewrite Hd in Hc.
    + by exists "".
Qed.

Lemma trimEnd_split (s : string) :
  ∃ post, s = JsString.trimEnd s +:+ post
          ∧ ∀ c, JsString.is_whitespace c = false → lacks c post.
Proof.
  induction s as [|d s (post & Hs & Hpost)]; simpl.
  - by exists "".
  - destruct (JsString.trimEnd s) as [|e t] eqn:Htrim.
    + destruct (JsString.is_whitespace d) eqn:Hd.
      * exists (String d post). split; [simpl in Hs; by rewrite <- Hs|].
        intros c Hc. apply lacks_cons. split; [|by apply Hpost].
        apply Ascii.eqb_neq. by intros ->; rewrite Hd in Hc.
      * exists post. split; [simpl in *; by rewrite <- Hs | done].
    + exists post. split; [simpl in *; by rewrite <- Hs | done].
Qed.

(** ** The OpenAI-compatible adapter: cleaning the content *)

#[local] Abbreviation match_braces := OpenAICompatibleEndpoint.match_braces.
#[local] Abbreviation cleanContent := OpenAICompatibleEndpoint.cleanContent.

Lemma match_braces_app_l (pre s : string) :
  lacks "{" pre → lacks "}" pre → match_braces (pre +:+ s) = match_braces s.
Proof.
  intros Hopen Hclose. unfold match_braces.
  rewrite indexOf_app_lacks, lastIndexOf_app_lacks_l by done.
  destruct (JsString.indexOf "{" s) as [i|]; [|done].
  destruct (JsString.lastIndexOf "}" s) as [j|]; [|done].
  cbn [fmap option_fmap option_map].
  replace (String.length pre + i <? String.length pre + j) with (i <? j).
  2:{ destruct (Nat.ltb_spec i j), (Nat.ltb_spec (String.length pre + i)
        (String.length pre + j)); (done || lia). }
  destruct (i <? j); [|done].
  replace (String.length pre + j - (String.length pre + i) + 1) with (j - i + 1) by lia.
  by rewrite substring_app_skip.
Qed.

Lemma match_braces_app_r (s post : string) :
  lacks "{" post → lacks "}" post → match_braces (s +:+ post) = match_braces s.
Proof.
  intros Hopen Hclose. unfold match_braces.
  rewrite lastIndexOf_app_lacks_r by done.
  destruct (JsString.indexOf "{" s) as [i|] eqn:Hi.
  - rewrite (indexOf_app_found _ _ _ _ Hi).
    destruct (JsString.lastIndexOf "}" s) as [j|] eqn:Hj; [|done].
    destruct (Nat.ltb_spec i j); [|done].
    apply lastIndexOf_lt in Hj.
    by rewrite substring_app_within by lia.
  - assert (lacks "{" (s +:+ post)) as -> by (by apply lacks_app).
    done.
Qed.

Lemma match_braces_trim (s : string) : match_braces (JsString.trim s) = match_braces s.
Proof.
  unfold JsString.trim.
  destruct (trimStart_split s) as (pre & Hs & Hpre).
  destruct (trimEnd_split (JsString.trimStart s)) as (post & Ht & Hpost).
  rewrite Hs at 2. rewrite match_braces_app_l by (by apply Hpre).
  rewrite Ht at 2. by rewrite match_braces_app_r by (by apply Hpost).
Qed.

Lemma match_braces_lacks (s : string) : lacks "{" s → match_braces s = None.
Proof. unfold match_braces, lacks. by intros ->. Qed.

(** Cutting a fence off both ends keeps the braces that are matched. *)
Lemma match_braces_unfence (p q s m : string) :
  JsString.startsWith p s = true →
  JsString.endsWith q s = true →
  lacks "{" p → lacks "}" p → lacks "{" q → lacks "}" q →
  match_braces s = Some m →
  match_braces (JsString.slice_neg (String.length p) (String.length q) s) = Some m.
Proof.
  intros [r Hr]%prefix_split [init Hinit]%endsWith_split Hp1 Hp2 Hq1 Hq2 Hmatch.
  destruct (string_app_eq_split p r init q) as [(mid & -> & ->) | (x & Hp & Hq)];
    [congruence | |].
  - subst s. rewrite slice_neg_middle.
    by rewrite match_braces_app_l, match_braces_app_r in Hmatch.
  - subst s. rewrite match_braces_lacks in Hmatch; [done|].
    apply lacks_app. split; [done|].
    rewrite Hq in Hq1. by apply lacks_app in Hq1 as [_ ?].
Qed.

Lemma cleanContent_match (content m : string) :
  match_braces content = Some m → cleanContent content = m.
Proof.
  intros Hmatch. unfold cleanContent.
  rewrite <- match_braces_trim in Hmatch.
  set (clean := JsString.trim content) in *.
  destruct (JsString.startsWith "```json" clean && JsString.endsWith "```" clean) eqn:Hjson.
  - apply andb_true_iff in Hjson as [Hstart Hend].
    rewrite match_braces_trim.
    pose proof (match_braces_unfence "```json" "```" clean m Hstart Hend
                  eq_refl eq_refl eq_refl eq_refl Hmatch) as Hcut.
    cbn [String.length] in Hcut. by rewrite Hcut.
  - destruct (JsString.startsWith "```" clean && JsString.endsWith "```" clean) eqn:Hfence.
    + apply andb_true_iff in Hfence as [Hstart Hend].
      rewrite match_braces_trim.
      pose proof (match_braces_unfence "```" "```" clean m Hstart Hend
                    eq_refl eq_refl eq_refl eq_refl Hmatch) as Hcut.
      cbn [String.length] in Hcut. by rewrite Hcut.
    + by rewrite Hmatch.
Qed.

(** X11. The text that the OpenAI-compatible adapter hands to [JSON.parse].
    When the content of the model holds an opening brace and, somewhere
    after it, a closing brace, the text parsed runs from the first opening
    brace of the content to its last closing brace, whatever surrounds
    them: white space, a code fence with or without the [json] tag, or
    prose before and after. *)
Theorem cleanContent_extracts_the_braces (before inside after : string) :
  lacks "{" before →
  lacks "}" after →
  cleanContent (before +:+ "{" +:+ inside +:+ "}" +:+ after) = "{" +:+ inside +:+ "}".
Proof.
  intros Hbefore Hafter. apply cleanContent_match.
  set (content := before +:+ "{" +:+ inside +:+ "}" +:+ after).
  assert (JsString.indexOf "{" content = Some (String.length before)) as Hopen.
  { unfold content. rewrite indexOf_app_lacks by done. simpl. f_equal. lia. }
  assert (JsString.lastIndexOf "}" content
          = Some (String.length before + S (String.length inside))) as Hclose.
  { unfold content.
    replace (before +:+ "{" +:+ inside +:+ "}" +:+ after)
      with ((before +:+ "{" +:+ inside) +:+ String "}" after)
      by (by rewrite !string_app_assoc).
    rewrite lastIndexOf_app_found by done.
    rewrite !string_length_app. simpl. done. }
  unfold match_braces. rewrite Hopen, Hclose.
  destruct (Nat.ltb_spec (String.length before)
              (String.length before + S (String.length inside))); [|lia].
  f_equal.
  replace (String.length before + S (String.length inside) - String.length before + 1)
    with (String.length ("{" +:+ inside +:+ "}")).
  2:{ rewrite !string_length_app. simpl. lia. }
  unfold content.
  rewrite <- (Nat.add_0_r (String.length before)) at 1.
  rewrite substring_app_skip.
  replace ("{" +:+ inside +:+ "}" +:+ after) with (("{" +:+ inside +:+ "}") +:+ after)
    by (by rewrite !string_app_assoc).
  apply substring_app_exact.
Qed.

Lemma cleanContent_extracts_the_braces_witness :
  lacks "{" "Here you go: ```json "
  ∧ lacks "}" " ``` Hope this helps!"
  ∧ cleanContent ("Here you go: ```json " +:+ "{" +:+ "title: {}, keywords: []"
                  +:+ "}" +:+ " ``` Hope this helps!")
    = "{" +:+ "title: {}, keywords: []" +:+ "}".
Proof.
  split; [reflexivity|]. split; [reflexivity|].
  apply cleanContent_extracts_the_braces; reflexivity.
Defined.

(** ** The adapters: what they resolve with *)

Lemma first_occurrences_nonempty {A} `{EqDecision A} (l : list A) :
  l ≠ [] → first_occurrences l ≠ [].
Proof.
  destruct l as [|x l]; [done|]. intros _ Hempty.
  assert (x ∈ first_occurrences (x :: l)) as Hin by (apply first_occurrences_elem; by left).
  rewrite Hempty in Hin. by apply elem_of_nil in Hin.
Qed.

(** Whatever [processResult] returns has the three fields, and between 1
    and 25 keywords. *)
Lemma processResult_shape (raw out : JsVal) :
  processResult raw = Returns out →
  ∃ a t ks, out = obj3 a t ks ∧ 1 ≤ length ks ≤ 25.
Proof.
  unfold processResult. destruct (ResultSchema_parse raw) as [v|] eqn:Hparse.
  - intros [= <-]. eexists _, _, _. split; [reflexivity|].
    rewrite length_strs, processedKeywords_first_occurrences, length_take.
    apply ResultSchema_parse_Some in Hparse as (_ & _ & Hcount & _).
    assert (first_occurrences (keywords v) ≠ []) as Hnonempty.
    { apply first_occurrences_nonempty. intros Hnil. rewrite Hnil in Hcount.
      simpl in Hcount. lia. }
    destruct (first_occurrences (keywords v)); [done|]. cbn [length]. lia.
  - intros Hrepair.
    destruct (processResult_returns_or_cannot_convert raw) as [(a & t & ks & Hout) | Hthrows].
    + unfold processResult in Hout. rewrite Hparse, Hrepair in Hout.
      injection Hout as ->. exists a, t, ks. split; [done|].
      pose proof (repair_keywords_count raw a t ks Hrepair). lia.
    + unfold processResult in Hthrows. rewrite Hparse, Hrepair in Hthrows. discriminate.
Qed.

(** A value the retry policy returns was returned by the operation. *)
Lemma withRetry_returns_from {W T} (fn : M W T) (maxRetries baseDelayMs : Z)
    (r : Run W) (v : T) :
  (withRetry fn maxRetries baseDelayMs r).1 = Returns v →
  ∃ w, (fn w).1 = Returns v.
Proof.
  unfold withRetry. destruct (Z.to_nat (maxRetries + 1)) as [|m] eqn:Hrounds.
  - discriminate.
  - pose proof (retry_loop_outcome fn maxRetries baseDelayMs m 0 None r ltac:(lia)) as Hloop.
    intros Hreturns. rewrite Hreturns in Hloop.
    destruct Hloop as (k & _ & _ & Hok). by eexists.
Qed.

Section AdapterResults.
Context {W : Type} (fetchWithTimeout : Request → Z → M W Response).
Variable JSON_parse : string → option JsVal.
Variables (baseUrl apiKey : string) (timeoutMs retries : Z) (requestBody : JsVal).

Lemma custom_makeRequest_returns (w : W) (result : JsVal) :
  (CustomBackendEndpoint.makeRequest fetchWithTimeout baseUrl timeoutMs requestBody w).1
  = Returns result →
  ∃ a t ks data,
    result = analyze_result a t ks data
    ∧ 1 ≤ length ks ≤ 25
    ∧ processResult data = Returns (obj3 a t ks)
    ∧ truthy (get_opt data "alt_text") = true
    ∧ truthy (get_opt data "title") = true
    ∧ truthy (get_opt data "keywords") = true.
Proof.
  unfold CustomBackendEndpoint.makeRequest, mbind, M_bind, bind, lift_outcome.
  destruct (fetchWithTimeout _ _ w) as [[response|t] w1]; [|discriminate].
  destruct (ok response); cbn [negb]; [|discriminate].
  destruct (json response) as [data|t]; [|discriminate].
  destruct (get data "alt_text") as [alt|t] eqn:Halt; [|discriminate].
  assert (alt = get_opt data "alt_text") as ->.
  { unfold get in Halt. destruct data as [[]| |]; try discriminate; by injection Halt as <-. }
  destruct (truthy (get_opt data "alt_text")) eqn:Htruthy_alt; cbn [negb orb]; [|discriminate].
  destruct (truthy (get_opt data "title")) eqn:Htruthy_title; cbn [negb orb]; [|discriminate].
  destruct (truthy (get_opt data "keywords")) eqn:Htruthy_keywords; cbn [negb orb];
    [|discriminate].
  destruct (processResult data) as [validatedResult|t] eqn:Hprocess; [|discriminate].
  destruct (processResult_shape data validatedResult Hprocess) as (a & t & ks & -> & Hcount).
  intros [= <-]. by exists a, t, ks, data.
Qed.

Lemma openai_makeRequest_returns (w : W) (result : JsVal) :
  (OpenAICompatibleEndpoint.makeRequest fetchWithTimeout JSON_parse baseUrl apiKey timeoutMs
     requestBody w).1 = Returns result →
  ∃ a t ks data, result = analyze_result a t ks data ∧ 1 ≤ length ks ≤ 25.
Proof.
  unfold OpenAICompatibleEndpoint.makeRequest, mbind, M_bind, bind, lift_outcome.
  destruct (fetchWithTimeout _ _ w) as [[response|t] w1]; [|discriminate].
  destruct (ok response); cbn [negb]; [|discriminate].
  destruct (json response) as [data|t]; [|discriminate].
  destruct (OpenAICompatibleEndpoint.content_of data) as [content|t]; [|discriminate].
  destruct (truthy content); cbn [negb]; [|discriminate].
  destruct (OpenAICompatibleEndpoint.parse_content JSON_parse content)
    as [parsedContent|t]; [|discriminate].
  destruct (processResult parsedContent) as [validatedResult|t] eqn:Hprocess; [|discriminate].
  destruct (processResult_shape _ validatedResult Hprocess) as (a & t & ks & -> & Hcount).
  intros [= <-]. by exists a, t, ks, data.
Qed.
End AdapterResults.

(** X12. What a successful analysis looks like, with either adapter and
    any number of retries. Whenever [analyzeImage] resolves, its value is
    an object with exactly the fields [alt_text], [title], [keywords] and
    [raw], and [keywords] is an array of at least 1 and at most 25 items:
    nothing that the service answered, however malformed, reaches the
    caller without these fields. *)
Theorem analyzeImage_result_shape {W : Type} (fetchWithTimeout : Request → Z → M W Response)
    (JSON_parse : string → option JsVal) (baseUrl apiKey : string) (timeoutMs retries : Z)
    (requestBody : JsVal) (r : Run W) (result : JsVal) :
  (CustomBackendEndpoint.analyzeImage fetchWithTimeout baseUrl timeoutMs retries
     requestBody r).1 = Returns result
  ∨ (OpenAICompatibleEndpoint.analyzeImage fetchWithTimeout JSON_parse baseUrl apiKey
       timeoutMs retries requestBody r).1 = Returns result →
  ∃ a t ks data, result = analyze_result a t ks data ∧ 1 ≤ length ks ≤ 25.
Proof.
  intros [Hcustom | Hopenai].
  - apply withRetry_returns_from in Hcustom as [w Hattempt].
    apply custom_makeRequest_returns in Hattempt
      as (a & t & ks & data & -> & Hcount & _).
    by exists a, t, ks, data.
  - apply withRetry_returns_from in Hopenai as [w Hattempt].
    by apply openai_makeRequest_returns in Hattempt.
Qed.

Lemma analyzeImage_result_shape_witness :
  (CustomBackendEndpoint.analyzeImage flaky_backend "http://backend" 60000 2
     analyze_request (mkRun 0 [])).1
  = Returns (analyze_result (JStr "A red car on a street") (JStr "Red car in urban setting")
               (strs six_keywords) red_car_payload)
  ∧ ∃ a t ks data,
      analyze_result (JStr "A red car on a street") (JStr "Red car in urban setting")
        (strs six_keywords) red_car_payload
      = analyze_result a t ks data
      ∧ 1 ≤ length ks ≤ 25.
Proof.
  split; [reflexivity|].
  apply (analyzeImage_result_shape flaky_backend rejects_prose "http://backend" "" 60000 2
           analyze_request (mkRun 0 [])).
  left. reflexivity.
Defined.

(** ** The image input *)

Lemma startsWith_app (p r : string) : JsString.startsWith p (p +:+ r) = true.
Proof.
  unfold JsString.startsWith. induction p as [|d p IH]; simpl; [by destruct r|].
  by destruct (ascii_dec d d).
Qed.

Lemma slice_from_app (p r : string) :
  ImageInput.slice_from (String.length p) (p +:+ r) = r.
Proof.
  unfold ImageInput.slice_from. rewrite string_length_app.
  replace (String.length p + String.length r - String.length p)
    with (String.length r) by lia.
  rewrite <- (Nat.add_0_r (String.length p)), substring_app_skip.
  apply substring_whole.
Qed.

Lemma after_type_app (ty r : string) :
  lacks ";" ty →
  ImageInput.after_type (ty +:+ String ";" r) = String ";" r.
Proof.
  induction ty as [|d ty IH]; simpl; [done|].
  intros [Hd Hty]%lacks_cons.
  rewrite Ascii.eqb_sym, Hd. by apply IH.
Qed.

Lemma looks_base64_no_colon (s r : string) :
  ImageInput.looks_base64 (s +:+ String ":" r) = false.
Proof.
  assert (ImageInput.all_units ImageInput.is_base64_unit (s +:+ String ":" r) = false)
    as Hall.
  { induction s as [|d s IH]; simpl; [done|]. rewrite IH. apply andb_false_r. }
  unfold ImageInput.looks_base64. by destruct (s +:+ String ":" r).
Qed.

Lemma strip_data_url_base64 (s : string) :
  ImageInput.looks_base64 s = true → ImageInput.strip_data_url s = s.
Proof.
  intros Hlooks. unfold ImageInput.strip_data_url.
  destruct (JsString.startsWith "data:image/" s) eqn:Hstart; [|done].
  apply prefix_split in Hstart as [r ->].
  pose proof (looks_base64_no_colon "data" ("image/" +:+ r)) as Hcolon.
  change ("data" +:+ String ":" ("image/" +:+ r)) with ("data:image/" +:+ r) in Hcolon.
  congruence.
Qed.

(** X13. The two inline forms of an image denote the same payload, and
    neither touches the file system. A data URL
    [data:image/<type>;base64,<payload>], for any non-empty type without a
    semicolon, is reduced to its payload; a text made of base64 characters
    only is taken as the payload itself. In both cases no file is read,
    whatever the path would have held. *)
Theorem base64Data_of_inline_image {W : Type} (readFileSync_base64 : string → M W string)
    (type payload : string) (w : W) :
  type ≠ "" →
  lacks ";" type →
  ImageInput.base64Data readFileSync_base64
    ("data:image/" +:+ type +:+ ";base64," +:+ payload) w = (Returns payload, w)
  ∧ (ImageInput.looks_base64 payload = true →
     ImageInput.base64Data readFileSync_base64 payload w = (Returns payload, w)).
Proof.
  intros Hnonempty Htype. split.
  - unfold ImageInput.base64Data.
    assert (JsString.startsWith "data:"
              ("data:image/" +:+ type +:+ ";base64," +:+ payload) = true) as ->.
    { apply (startsWith_app "data:" ("image/" +:+ type +:+ ";base64," +:+ payload)). }
    cbn [orb]. unfold ImageInput.strip_data_url.
    rewrite startsWith_app.
    pose proof (slice_from_app "data:image/" (type +:+ ";base64," +:+ payload)) as Hrest.
    cbn [String.length] in Hrest. rewrite Hrest.
    change (";base64," +:+ payload) with (String ";" ("base64," +:+ payload)).
    rewrite (after_type_app type ("base64," +:+ payload)) by done.
    assert ((String.length (String ";" ("base64," +:+ payload))
             =? String.length (type +:+ String ";" ("base64," +:+ payload))) = false) as ->.
    { apply Nat.eqb_neq. rewrite string_length_app.
      destruct type; [done|]. simpl. lia. }
    change (String ";" ("base64," +:+ payload)) with (";base64," +:+ payload).
    cbn [negb andb].
    rewrite (startsWith_app ";base64," payload).
    pose proof (slice_from_app ";base64," payload) as Htail.
    cbn [String.length] in Htail. by rewrite Htail.
  - intros Hlooks. unfold ImageInput.base64Data.
    rewrite Hlooks, orb_true_r. by rewrite strip_data_url_base64.
Qed.

Lemma base64Data_of_inline_image_witness :
  "png" ≠ ""
  ∧ lacks ";" "png"
  ∧ ImageInput.base64Data reads_hello ("data:image/" +:+ "png" +:+ ";base64," +:+ "QUJD") 0
    = (Returns "QUJD", 0)
  ∧ (ImageInput.looks_base64 "QUJD" = true →
     ImageInput.base64Data reads_hello "QUJD" 0 = (Returns "QUJD", 0)).
Proof.
  split; [discriminate|]. split; [reflexivity|].
  exact (base64Data_of_inline_image reads_hello "png" "QUJD" 0
           ltac:(discriminate) eq_refl).
Defined.

(** ** The custom adapter under its configuration *)

Lemma withRetry_invocations_bound {W T} (fn : M W T) (maxRetries baseDelayMs : Z)
    (r : Run W) :
  invocations (events (withRetry fn maxRetries baseDelayMs r).2)
  ≤ invocations (events r) + Z.to_nat (maxRetries + 1).
Proof.
  unfold withRetry. destruct (Z.to_nat (maxRetries + 1)) as [|m] eqn:Hrounds.
  - simpl. lia.
  - destruct (retry_loop_events fn maxRetries baseDelayMs m 0 None r ltac:(lia))
      as (j & Hj & ->).
    rewrite !invocations_app, invocations_backoff. simpl. lia.
Qed.

Lemma withRetry_number_bound {W T} (fn : M W T) (maxRetries : option Z) (r : Run W) :
  invocations (events (withRetry_number fn maxRetries r).2)
  ≤ invocations (events r) + match maxRetries with
                             | Some n => Z.to_nat (n + 1)
                             | None => 0
                             end.
Proof.
  destruct maxRetries as [n|]; [apply withRetry_invocations_bound|]. simpl. lia.
Qed.

Lemma withRetry_number_no_round {W T} (fn : M W T) (maxRetries : option Z) (r : Run W) :
  match maxRetries with Some n => Z.to_nat (n + 1) | None => 0 end = 0 →
  withRetry_number fn maxRetries r = (Throws (ThrownValue PUndefined), r).
Proof.
  destruct maxRetries as [n|]; [|done].
  unfold withRetry_number, withRetry. by intros ->.
Qed.

Section CustomClientFacts.
Context {W : Type} (fetchWithTimeout : Request → Z → M W Response).
Variable readFileSync_base64 : string → M W string.
Variable processEnv : ProcessEnv.
Variables (baseUrl : string) (timeoutMs : Z).
Local Abbreviation analyzeImage :=
  (CustomBackendClient.analyzeImage fetchWithTimeout readFileSync_base64 processEnv
     baseUrl timeoutMs).

Lemma custom_client_budget (filePathOrBase64 prompt : string) (r : Run W) :
  invocations (events (analyzeImage filePathOrBase64 prompt r).2)
  ≤ invocations (events r) + request_budget processEnv.
Proof.
  unfold CustomBackendClient.analyzeImage, mbind, M_bind, bind, in_world.
  destruct (ImageInput.base64Data _ _ _) as [[base64Data|t] w1]; [|simpl; lia].
  apply (withRetry_number_bound _ _ (mkRun w1 (events r))).
Qed.

Lemma custom_client_no_attempt (filePathOrBase64 prompt : string) (r : Run W) :
  request_budget processEnv = 0 →
  events (analyzeImage filePathOrBase64 prompt r).2 = events r
  ∧ ∀ base64Data w1,
      ImageInput.base64Data readFileSync_base64 filePathOrBase64 (world r)
      = (Returns base64Data, w1) →
      analyzeImage filePathOrBase64 prompt r
      = (Throws (ThrownValue PUndefined), mkRun w1 (events r)).
Proof.
  intros Hbudget.
  unfold CustomBackendClient.analyzeImage, mbind, M_bind, bind, in_world.
  destruct (ImageInput.base64Data _ _ _) as [[base64Data|t] w1].
  - rewrite withRetry_number_no_round by done. split; [done|].
    by intros ? ? [= <- <-].
  - split; [done | discriminate].
Qed.
End CustomClientFacts.

(** X14. The custom adapter sends at most as many requests per analysis as
    its configuration allows: one more than the number read from
    [REQUEST_RETRIES], which is three when the variable is not set or
    empty. When the value is negative or not a number the adapter sends no
    request at all: once the image input is at hand it rejects at once, and
    the value it rejects with is [undefined], not an [Error]. *)
Theorem custom_analyzeImage_request_budget {W : Type}
    (fetchWithTimeout : Request → Z → M W Response)
    (readFileSync_base64 : string → M W string) (processEnv : ProcessEnv)
    (baseUrl : string) (timeoutMs : Z) (filePathOrBase64 prompt : string) (r : Run W) :
  let run := CustomBackendClient.analyzeImage fetchWithTimeout readFileSync_base64
               processEnv baseUrl timeoutMs filePathOrBase64 prompt r in
  invocations (events run.2) ≤ invocations (events r) + request_budget processEnv
  ∧ (default "" (processEnv !! "REQUEST_RETRIES") = "" → request_budget processEnv = 3)
  ∧ (request_budget processEnv = 0 →
     events run.2 = events r
     ∧ ∀ base64Data w1,
         ImageInput.base64Data readFileSync_base64 filePathOrBase64 (world r)
         = (Returns base64Data, w1) →
         run = (Throws (ThrownValue PUndefined), mkRun w1 (events r))).
Proof.
  split; [apply custom_client_budget|]. split.
  - unfold request_budget, request_retries, env_or.
    destruct (processEnv !! "REQUEST_RETRIES") as [v|]; simpl; [intros ->|]; done.
  - apply custom_client_no_attempt.
Qed.

(** ** The orchestrator over an analysis that always fails *)

Section AllFail.
Context {E : Type} (analyzeImage : string → M E JsVal) (preset : option Preset).
Variables (message : string) (steady : E → Prop).
Hypothesis always_fails :
  ∀ path e, steady e →
    ∃ t e', analyzeImage path e = (Throws t, e') ∧ message_of t = message ∧ steady e'.
Implicit Types (p : Pipeline E) (record : ImageRecord).

Lemma process_one_fails record p :
  db_faults p = [] → steady (env p) →
  ∃ p', process_one analyzeImage preset record p = (Returns (), p')
        ∧ db_faults p' = [] ∧ steady (env p')
        ∧ db p' = alter (set_error message ∘ set_processing) (id record) (db p).
Proof.
  intros Hstore Hsteady.
  destruct (always_fails (file_path record) (env p) Hsteady) as (t & e' & Hfail & <- & He').
  unfold process_one, try_catch, mbind, M_bind, bind.
  rewrite db_run_accepted by done.
  unfold analyze. cbn [db db_faults env]. rewrite Hfail.
  rewrite db_run_accepted by done. cbn [db db_faults env].
  eexists. split; [reflexivity|]. cbn [db db_faults env].
  by rewrite alter_alter_eq.
Qed.

Lemma processImagesAsync_all_fail (imageRecords : list ImageRecord) p :
  db_faults p = [] → steady (env p) →
  ∃ p', processImagesAsync analyzeImage imageRecords preset p = (Returns (), p')
        ∧ steady (env p')
        ∧ ∀ k row, db p !! k = Some row →
                   k ∈ map id imageRecords
                   ∨ (row_status row = error ∧ row_error_message row = Some message) →
                   ∃ row', db p' !! k = Some row'
                           ∧ row_status row' = error
                           ∧ row_error_message row' = Some message.
Proof.
  revert p. induction imageRecords as [|record rest IH]; intros p Hstore Hsteady.
  - exists p. split; [done|]. split; [done|]. intros k row Hrow [Hin | Hdone].
    + by apply elem_of_nil in Hin.
    + by exists row.
  - destruct (process_one_fails record p Hstore Hsteady)
      as (p1 & Hone & Hstore1 & Hsteady1 & Hdb1).
    destruct (IH p1 Hstore1 Hsteady1) as (p' & Hrest & Hsteady' & Hrows).
    exists p'. split.
    { cbn [processImagesAsync]. unfold mbind, M_bind, bind. by rewrite Hone. }
    split; [done|].
    intros k row Hrow Hk.
    destruct (decide (id record = k)) as [<-|Hne].
    + apply (Hrows (id record) (set_error message (set_processing row))); [|by right].
      by rewrite Hdb1, lookup_alter_eq, Hrow.
    + apply (Hrows k row); [by rewrite Hdb1, lookup_alter_ne|].
      destruct Hk as [Hin | Hdone]; [|by right].
      left. cbn [map] in Hin. apply elem_of_cons in Hin as [->|Hin]; done.
Qed.
End AllFail.

(** X15. A batch analysed through a custom adapter whose [REQUEST_RETRIES]
    is negative or not a number. When the files can be read and the store
    accepts its writes, the loop reaches the end of the batch, no request
    is sent for any image, and every image of the batch ends with the
    status [error] and the message ["Unknown error"]: what the adapter
    rejects with is not an [Error], so nothing tells the user that the
    configuration is at fault. *)
Theorem processImagesAsync_without_request_budget {W : Type}
    (fetchWithTimeout : Request → Z → M W Response)
    (readFileSync_base64 : string → M W string) (processEnv : ProcessEnv)
    (baseUrl : string) (timeoutMs : Z) (preset : option Preset)
    (imageRecords : list ImageRecord) (p : Pipeline (Run W)) :
  request_budget processEnv = 0 →
  (∀ path w, ∃ content w', readFileSync_base64 path w = (Returns content, w')) →
  db_faults p = [] →
  ∃ p',
    processImagesAsync
      (λ path, CustomBackendClient.analyzeImage fetchWithTimeout readFileSync_base64
                 processEnv baseUrl timeoutMs path analysis_prompt)
      imageRecords preset p = (Returns (), p')
    ∧ events (env p') = events (env p)
    ∧ ∀ record row, record ∈ imageRecords → db p !! id record = Some row →
                    ∃ row', db p' !! id record = Some row'
                            ∧ row_status row' = error
                            ∧ row_error_message row' = Some "Unknown error".
Proof.
  intros Hbudget Hreadable Hstore.
  destruct (processImagesAsync_all_fail
              (λ path, CustomBackendClient.analyzeImage fetchWithTimeout readFileSync_base64
                         processEnv baseUrl timeoutMs path analysis_prompt)
              preset "Unknown error" (λ r, events r = events (env p)))
    with (imageRecords := imageRecords) (p := p) as (p' & Hrun & Hevents & Hrows);
    [|done|done|].
  - intros path r Hr.
    destruct (custom_client_no_attempt fetchWithTimeout readFileSync_base64 processEnv
                baseUrl timeoutMs path analysis_prompt r Hbudget) as [_ Hrejects].
    assert (∃ base64Data w1,
              ImageInput.base64Data readFileSync_base64 path (world r)
              = (Returns base64Data, w1)) as (base64Data & w1 & Hinput).
    { unfold ImageInput.base64Data. destruct (_ || _); [by eexists _, _|].
      apply Hreadable. }
    eexists _, _. split; [exact (Hrejects _ _ Hinput)|]. done.
  - exists p'. split; [done|]. split; [done|].
    intros record row Hin Hrow. apply (Hrows (id record) row Hrow).
    left. by apply list_elem_of_fmap_2.
Qed.

Lemma processImagesAsync_without_request_budget_witness :
  request_budget no_retries_env = 0
  ∧ (∀ path w, ∃ content w', reads_hello path w = (Returns content, w'))
  ∧ ∃ p',
      processImagesAsync
        (λ path, CustomBackendClient.analyzeImage flaky_backend reads_hello no_retries_env
                   "http://backend" 60000 path analysis_prompt)
        [image_a; image_b; image_c] None three_pending_logged = (Returns (), p')
      ∧ events (env p') = []
      ∧ ∀ record row, record ∈ [image_a; image_b; image_c] →
                      db three_pending_logged !! id record = Some row →
                      ∃ row', db p' !! id record = Some row'
                              ∧ row_status row' = error
                              ∧ row_error_message row' = Some "Unknown error".
Proof.
  assert (∀ path w, ∃ content w', reads_hello path w = (Returns content, w')) as Hreadable.
  { intros path w. by eexists _, _. }
  split; [reflexivity|]. split; [exact Hreadable|].
  exact (processImagesAsync_without_request_budget flaky_backend reads_hello no_retries_env
           "http://backend" 60000 None [image_a; image_b; image_c] three_pending_logged
           eq_refl Hreadable eq_refl).
Defined.

(** ** The endpoint factory *)

(** X16. What the factory builds and when it refuses. The adapter is the
    custom one exactly when [MODEL_ENDPOINT_MODE] is the text ["custom"];
    any other value, and no value, gives the OpenAI-compatible one. An
    endpoint that is built has a base URL that is set and not empty, and
    so is the model of an OpenAI-compatible endpoint, whose key is empty
    when [LM_API_KEY] is not set. When the factory throws, the message
    names a variable of the selected mode that is not set or empty. *)
Theorem createModelEndpoint_requirements (processEnv : ProcessEnv) :
  let custom := bool_decide (processEnv !! "MODEL_ENDPOINT_MODE" = Some "custom") in
  match createModelEndpoint processEnv with
  | Returns (CustomBackend baseUrl _ retries) =>
      custom = true
      ∧ processEnv !! "BACKEND_BASE" = Some baseUrl ∧ baseUrl ≠ ""
      ∧ retries = request_retries processEnv
  | Returns (OpenAICompatible baseUrl model apiKey _ retries) =>
      custom = false
      ∧ processEnv !! "LM_BASE" = Some baseUrl ∧ baseUrl ≠ ""
      ∧ processEnv !! "LM_MODEL" = Some model ∧ model ≠ ""
      ∧ apiKey = default "" (processEnv !! "LM_API_KEY")
      ∧ retries = request_retries processEnv
  | Throws t =>
      ∃ name, name ∈ (if custom then ["BACKEND_BASE"] else ["LM_BASE"; "LM_MODEL"])
              ∧ default "" (processEnv !! name) = ""
              ∧ t = ThrownError (new_Error
                      (name +:+ " environment variable is required for "
                       +:+ (if custom then "custom" else "openai") +:+ " mode"))
  end.
Proof.
  intros custom. unfold createModelEndpoint.
  assert (String.eqb (default "openai" (processEnv !! "MODEL_ENDPOINT_MODE")) "custom"
          = custom) as ->.
  { unfold custom. destruct (processEnv !! "MODEL_ENDPOINT_MODE") as [mode|].
    - change (default "openai" (Some mode)) with mode.
      destruct (String.eqb_spec mode "custom") as [->|Hne].
      + by rewrite bool_decide_eq_true_2.
      + rewrite bool_decide_eq_false_2; [done|]. by intros [= ->].
    - by rewrite bool_decide_eq_false_2. }
  destruct custom.
  - destruct (processEnv !! "BACKEND_BASE") as [backendBase|] eqn:Hbase; simpl.
    + destruct (String.eqb_spec backendBase "") as [->|Hne].
      * exists "BACKEND_BASE". rewrite Hbase. split; [by left | done].
      * done.
    + exists "BACKEND_BASE". rewrite Hbase. split; [by left | done].
  - destruct (processEnv !! "LM_BASE") as [baseUrl|] eqn:Hbase; simpl.
    + destruct (String.eqb_spec baseUrl "") as [->|Hne].
      * exists "LM_BASE". rewrite Hbase. split; [by left | done].
      * destruct (processEnv !! "LM_MODEL") as [model|] eqn:Hmodel; simpl.
        -- destruct (String.eqb_spec model "") as [->|Hne'].
           ++ exists "LM_MODEL". rewrite Hmodel. split; [right; by left | done].
           ++ done.
        -- exists "LM_MODEL". rewrite Hmodel. split; [right; by left | done].
    + exists "LM_BASE". rewrite Hbase. split; [by left | done].
Qed.

(** ** Health checks *)

(** X17. The health checks of both adapters always resolve: whatever the
    transport does and whatever the service answers, they return a result
    and never reject. They report [ok] only when the service answered with
    a successful status and the body could be read; every failure, of the
    transport, of the status or of the body, comes back as [ok: false]
    with a message. *)
Theorem health_always_resolves {W : Type} (fetchWithTimeout : Request → Z → M W Response)
    (text : Response → Outcome string) (baseUrl apiKey : string) (w : W) :
  (∃ result w',
     HealthChecks.custom_health fetchWithTimeout text baseUrl w = (Returns result, w')
     ∧ (health_ok result = true →
        ∃ request response data,
          (fetchWithTimeout request 5000%Z w).1 = Returns response
          ∧ ok response = true ∧ text response = Returns data))
  ∧ (∃ result w',
       HealthChecks.openai_health fetchWithTimeout baseUrl apiKey w = (Returns result, w')
       ∧ (health_ok result = true →
          ∃ request response data,
            (fetchWithTimeout request 5000%Z w).1 = Returns response
            ∧ ok response = true ∧ json response = Returns data)).
Proof.
  split.
  - unfold HealthChecks.custom_health, try_catch, mbind, M_bind, bind, lift_outcome.
    destruct (fetchWithTimeout _ 5000%Z w) as [[response|t] w1] eqn:Hfetch;
      [|by eexists _, _].
    destruct (ok response) eqn:Hok; [|by eexists _, _].
    destruct (text response) as [data|t] eqn:Htext; [|by eexists _, _].
    eexists _, _. split; [reflexivity|]. intros _.
    eexists _, response, data. by rewrite Hfetch.
  - unfold HealthChecks.openai_health, try_catch, mbind, M_bind, bind, lift_outcome.
    destruct (fetchWithTimeout _ 5000%Z w) as [[response|t] w1] eqn:Hfetch;
      [|by eexists _, _].
    destruct (ok response) eqn:Hok; [|by eexists _, _].
    destruct (json response) as [data|t] eqn:Hjson; [|by eexists _, _].
    destruct (get data "data") as [models|t]; [|by eexists _, _].
    destruct (ToString _) as [count|t]; [|by eexists _, _].
    eexists _, _. split; [reflexivity|]. intros _.
    eexists _, response, data. by rewrite Hfetch.
Qed.

Example health_of_a_service_that_answers_no_json :
  HealthChecks.openai_health answers_not_json "http://lm" "" ()
  = (Returns (mkHealth false "Health check error: Unexpected token < in JSON"), ()).
Proof. reflexivity. Qed.

(** ** Export: the CSV text reads back *)

Section CsvRoundTrip.
Import ExportRoute.

Lemma csv_scan_plain (v rest field : string) (record : list string) :
  includes "," v = false → includes newline v = false → includes quote v = false →
  csv_scan (v +:+ rest) false field record = csv_scan rest false (field +:+ v) record.
Proof.
  revert field. induction v as [|c v IH]; intros field; simpl.
  - intros _ _ _. by rewrite string_app_nil_r.
  - intros [Hc1 Hv1]%orb_false_elim [Hc2 Hv2]%orb_false_elim [Hc3 Hv3]%orb_false_elim.
    rewrite Hc1, Hc2, Hc3. rewrite IH by done.
    by rewrite string_app_assoc.
Qed.

Lemma csv_scan_quoted (v rest field : string) (record : list string) :
  field_end rest →
  csv_scan (double_quotes v +:+ String quote rest) true field record
  = csv_scan rest false (field +:+ v) record.
Proof.
  intros Hend. revert field. induction v as [|c v IH]; intros field.
  - rewrite string_app_nil_r. simpl.
    destruct rest as [|c' rest']; [done|].
    destruct Hend as [-> | ->]; done.
  - simpl. destruct (Ascii.eqb_spec c quote) as [->|Hc].
    + simpl. rewrite IH. by rewrite string_app_assoc.
    + simpl. apply Ascii.eqb_neq in Hc. rewrite Hc.
      rewrite IH. by rewrite string_app_assoc.
Qed.

Lemma csv_scan_field (v rest : string) (record : list string) :
  field_end rest →
  csv_scan (escapeCSV v +:+ rest) false "" record = csv_scan rest false v record.
Proof.
  intros Hend. unfold escapeCSV.
  destruct (String.eqb_spec v "") as [->|Hne]; [done|].
  destruct (includes "," v) eqn:Hcomma; cbn [orb].
  2: destruct (includes newline v) eqn:Hnewline; cbn [orb].
  3: destruct (includes quote v) eqn:Hquote.
  4: by rewrite csv_scan_plain.
  all: simpl; rewrite string_app_assoc; simpl; by rewrite csv_scan_quoted.
Qed.

Lemma record_end_field_end (rest : string) : record_end rest → field_end rest.
Proof. destruct rest; [done|]. by right. Qed.

Lemma csv_scan_cells (cells : list string) (rest : string) (record : list string) :
  cells ≠ [] →
  record_end rest →
  csv_scan (join_strings "," (map escapeCSV cells) +:+ rest) false "" record
  = match rest with
    | EmptyString => [record ++ cells]
    | String _ rest' => (record ++ cells) :: csv_scan rest' false "" []
    end.
Proof.
  intros Hcells Hend. revert record.
  induction cells as [|x [|y cells] IH]; intros record; [done| |].
  - cbn [map join_strings]. rewrite csv_scan_field by (by apply record_end_field_end).
    destruct rest as [|c rest']; [done|]. simpl in Hend. by subst c.
  - cbn [map join_strings] in *. rewrite !string_app_assoc.
    rewrite csv_scan_field by (by left).
    simpl. rewrite IH by done.
    by destruct rest; rewrite <- !app_assoc.
Qed.

Lemma csv_parse_render (table : list (list string)) :
  table ≠ [] → Forall (λ record, record ≠ []) table →
  csv_parse (csv_render table) = table.
Proof.
  unfold csv_parse, csv_render. intros Htable Hrecords.
  induction table as [|record [|next table] IH]; [done| |].
  - cbn [map join_strings]. apply Forall_cons in Hrecords as [Hrecord _].
    rewrite <- (string_app_nil_r (join_strings "," _)).
    by rewrite csv_scan_cells.
  - apply Forall_cons in Hrecords as [Hrecord Hrest].
    cbn [map join_strings] in *.
    rewrite csv_scan_cells by done. cbn [app]. f_equal. by apply IH.
Qed.

Variable JSON_parse : string → Outcome JsVal.

Lemma join_with_strs (sep : string) (ks : list string) :
  join_with sep (strs ks) = Returns (join_strings sep ks).
Proof.
  induction ks as [|k [|k' ks] IH]; [done..|].
  cbn [strs map join_with item_text ToString prim_ToString join_strings] in *.
  by rewrite IH.
Qed.

(** A row whose keywords column holds an array of strings. *)
Lemma row_text (preset : option string) (image : ExportImage) (ks : list string) :
  parsed_keywords JSON_parse image = Returns (JArr (strs ks)) →
  (if is_preset preset "shutterstock" then shutterstock_row JSON_parse image
   else default_row JSON_parse preset image)
  = Returns (join_strings "," (map escapeCSV (record_values JSON_parse preset image))).
Proof.
  intros Hparsed.
  assert (keyword_strings JSON_parse image = ks) as Hks.
  { unfold keyword_strings. by rewrite Hparsed, as_strings_strs. }
  unfold shutterstock_row, default_row, record_values, and_then, keywords_join.
  rewrite Hparsed, !join_with_strs, Hks.
  destruct (is_preset preset "shutterstock"); [done|].
  by destruct (is_preset preset "adobe-stock").
Qed.

Lemma rows_text (preset : option string) (images : list ExportImage) :
  (∀ image, image ∈ images →
            ∃ ks, parsed_keywords JSON_parse image = Returns (JArr (strs ks))) →
  map_outcome (λ image, if is_preset preset "shutterstock"
                        then shutterstock_row JSON_parse image
                        else default_row JSON_parse preset image) images
  = Returns (map (λ image, join_strings ","
                             (map escapeCSV (record_values JSON_parse preset image)))
               images).
Proof.
  induction images as [|image images IH]; intros Hkeywords; [done|].
  cbn [map_outcome map].
  destruct (Hkeywords image ltac:(by left)) as [ks Hparsed].
  rewrite (row_text preset image ks Hparsed), IH; [done|].
  intros other Hother. apply Hkeywords. by right.
Qed.

Lemma generateCSV_render (preset : option string) (images : list ExportImage) :
  (∀ image, image ∈ images →
            ∃ ks, parsed_keywords JSON_parse image = Returns (JArr (strs ks))) →
  generateCSV JSON_parse images preset
  = Returns (csv_render (header_values preset
                         :: map (record_values JSON_parse preset) images)).
Proof.
  intros Hkeywords. pose proof (rows_text preset images Hkeywords) as Hrows.
  unfold generateCSV, header_values, csv_render. revert Hrows.
  destruct (is_preset preset "shutterstock"); intros Hrows.
  - change (map_outcome (shutterstock_row JSON_parse) images)
      with (map_outcome (λ image, shutterstock_row JSON_parse image) images).
    rewrite Hrows. cbn [and_then map]. by rewrite map_map.
  - change (map_outcome (default_row JSON_parse preset) images)
      with (map_outcome (λ image, default_row JSON_parse preset image) images).
    rewrite Hrows. cbn [and_then map]. rewrite map_map.
    unfold default_headers. by destruct (is_preset preset "adobe-stock").
Qed.
End CsvRoundTrip.

(** X18. The CSV export reads back. When the keywords column of every
    image holds an array of strings, [generateCSV] returns a text that a
    CSV reader splits into exactly one record of headers and one record per
    image, in order, each with the columns of its format, and every field
    comes back as the value it stands for: names, titles and descriptions
    with commas, line feeds and double quotes in them are neither split nor
    altered. This holds for the Shutterstock format, the Adobe Stock format
    and the default one. *)
Theorem generateCSV_reads_back (JSON_parse : string → Outcome JsVal)
    (images : list ExportRoute.ExportImage) (preset : option string) :
  (∀ image, image ∈ images →
            ∃ ks, ExportRoute.parsed_keywords JSON_parse image = Returns (JArr (strs ks))) →
  ∃ text,
    ExportRoute.generateCSV JSON_parse images preset = Returns text
    ∧ ExportRoute.csv_parse text
      = ExportRoute.header_values preset
        :: map (ExportRoute.record_values JSON_parse preset) images.
Proof.
  intros Hkeywords. eexists. split; [by apply generateCSV_render|].
  apply csv_parse_render; [done|].
  apply Forall_cons. split.
  - unfold ExportRoute.header_values, ExportRoute.default_headers.
    by destruct (ExportRoute.is_preset preset "shutterstock").
  - apply Forall_forall. intros record [image [-> _]]%list_elem_of_fmap.
    unfold ExportRoute.record_values.
    by destruct (ExportRoute.is_preset preset "shutterstock").
Qed.

Lemma generateCSV_reads_back_witness :
  (∀ image, image ∈ awkward_images →
            ∃ ks, ExportRoute.parsed_keywords parses_K1 image = Returns (JArr (strs ks)))
  ∧ ∃ text,
      ExportRoute.generateCSV parses_K1 awkward_images None = Returns text
      ∧ ExportRoute.csv_parse text
        = ["filename"; "title"; "alt_text"; "keywords"]
          :: map (ExportRoute.record_values parses_K1 None) awkward_images.
Proof.
  assert (∀ image, image ∈ awkward_images →
            ∃ ks, ExportRoute.parsed_keywords parses_K1 image = Returns (JArr (strs ks)))
    as Hkeywords.
  { intros image Hin. unfold awkward_images in Hin.
    apply elem_of_cons in Hin as [->|Hin]; [by exists ["car"; "red, old"]|].
    apply list_elem_of_singleton in Hin as ->. by exists []. }
  split; [exact Hkeywords|].
  exact (generateCSV_reads_back parses_K1 awkward_images None Hkeywords).
Defined.

(** ** The validator without repair *)

(** X19. The two versions of [processResult] agree wherever the one
    without repair returns: the lenient version returns the same value
    there, and differs only where the strict one throws. What the strict
    version returns always has a description of 5 to 160 characters, a
    title of at most 70 characters and between 1 and 25 keywords, all
    different. *)
Theorem strict_processResult_agrees (raw out : JsVal) :
  StrictValidator.processResult raw = Some out →
  processResult raw = Returns out
  ∧ ∃ a t ks, out = obj3 (JStr a) (JStr t) (strs ks)
              ∧ 5 ≤ String.length a ≤ 160
              ∧ String.length t ≤ 70
              ∧ NoDup ks
              ∧ 1 ≤ length ks ≤ 25.
Proof.
  unfold StrictValidator.processResult.
  destruct (ResultSchema_parse raw) as [v|] eqn:Hparse; [|discriminate].
  intros [= <-]. split; [by rewrite (processResult_strict raw v Hparse)|].
  pose proof (ResultSchema_parse_Some raw v Hparse) as (Halt & _ & Hcount & _).
  eexists _, _, _. split; [reflexivity|]. split; [done|].
  split; [apply processedTitle_length|].
  split; [apply processedKeywords_NoDup|].
  change (take 25 (Array_from_Set String.eqb (keywords v)))
    with (processedKeywords (keywords v)).
  rewrite processedKeywords_first_occurrences, length_take.
  assert (first_occurrences (keywords v) ≠ []) as Hnonempty.
  { apply first_occurrences_nonempty. intros Hnil. rewrite Hnil in Hcount.
    simpl in Hcount. lia. }
  destruct (first_occurrences (keywords v)); [done|]. cbn [length]. lia.
Qed.

Lemma strict_processResult_agrees_witness :
  StrictValidator.processResult repeated_keywords_payload
  = Some (obj3 (JStr "A red car on a street") (JStr "Red car in urban setting")
            (strs ["car"; "red"; "street"; "urban"; "vehicle"]))
  ∧ processResult repeated_keywords_payload
    = Returns (obj3 (JStr "A red car on a street") (JStr "Red car in urban setting")
                 (strs ["car"; "red"; "street"; "urban"; "vehicle"])).
Proof.
  split; [reflexivity|].
  exact (proj1 (strict_processResult_agrees repeated_keywords_payload _ eq_refl)).
Defined.

(** ** Validation: when it throws *)

Lemma map_outcome_toLowerCase_outcome (items : list JsVal) :
  match map_outcome call_toLowerCase items with
  | Returns _ => keywords_readable (JArr items) = true
  | Throws t => keywords_readable (JArr items) = false ∧ is_TypeError t
  end.
Proof.
  induction items as [|k items IH]; [done|].
  cbn [map_outcome keywords_readable forallb] in *.
  destruct k as [[| |b|n|s]|nested|props]; cbn [call_toLowerCase];
    try (split; [done | by eexists]).
  destruct (map_outcome call_toLowerCase items); [done|].
  destruct IH as [-> ?]. done.
Qed.

Section ValidationOutcome.
Variables (metadata : JsVal) (preset : option Preset).
Implicit Types (l : Lists).

Lemma validate_title_outcome l :
  match (validate_title metadata preset l).1 with
  | Returns _ => text_like (get_opt metadata "title") = true
  | Throws t => text_like (get_opt metadata "title") = false ∧ is_TypeError t
  end.
Proof.
  unfold validate_title.
  destruct (get_opt metadata "title") as [[| |b|n|s]|items|props]; cbn [truthy text_like negb];
    try done; try (split; [done | by eexists]).
  - destruct b; [split; [done | by eexists] | done].
  - destruct (n =? 0)%Z; [done | split; [done | by eexists]].
  - destruct (_ || _); [done|]. unfold when. by destruct (_ <? _)%Z.
Qed.

Lemma validate_alt_text_outcome l :
  match (validate_alt_text metadata l).1 with
  | Returns _ => text_like (get_opt metadata "alt_text") = true
  | Throws t => text_like (get_opt metadata "alt_text") = false ∧ is_TypeError t
  end.
Proof.
  unfold validate_alt_text.
  destruct (get_opt metadata "alt_text") as [[| |b|n|s]|items|props];
    cbn [truthy text_like negb]; try done; try (split; [done | by eexists]).
  - destruct b; [split; [done | by eexists] | done].
  - destruct (n =? 0)%Z; [done | split; [done | by eexists]].
  - destruct (_ || _); [done|]. unfold when. by destruct (_ <? _)%Z.
Qed.

Lemma validate_keywords_outcome l :
  match (validate_keywords metadata preset l).1 with
  | Returns _ => keywords_readable (get_opt metadata "keywords") = true
  | Throws t => keywords_readable (get_opt metadata "keywords") = false ∧ is_TypeError t
  end.
Proof.
  unfold validate_keywords.
  destruct (get_opt metadata "keywords") as [p|items|props]; try done.
  pose proof (map_outcome_toLowerCase_outcome items) as Hitems.
  unfold mbind, M_bind, bind, lift_outcome, when.
  destruct (map_outcome call_toLowerCase items) as [lowered|t].
  - destruct (_ <? _)%Z, (_ <? _)%Z, (negb _); done.
  - destruct (_ <? _)%Z, (_ <? _)%Z; done.
Qed.
End ValidationOutcome.

Lemma validateMetadata_outcome (metadata : JsVal) (preset : option Preset) :
  match validateMetadata metadata preset with
  | Returns _ => readable metadata = true
  | Throws t => readable metadata = false ∧ is_TypeError t
  end.
Proof.
  unfold validateMetadata, readable.
  destruct (truthy metadata); cbn [negb orb]; [|done].
  unfold mbind, M_bind, bind.
  pose proof (validate_title_outcome metadata preset ([], [])) as Htitle.
  destruct (validate_title metadata preset ([], [])) as [[[]|t] l1]; cbn [fst] in Htitle.
  2:{ destruct Htitle as [-> ?]. done. }
  pose proof (validate_alt_text_outcome metadata l1) as Halt.
  destruct (validate_alt_text metadata l1) as [[[]|t] l2]; cbn [fst] in Halt.
  2:{ destruct Halt as [-> ?]. by rewrite andb_false_r. }
  pose proof (validate_keywords_outcome metadata preset l2) as Hkeywords.
  destruct (validate_keywords metadata preset l2) as [[[]|t] [ws es]]; cbn [fst] in Hkeywords.
  - by rewrite Htitle, Halt, Hkeywords.
  - destruct Hkeywords as [-> ?]. by rewrite andb_false_r.
Qed.

(** X20. When validation throws. [validateMetadata] returns exactly when
    the metadata is falsy, or its title and its description are each a
    string or a falsy value and its keywords are either not an array or an
    array of strings only. In every other case, a title or description that
    is a number, an array or an object, or a keyword that is not a string,
    it throws, and what it throws is a [TypeError]. *)
Theorem validateMetadata_throws_exactly (metadata : JsVal) (preset : option Preset) :
  match validateMetadata metadata preset with
  | Returns _ => readable metadata = true
  | Throws t => readable metadata = false ∧ is_TypeError t
  end.
Proof. apply validateMetadata_outcome. Qed.

Example validateMetadata_throws_on_a_numeric_keyword :
  validateMetadata numeric_keyword_metadata None
  = Throws (ThrownError (TypeError "k.toLowerCase is not a function"))
  ∧ readable numeric_keyword_metadata = false.
Proof. done. Qed.

(** ** From the answer of the backend to the row of the image *)

Lemma as_strings_Some (items : list JsVal) (l : list string) :
  as_strings items = Some l → items = strs l.
Proof.
  revert l. induction items as [|[[| |b|n|s]|nested|props] items IH]; intros l; simpl;
    try discriminate.
  - by intros [= <-].
  - destruct (as_strings items) as [l'|]; [|discriminate].
    intros [= <-]. by rewrite (IH l' eq_refl).
Qed.

(** What the schema accepts is an object with the three fields. *)
Lemma ResultSchema_parse_fields (data : JsVal) (v : ValidatedResult) :
  ResultSchema_parse data = Some v →
  ∃ props, data = JObj props
           ∧ own_prop props "alt_text" = Some (JStr (alt_text v))
           ∧ own_prop props "title" = Some (JStr (title v))
           ∧ own_prop props "keywords" = Some (JArr (strs (keywords v))).
Proof.
  unfold ResultSchema_parse.
  destruct data as [p|items|props]; try discriminate.
  destruct (own_prop props "alt_text") as [[[| |b|n|a]|?|?]|] eqn:Halt; try discriminate.
  destruct (own_prop props "title") as [[[| |b|n|t]|?|?]|] eqn:Htitle; try discriminate.
  destruct (own_prop props "keywords") as [[?|ks|?]|] eqn:Hkeywords; try discriminate.
  destruct (as_strings ks) as [kws|] eqn:Hks; [|discriminate].
  destruct (schema_bounds a t kws); [|discriminate].
  intros [= <-]. exists props. cbn [alt_text title keywords].
  by rewrite <- (as_strings_Some ks kws Hks).
Qed.

Lemma keywords_readable_strs (ks : list string) : keywords_readable (JArr (strs ks)) = true.
Proof. induction ks as [|k ks IH]; [done|]. exact IH. Qed.

Lemma nonempty_truthy (s : string) : 5 ≤ String.length s → truthy (JStr s) = true.
Proof. destruct s; simpl; [lia | done]. Qed.

Section HappyPath.
Context {W : Type} (fetchWithTimeout : Request → Z → M W Response).
Variable readFileSync_base64 : string → M W string.
Variable processEnv : ProcessEnv.
Variables (baseUrl : string) (timeoutMs : Z).

Lemma custom_makeRequest_valid (requestBody : JsVal) (w1 w2 : W) (response : Response)
    (data : JsVal) (v : ValidatedResult) :
  fetchWithTimeout
    (mkRequest (baseUrl +:+ "/api/analyze") "POST" [("Content-Type", "application/json")]
       requestBody) timeoutMs w1 = (Returns response, w2) →
  ok response = true →
  json response = Returns data →
  ResultSchema_parse data = Some v →
  CustomBackendEndpoint.makeRequest fetchWithTimeout baseUrl timeoutMs requestBody w1
  = (Returns (analyze_result (JStr (alt_text v)) (JStr (processedTitle (title v)))
                (strs (processedKeywords (keywords v))) data), w2).
Proof.
  intros Hfetch Hok Hjson Hparse.
  pose proof (ResultSchema_parse_Some data v Hparse) as (Halt_len & Htitle_len & _).
  destruct (ResultSchema_parse_fields data v Hparse)
    as (props & -> & Halt & Htitle & Hkeywords).
  unfold CustomBackendEndpoint.makeRequest, mbind, M_bind, bind, lift_outcome.
  rewrite Hfetch, Hok, Hjson. cbn [negb get get_opt].
  rewrite Halt, Htitle, Hkeywords. cbn [default from_option Datatypes.id].
  rewrite !nonempty_truthy by lia. cbn [truthy negb orb].
  by rewrite (processResult_strict _ v Hparse).
Qed.
End HappyPath.

(** X21. From the answer of the backend to the row of the image. With a
    custom adapter that is allowed at least one attempt and a store that
    accepts its writes: when the image can be read and the backend answers
    the first request with a body the schema accepts, the image ends
    [completed] after exactly one request and no waiting, and its row holds
    the description as the backend gave it, the title cut to 70 characters
    and the keywords without repetition and cut to 25, under every
    preset. *)
Theorem process_one_stores_the_processed_answer {W : Type}
    (fetchWithTimeout : Request → Z → M W Response)
    (readFileSync_base64 : string → M W string) (processEnv : ProcessEnv)
    (baseUrl : string) (timeoutMs : Z) (preset : option Preset) (record : ImageRecord)
    (p : Pipeline (Run W)) (row : ImageRow) (base64Data : string) (w1 w2 : W)
    (response : Response) (data : JsVal) (v : ValidatedResult) :
  db_faults p = [] →
  db p !! id record = Some row →
  request_budget processEnv ≠ 0 →
  ImageInput.base64Data readFileSync_base64 (file_path record) (world (env p))
  = (Returns base64Data, w1) →
  fetchWithTimeout
    (mkRequest (baseUrl +:+ "/api/analyze") "POST" [("Content-Type", "application/json")]
       (CustomBackendClient.requestBody base64Data analysis_prompt)) timeoutMs w1
  = (Returns response, w2) →
  ok response = true →
  json response = Returns data →
  ResultSchema_parse data = Some v →
  ∃ p',
    process_one
      (λ path, CustomBackendClient.analyzeImage fetchWithTimeout readFileSync_base64
                 processEnv baseUrl timeoutMs path analysis_prompt)
      preset record p = (Returns (), p')
    ∧ db p' !! id record
      = Some (mkRow completed (JStr (alt_text v)) (JStr (processedTitle (title v)))
                (JArr (strs (processedKeywords (keywords v)))) (row_error_message row))
    ∧ env p' = mkRun w2 (events (env p) ++ [Invoked]).
Proof.
  intros Hstore Hrow Hbudget Hinput Hfetch Hok Hjson Hparse.
  set (result := analyze_result (JStr (alt_text v)) (JStr (processedTitle (title v)))
                   (strs (processedKeywords (keywords v))) data).
  assert (CustomBackendClient.analyzeImage fetchWithTimeout readFileSync_base64 processEnv
            baseUrl timeoutMs (file_path record) analysis_prompt (env p)
          = (Returns result, mkRun w2 (events (env p) ++ [Invoked]))) as Hanalyze.
  { unfold CustomBackendClient.analyzeImage, mbind, M_bind, bind, in_world.
    rewrite Hinput. unfold request_budget in Hbudget.
    destruct (request_retries processEnv) as [n|]; [|done].
    unfold withRetry_number, withRetry.
    destruct (Z.to_nat (n + 1)) as [|m]; [done|].
    rewrite (retry_loop_returns _ _ _ _ _ _ _ result).
    - cbn [world events].
      by rewrite (custom_makeRequest_valid fetchWithTimeout baseUrl timeoutMs _ w1 w2
                    response data v).
    - cbn [world].
      by rewrite (custom_makeRequest_valid fetchWithTimeout baseUrl timeoutMs _ w1 w2
                    response data v). }
  unfold process_one, try_catch, mbind, M_bind, bind.
  rewrite db_run_accepted by done.
  unfold analyze. cbn [db db_faults env]. rewrite Hanalyze.
  unfold lift_outcome. cbn [result analyze_result get get_opt own_prop String.eqb
                            Ascii.eqb Bool.eqb default from_option Datatypes.id].
  pose proof (validateMetadata_outcome
                (JObj [("alt_text", JStr (alt_text v));
                       ("title", JStr (processedTitle (title v)));
                       ("keywords", JArr (strs (processedKeywords (keywords v))))])
                preset) as Hvalidation.
  destruct (validateMetadata _ preset) as [verdict|t].
  - rewrite db_run_accepted by done. cbn [db db_faults env].
    eexists. split; [reflexivity|]. split; [|done].
    cbn [db]. by rewrite !lookup_alter_eq, Hrow.
  - destruct Hvalidation as [Hreadable _].
    unfold readable in Hreadable.
    cbn [truthy negb orb get_opt own_prop String.eqb Ascii.eqb Bool.eqb default
         from_option Datatypes.id text_like andb] in Hreadable.
    by rewrite keywords_readable_strs in Hreadable.
Qed.

Lemma process_one_stores_the_processed_answer_witness :
  db_faults three_pending_logged = []
  ∧ request_budget ∅ ≠ 0
  ∧ ResultSchema_parse red_car_payload
    = Some (mkValidated "A red car on a street" "Red car in urban setting" six_keywords)
  ∧ ∃ p',
      process_one
        (λ path, CustomBackendClient.analyzeImage healthy_backend reads_hello ∅
                   "http://backend" 60000 path analysis_prompt)
        None image_a three_pending_logged = (Returns (), p')
      ∧ db p' !! "a"
        = Some (mkRow completed (JStr "A red car on a street")
                  (JStr "Red car in urban setting") (JArr (strs six_keywords)) None)
      ∧ env p' = mkRun 1 [Invoked].
Proof.
  assert (request_budget ∅ ≠ 0) as Hbudget by (vm_compute; intros Hzero; discriminate Hzero).
  split; [reflexivity|]. split; [exact Hbudget|]. split; [reflexivity|].
  exact (process_one_stores_the_processed_answer healthy_backend reads_hello ∅
           "http://backend" 60000 None image_a three_pending_logged pending_row
           "aGVsbG8=" 0 1 (mkResponse true 200 "OK" (Returns red_car_payload))
           red_car_payload
           (mkValidated "A red car on a street" "Red car in urban setting" six_keywords)
           eq_refl eq_refl Hbudget eq_refl eq_refl eq_refl eq_refl eq_refl).
Defined.

(** ** The keywords of a result *)

Lemma strs_inj (l l' : list string) : strs l = strs l' → l = l'.
Proof.
  revert l'. induction l as [|x l IH]; intros [|y l']; simpl; try done.
  intros [= -> Hrest]. by rewrite (IH l' Hrest).
Qed.

Lemma elem_of_take_first_occurrences {A} `{EqDecision A} (n : nat) (xs : list A) (x : A) :
  x ∈ take n (first_occurrences xs) → x ∈ xs.
Proof.
  intros Hin. apply first_occurrences_elem.
  by eapply elem_of_sublist; [|apply sublist_take].
Qed.

(** The keywords of the repair path, for keywords that are strings: they
    are different from each other, between 5 and 25, and each is one of the
    keywords given or one of the five fallback words. *)
Lemma repair_keywords_origin (raw a t : JsVal) (ks : list string) (out : list JsVal) :
  get_opt raw "keywords" = JArr (strs ks) →
  repair raw = Returns (obj3 a t out) →
  ∃ l, out = strs l ∧ NoDup l ∧ 5 ≤ length l ≤ 25
       ∧ ∀ k, k ∈ l → k ∈ ks ∨ k ∈ fallback_words.
Proof.
  intros Hkeywords. unfold repair. rewrite Hkeywords. cbn [array_items].
  destruct (at_least_5_or_prefix "Professional" _) as [a'|]; [|discriminate].
  destruct (at_least_5_or_prefix "High-quality" _) as [t'|]; [|discriminate].
  intros [= _ _ <-].
  set (padded := if length ks <? 5 then take 25 (ks ++ fallback_words) else ks).
  assert (∀ k, k ∈ padded → k ∈ ks ∨ k ∈ fallback_words) as Hpadded.
  { intros k. unfold padded. destruct (length ks <? 5); [|by left].
    intros Hin. apply elem_of_app. by eapply elem_of_sublist; [|apply sublist_take]. }
  replace (if length (strs ks) <? 5 then take 25 (strs ks ++ fallbackKeywords) else strs ks)
    with (strs padded).
  2:{ unfold padded. rewrite length_strs. destruct (length ks <? 5); [|done].
      change fallbackKeywords with (strs fallback_words).
      unfold strs. by rewrite <- map_app, firstn_map. }
  rewrite Array_from_Set_strs, length_strs.
  destruct (length (first_occurrences padded) <? 5) eqn:Hfew.
  - exists fallback_words. split; [reflexivity|].
    split; [|split; [simpl; lia | by right]].
    assert (first_occurrences fallback_words = fallback_words) as <- by reflexivity.
    apply first_occurrences_NoDup.
  - apply Nat.ltb_ge in Hfew.
    exists (take 25 (first_occurrences padded)).
    split; [unfold strs; by rewrite firstn_map|].
    split; [apply NoDup_take, first_occurrences_NoDup|].
    split; [rewrite length_take; lia|].
    intros k Hin. by apply Hpadded, (elem_of_take_first_occurrences 25).
Qed.

(** X22. The keywords of a result, on either path. When the keywords of
    the input are an array of strings, the keywords [processResult] returns
    are strings that are all different, at least 1 and at most 25 of them,
    and each of them is a keyword of the input or one of the five fallback
    words: no keyword is repeated, and none is made up. *)
Theorem processResult_keywords_distinct_and_given (raw a t : JsVal) (ks : list string)
    (out : list JsVal) :
  get_opt raw "keywords" = JArr (strs ks) →
  processResult raw = Returns (obj3 a t out) →
  ∃ l, out = strs l ∧ NoDup l ∧ 1 ≤ length l ≤ 25
       ∧ ∀ k, k ∈ l → k ∈ ks ∨ k ∈ fallback_words.
Proof.
  intros Hkeywords. unfold processResult.
  destruct (ResultSchema_parse raw) as [v|] eqn:Hparse.
  - intros [= _ _ <-].
    destruct (ResultSchema_parse_fields raw v Hparse) as (props & -> & _ & _ & Hown).
    unfold get_opt in Hkeywords. rewrite Hown in Hkeywords.
    injection Hkeywords as Hsame%strs_inj. subst ks.
    pose proof (ResultSchema_parse_Some _ v Hparse) as (_ & _ & Hcount & _).
    exists (processedKeywords (keywords v)). split; [done|].
    split; [apply processedKeywords_NoDup|].
    rewrite processedKeywords_first_occurrences. split.
    + rewrite length_take.
      assert (first_occurrences (keywords v) ≠ []) as Hnonempty.
      { apply first_occurrences_nonempty. intros Hnil. rewrite Hnil in Hcount.
        simpl in Hcount. lia. }
      destruct (first_occurrences (keywords v)); [done|]. cbn [length]. lia.
    + intros k Hin. left. by apply (elem_of_take_first_occurrences 25).
  - intros Hrepair.
    destruct (repair_keywords_origin raw a t ks out Hkeywords Hrepair)
      as (l & -> & Hnodup & Hcount & Horigin).
    exists l. repeat split; (done || lia).
Qed.

Lemma processResult_keywords_distinct_and_given_witness :
  get_opt hi_payload "keywords" = JArr (strs ["a"; "b"])
  ∧ processResult hi_payload
    = Returns (obj3 (JStr "Professional image") (JStr "High-quality Hi")
                 (strs ["a"; "b"; "image"; "photo"; "visual"; "content"; "media"]))
  ∧ ∃ l, strs ["a"; "b"; "image"; "photo"; "visual"; "content"; "media"] = strs l
         ∧ NoDup l ∧ 1 ≤ length l ≤ 25
         ∧ ∀ k, k ∈ l → k ∈ ["a"; "b"] ∨ k ∈ fallback_words.
Proof.
  split; [reflexivity|]. split; [reflexivity|].
  exact (processResult_keywords_distinct_and_given hi_payload _ _ ["a"; "b"] _
           eq_refl eq_refl).
Defined.

(** ** Export: one row that cannot be read *)

Lemma map_outcome_app_throws {A B} (f : A → Outcome B) (before after : list A) (x : A)
    (ys : list B) (t : Thrown) :
  map_outcome f before = Returns ys →
  f x = Throws t →
  map_outcome f (before ++ x :: after) = Throws t.
Proof.
  revert ys. induction before as [|b before IH]; intros ys; simpl.
  - intros _ ->. done.
  - destruct (f b) as [y|t']; [|discriminate].
    destruct (map_outcome f before) as [ys'|t']; [|discriminate].
    intros _ Hx. by rewrite (IH ys' eq_refl Hx).
Qed.

(** X23. The export fails as a whole. When the keywords column of one
    image cannot be parsed, while those of the images before it can,
    [generateCSV] throws what [JSON.parse] threw for that image and returns
    no text at all, whatever the images after it hold: unlike the
    processing loop, the export does not set the one image aside. *)
Theorem generateCSV_fails_as_a_whole (JSON_parse : string → Outcome JsVal)
    (before after : list ExportRoute.ExportImage) (image : ExportRoute.ExportImage)
    (preset : option string) (t : Thrown) :
  (∀ other, other ∈ before →
            ∃ ks, ExportRoute.parsed_keywords JSON_parse other = Returns (JArr (strs ks))) →
  ExportRoute.parsed_keywords JSON_parse image = Throws t →
  ExportRoute.generateCSV JSON_parse (before ++ image :: after) preset = Throws t.
Proof.
  intros Hbefore Himage.
  pose proof (rows_text JSON_parse preset before Hbefore) as Hrows.
  unfold ExportRoute.generateCSV. revert Hrows.
  destruct (ExportRoute.is_preset preset "shutterstock"); intros Hrows.
  - rewrite (map_outcome_app_throws (ExportRoute.shutterstock_row JSON_parse)
               before after image _ t Hrows); [done|].
    unfold ExportRoute.shutterstock_row. by rewrite Himage.
  - rewrite (map_outcome_app_throws (ExportRoute.default_row JSON_parse preset)
               before after image _ t Hrows); [done|].
    unfold ExportRoute.default_row. by rewrite Himage.
Qed.

Lemma generateCSV_fails_as_a_whole_witness :
  (∀ other, other ∈ awkward_images →
            ∃ ks, ExportRoute.parsed_keywords parses_K1 other = Returns (JArr (strs ks)))
  ∧ ExportRoute.parsed_keywords parses_K1 unparsable_image
    = Throws (ThrownError (mkError "SyntaxError" "Unexpected token"))
  ∧ ExportRoute.generateCSV parses_K1 (awkward_images ++ unparsable_image :: awkward_images)
      None
    = Throws (ThrownError (mkError "SyntaxError" "Unexpected token")).
Proof.
  assert (∀ other, other ∈ awkward_images →
            ∃ ks, ExportRoute.parsed_keywords parses_K1 other = Returns (JArr (strs ks)))
    as Hkeywords.
  { intros image Hin. unfold awkward_images in Hin.
    apply elem_of_cons in Hin as [->|Hin]; [by exists ["car"; "red, old"]|].
    apply list_elem_of_singleton in Hin as ->. by exists []. }
  split; [exact Hkeywords|]. split; [reflexivity|].
  exact (generateCSV_fails_as_a_whole parses_K1 awkward_images awkward_images
           unparsable_image None _ Hkeywords eq_refl).
Defined.

(** ** The orchestrator: a store that refuses the first write *)

(** X24. When the store refuses the write that marks an image as
    [processing], the analysis of that image is not run at all: the
    environment is as it was. If the store accepts the next write, the
    image ends with the status [error] and the message of the store, its
    other fields untouched, and the loop goes on. *)
Theorem process_one_refused_at_the_start {E : Type} (analyzeImage : string → M E JsVal)
    (preset : option Preset) (record : ImageRecord) (p : Pipeline E) (err : JsError)
    (script : list (option JsError)) :
  db_faults p = Some err :: script →
  env (process_one analyzeImage preset record p).2 = env p
  ∧ (head script = None ∨ head script = Some None →
     process_one analyzeImage preset record p
     = (Returns (),
        mkPipeline (alter (set_error (err_message err)) (id record) (db p))
                   (tail script) (env p))).
Proof.
  intros Hscript.
  assert (process_one analyzeImage preset record p
          = db_run (set_error (err_message err)) (id record)
              (mkPipeline (db p) script (env p))) as ->.
  { unfold process_one, try_catch, mbind, M_bind, bind.
    unfold db_run at 1. by rewrite Hscript. }
  unfold db_run. cbn [db db_faults env].
  destruct script as [|[err'|] rest]; cbn [fst snd env head tail].
  - by split.
  - split; [done|]. by intros [|].
  - by split.
Qed.

Lemma process_one_refused_at_the_start_witness :
  db_faults (mkPipeline (db three_pending) [Some (new_Error "SQLITE_BUSY")] ())
  = Some (new_Error "SQLITE_BUSY") :: []
  ∧ process_one fails_on_b None image_a
      (mkPipeline (db three_pending) [Some (new_Error "SQLITE_BUSY")] ())
    = (Returns (),
       mkPipeline (alter (set_error "SQLITE_BUSY") "a" (db three_pending)) [] ()).
Proof.
  split; [reflexivity|].
  apply (process_one_refused_at_the_start fails_on_b None image_a
           (mkPipeline (db three_pending) [Some (new_Error "SQLITE_BUSY")] ())
           (new_Error "SQLITE_BUSY") [] eq_refl).
  by left.
Defined.
